(** * CldrStForum.js: the Survey Tool forum module

    A shallow embedding of the in-memory part of
    [tools/cldr-apps/WebContent/js/CldrStForum.js]: the two module-wide
    indices ([postHash], [threadHash]), the walk along parent links, the
    thread identifiers, the re-parenting of post nodes, the assembly of the
    thread containers, the computation of the allowed post types, the
    content of the post window, the decoding of post texts, the format of
    dates, and the summary.

    Post objects are mutable and shared between the array handed to
    [parseContent], [postHash] and [threadHash]; they live in a store
    ([heap]) and are referred to by location.  A JavaScript exception is the
    outcome [Throw]; the [while] loop of [getOldestPostInThread] is bounded
    by a fuel argument and [OutOfFuel] is the outcome of a bound that was
    too small. *)

From Stdlib Require Import ZArith Lia Ascii String.
From stdpp Require Import base option list strings pretty gmap relations.

Local Open Scope string_scope.
Local Open Scope list_scope.
Local Open Scope Z_scope.

(** ** Outcomes *)

Inductive result (A : Type) : Type :=
  | Ok (a : A)
  | Throw
  | OutOfFuel.
Arguments Ok {A} a.
Arguments Throw {A}.
Arguments OutOfFuel {A}.

Global Instance result_ret : MRet result := λ A a, Ok a.
Global Instance result_bind : MBind result := λ A B k m,
  match m with
  | Ok a => k a
  | Throw => Throw
  | OutOfFuel => OutOfFuel
  end.

(** [posts.forEach(function(post) { ... })] over a state that the body
    updates. *)
Fixpoint forEach {A S : Type} (body : A → S → result S) (l : list A) (s : S)
    : result S :=
  match l with
  | [] => Ok s
  | x :: l' => s' ← body x s; forEach body l' s'
  end.

(** A property read with a key that is [undefined] is read under the name
    ["undefined"]. *)
Definition propKey (k : option string) : string := default "undefined" k.

(** ** Posts and the module state *)

Definition loc := positive.

Record Post := mkPost {
  post_id : Z;
  post_parent : Z;
  post_locale : string;
  post_threadId : option string;
  post_subject : option string;
  post_status : string;
  post_poster : Z
}.

Definition setThreadId (t : string) (p : Post) : Post :=
  mkPost (post_id p) (post_parent p) (post_locale p) (Some t)
         (post_subject p) (post_status p) (post_poster p).

Record state := mkState {
  heap : gmap loc Post;
  forumLocale : option string;
  forumUpdateTime : option Z;
  postHash : gmap Z loc;
  threadHash : gmap string (list loc)
}.

Definition setHeap (h : gmap loc Post) (s : state) : state :=
  mkState h (forumLocale s) (forumUpdateTime s) (postHash s) (threadHash s).
Definition setPostHash (ph : gmap Z loc) (s : state) : state :=
  mkState (heap s) (forumLocale s) (forumUpdateTime s) ph (threadHash s).
Definition setThreadHash (th : gmap string (list loc)) (s : state) : state :=
  mkState (heap s) (forumLocale s) (forumUpdateTime s) (postHash s) th.
Definition setUpdateTime (t : option Z) (s : state) : state :=
  mkState (heap s) (forumLocale s) t (postHash s) (threadHash s).

(** The state of the module when the script has just been loaded, over a
    given store of post objects. *)
Definition initialState (h : gmap loc Post) : state :=
  mkState h None None ∅ ∅.

(** ** setLocale *)

Definition setLocale (locale : option string) (s : state) : state :=
  if decide (locale = forumLocale s) then s
  else mkState (heap s) locale None ∅ (threadHash s).

(** ** The walk to the first post of a thread *)

Fixpoint getOldestPostInThread (fuel : nat) (s : state) (post : loc)
    : result loc :=
  match heap s !! post with
  | None => Throw
  | Some p =>
      if bool_decide (0 ≤ post_parent p) then
        match postHash s !! post_parent p with
        | Some parentPost =>
            match fuel with
            | O => OutOfFuel
            | S fuel' => getOldestPostInThread fuel' s parentPost
            end
        | None => Ok post
        end
      else Ok post
  end.

(** ** Indexing *)

Definition updatePostHash (posts : list loc) : state → result state :=
  forEach (λ post s,
    match heap s !! post with
    | None => Throw
    | Some p => Ok (setPostHash (<[post_id p := post]> (postHash s)) s)
    end) posts.

Definition threadIdOf (firstPost : Post) : string :=
  post_locale firstPost +:+ "|" +:+ pretty (post_id firstPost).

Definition addThreadIds (fuel : nat) (posts : list loc) : state → result state :=
  forEach (λ post s,
    firstPost ← getOldestPostInThread fuel s post;
    match heap s !! firstPost, heap s !! post with
    | Some fp, Some p =>
        Ok (setHeap (<[post := setThreadId (threadIdOf fp) p]> (heap s)) s)
    | _, _ => Throw
    end) posts.

Definition updateThreadHash (posts : list loc) : state → result state :=
  forEach (λ post s,
    match heap s !! post with
    | None => Throw
    | Some p =>
        let threadId := propKey (post_threadId p) in
        let th := match threadHash s !! threadId with
                  | Some _ => threadHash s
                  | None => <[threadId := []]> (threadHash s)
                  end in
        Ok (setThreadHash (alter (λ a, a ++ [post]) threadId th) s)
    end) posts.

(** [now] is the value that [Date.now()] returns during the call. *)
Definition updateForumData (fuel : nat) (now : Z) (posts : list loc)
    (fullSet : bool) (s : state) : result state :=
  let s0 := if fullSet then setThreadHash ∅ (setPostHash ∅ s) else s in
  s1 ← updatePostHash posts s0;
  s2 ← addThreadIds fuel posts s1;
  s3 ← updateThreadHash posts s2;
  Ok (setUpdateTime (Some now) s3).

(** [threadPosts[0]] is [undefined], here [None], for an empty array. *)
Definition getNewestPostInThread (s : state) (post : loc) : result (option loc) :=
  match heap s !! post with
  | None => Throw
  | Some p =>
      match threadHash s !! propKey (post_threadId p) with
      | None => Throw
      | Some threadPosts => Ok (head threadPosts)
      end
  end.

Definition getThreadHash (fuel : nat) (now : Z) (posts : list loc) (s : state)
    : result (gmap string (list loc) * state) :=
  s' ← updateForumData fuel now posts true s;
  Ok (threadHash s', s').

(** ** The example of the documentation: a post and its reply *)

Definition post5 : Post := mkPost 5 (-1) "fr" None (Some "Subject") "Discuss" 100.
Definition post9 : Post := mkPost 9 5 "fr" None (Some "Subject") "Discuss" 101.
Definition exampleHeap : gmap loc Post := {[ 1%positive := post5; 2%positive := post9 ]}.
Definition examplePosts : list loc := [1%positive; 2%positive].


(** ** Subjects *)

Definition newline : string := String (ascii_of_nat 10) EmptyString.
Definition dquote : string := String (ascii_of_nat 34) EmptyString.

(** [s.replace(/pat/g, rep)] for a literal, non-empty pattern: the matches
    are taken from left to right and do not overlap.  [skip] counts the
    characters of a match that are still to be passed over. *)
Fixpoint replaceAllFrom (pat rep : string) (skip : nat) (s : string) : string :=
  match s with
  | EmptyString => EmptyString
  | String c s' =>
      match skip with
      | S k => replaceAllFrom pat rep k s'
      | O =>
          if String.prefix pat s
          then rep +:+ replaceAllFrom pat rep (Nat.pred (String.length pat)) s'
          else String c (replaceAllFrom pat rep 0 s')
      end
  end.

Definition replaceAll (pat rep s : string) : string := replaceAllFrom pat rep 0 s.

Definition post2text (text : option string) : string :=
  let out := default "(empty)" text in
  let out := replaceAll "<p>" newline out in
  let out := replaceAll "&quot;" dquote out in
  let out := replaceAll "&lt;" "<" out in
  let out := replaceAll "&gt;" ">" out in
  let out := replaceAll "&amp;" "&" out in
  out.

Definition makePostSubject (isReply : bool) (parentPost : option Post)
    (subjectParam : string) : string :=
  match isReply, parentPost with
  | true, Some parent =>
      let subject := post2text (post_subject parent) in
      if decide (String.substring 0 3 subject ≠ "Re:")
      then "Re: " +:+ subject
      else subject
  | _, _ => subjectParam
  end.

(** The subject as the documentation words it: the prefix ["Re: "] is put
    in front exactly when the subject does not start with it. *)
Definition subjectAsDocumented (subject : string) : string :=
  if String.prefix "Re: " subject then subject else "Re: " +:+ subject.

(** ** The host page

    What the module reads from the page it runs in: the current user
    ([surveyUser], [undefined] when nobody is logged in), the flag
    [surveyUserPerms.userIsTC], and the two functions of
    [cldrStForumFilter] that the module calls.  [surveyUser] is an object:
    for the heading of a post, the second loop of [parseContent] compares
    [post.posterInfo.id] with [surveyUser.id].  [passIfClosed] receives the
    array of the posts of a thread, or [undefined]; [getFilteredThreadIds]
    receives [threadHash] and the [applyFilter] flag. *)

(** The user object of the page, of which the module reads the [id]. *)
Record user := mkUser {
  user_id : Z
}.

Record host := mkHost {
  surveyUser : option user;
  surveyUserPerms : option bool;
  passIfClosed : gmap loc Post → option (list loc) → bool;
  getFilteredThreadIds : gmap loc Post → gmap string (list loc) → bool → list string
}.

(** A string is falsy exactly when it is empty; [null] is falsy. *)
Definition truthy (v : option string) : bool :=
  match v with
  | Some EmptyString => false
  | Some _ => true
  | None => false
  end.

(** What is compared with a number: a number, or the user object. *)
Inductive value :=
  | VNumber (n : Z)
  | VObject (o : user).

(** [v === n] for a number [n]: a number is strictly equal to itself only,
    and an object to no number. *)
Definition strictEqualsNumber (v : value) (n : Z) : bool :=
  match v with
  | VNumber m => bool_decide (m = n)
  | VObject _ => false
  end.

Section Permissions.
Context (env : host) (s : state).

(** [surveyUser === post.poster], where [surveyUser] is the user object and
    [post.poster] is the number of the poster. *)
Definition userIsPoster (post : option Post) : bool :=
  match post, surveyUser env with
  | Some p, Some user => strictEqualsNumber (VObject user) (post_poster p)
  | _, _ => false
  end.

Definition userIsTC : bool :=
  match surveyUserPerms env with
  | Some true => true
  | _ => false
  end.

(** [firstPost.threadId] throws when [firstPost] is [null]. *)
Definition threadIsClosed (firstPost : option Post) : result bool :=
  match firstPost with
  | None => Throw
  | Some fp =>
      let threadPosts := threadHash s !! propKey (post_threadId fp) in
      Ok (passIfClosed env (heap s) threadPosts)
  end.

Definition userCanClose (isReply : bool) (firstPost : option Post) : result bool :=
  if isReply then
    closed ← threadIsClosed firstPost;
    if negb closed then Ok (userIsPoster firstPost || userIsTC) else Ok false
  else Ok false.

(** The returned object, as the list of its properties in the order of
    their creation. *)
Definition getStatusOptions (isReply : bool) (firstPost : option Post)
    (myValue : option string) : result (list (string * string)) :=
  let options := [] in
  let options :=
    if truthy myValue && negb isReply
    then options ++ [("Request", "Request")] else options in
  let options := options ++ [("Discuss", "Discuss")] in
  let options :=
    match firstPost with
    | Some fp =>
        if isReply && negb (userIsPoster firstPost)
           && bool_decide (post_status fp = "Request")
        then options ++ [("Agree", "Agree"); ("Decline", "Decline")]
        else options
    | None => options
    end in
  canClose ← userCanClose isReply firstPost;
  Ok (if canClose : bool then options ++ [("Close", "Close")] else options).

(** The verbs of an options object ([Object.keys]). *)
Definition verbs (options : list (string * string)) : list string := options.*1.
End Permissions.

(** The current user is the poster of a post: the [id] of [surveyUser] is
    the [poster] of the post. *)
Definition isPosterOf (env : host) (p : Post) : Prop :=
  user_id <$> surveyUser env = Some (post_poster p).

(** A reply to a thread that asks for something, by somebody else than the
    poster of the first post. *)
Definition replyToRequest (env : host) (isReply : bool)
    (firstPost : option Post) : Prop :=
  isReply = true
  ∧ ∃ fp, firstPost = Some fp ∧ post_status fp = "Request"
          ∧ ¬ isPosterOf env fp.

(** The allowed verbs as the documentation words them: the user "has voted"
    when [myValue] is not [null]. *)
Definition optionsAsDocumented (env : host) (isReply : bool)
    (firstPost : option Post) (myValue : option string)
    (allowed : list string) : Prop :=
  "Discuss" ∈ allowed
  ∧ ("Request" ∈ allowed ↔ isReply = false ∧ myValue ≠ None)
  ∧ ("Agree" ∈ allowed ↔ replyToRequest env isReply firstPost)
  ∧ ("Decline" ∈ allowed ↔ replyToRequest env isReply firstPost).

(** ** The document

    The nodes that [parseContent] creates, with the parent of each attached
    node, the ordered children of each node, and the [replies] property
    that [parseContent] sets on post nodes.  A node is attached to at most
    one parent: appending it elsewhere moves it. *)

Definition node := nat.

Record document := mkDocument {
  parentNode : gmap node node;
  childNodes : gmap node (list node);
  replies : gmap node node;
  nextNode : node
}.

Definition emptyDocument : document := mkDocument ∅ ∅ ∅ O.

Definition children (d : document) (n : node) : list node :=
  default [] (childNodes d !! n).

(** [document.createElement], [createDocumentFragment], [createTextNode]. *)
Definition createElement (d : document) : node * document :=
  (nextNode d, mkDocument (parentNode d) (childNodes d) (replies d) (S (nextNode d))).

(** Is [a] the node [n] or one of its ancestors?  A chain of parents has
    fewer links than there are nodes; [None] is the answer of a bound that
    was too small. *)
Fixpoint isInclusiveAncestor (fuel : nat) (d : document) (a n : node) : option bool :=
  if bool_decide (a = n) then Some true
  else
    match parentNode d !! n with
    | None => Some false
    | Some p =>
        match fuel with
        | O => None
        | S fuel' => isInclusiveAncestor fuel' d a p
        end
    end.

Definition detach (child : node) (d : document) : document :=
  match parentNode d !! child with
  | None => d
  | Some p =>
      mkDocument (delete child (parentNode d))
            (alter (filter (λ c, c ≠ child)) p (childNodes d))
            (replies d) (nextNode d)
  end.

Definition attach (parent child : node) (d : document) : document :=
  mkDocument (<[child := parent]> (parentNode d))
        (<[parent := children d parent ++ [child]]> (childNodes d))
        (replies d) (nextNode d).

(** [parent.appendChild(child)] and [parent.append(child)] for a node
    [child]: a [HierarchyRequestError] is thrown when [child] contains
    [parent]; otherwise [child] leaves its old parent and becomes the last
    child of [parent]. *)
Definition appendChild (parent child : node) (d : document) : result document :=
  match isInclusiveAncestor (nextNode d) d child parent with
  | None => OutOfFuel
  | Some true => Throw
  | Some false => Ok (attach parent child (detach child d))
  end.

Definition setReplies (n r : node) (d : document) : document :=
  mkDocument (parentNode d) (childNodes d) (<[n := r]> (replies d)) (nextNode d).

(** ** parseContent *)

Record options := mkOptions {
  showItemLink : bool;
  showReplyButton : bool;
  fullSet : bool;
  applyFilter : bool;
  showThreadCount : bool;
  createDomElements : bool
}.

Definition getDefaultParseOptions : options :=
  mkOptions false false true false false true.

Definition getOptionsForContext (context : string) : options :=
  if decide (context = "main") then mkOptions true true true true true true
  else if decide (context = "summary") then mkOptions false false true true false false
  else if decide (context = "info") then mkOptions false true true false false true
  else if decide (context = "parent") then mkOptions false false false false false true
  else getDefaultParseOptions.

(** The local tables of [parseContent] and the document they point into.
    The chunks built from the fields of one post (heading, date, labels,
    text, links, buttons) are appended below their topic or post node when
    it is created and are not looked up afterwards; they are left out. *)
Record render := mkRender {
  rdom : document;
  postDivs : gmap Z node;
  topicDivs : gmap string node
}.

Definition setDom (d : document) (r : render) : render :=
  mkRender d (postDivs r) (topicDivs r).

(** [addThreadSubjectSpan] reads [firstPost.subject.indexOf]: a first post
    without a subject makes it throw. *)
Definition addThreadSubjectSpan (firstPost : Post) : result unit :=
  match post_subject firstPost with
  | None => Throw
  | Some _ => Ok ()
  end.

(** First loop: one container per thread.  When the item link is shown,
    the subject of the thread is that of its first post. *)
Definition createTopicDiv (fuel : nat) (s : state) (opts : options)
    (post : loc) (r : render) : result render :=
  match heap s !! post with
  | None => Throw
  | Some p =>
      let threadId := propKey (post_threadId p) in
      match topicDivs r !! threadId with
      | Some _ => Ok r
      | None =>
          let '(topicDiv, d) := createElement (rdom r) in
          _ ← (if showItemLink opts then
                 firstPost ← getOldestPostInThread fuel s post;
                 match heap s !! firstPost with
                 | Some fp => addThreadSubjectSpan fp
                 | None => Throw
                 end
               else Ok ());
          Ok (mkRender d (postDivs r) (<[threadId := topicDiv]> (topicDivs r)))
      end
  end.

(** The reply buttons of a post: one for each allowed verb. *)
Definition addReplyButtons (env : host) (fuel : nat) (s : state) (post : loc)
    : result (list (string * string)) :=
  firstPost ← getOldestPostInThread fuel s post;
  match heap s !! firstPost with
  | Some fp => getStatusOptions env s true (Some fp) None
  | None => Throw
  end.

(** Second loop: one node per post.  The newest post of a thread gets the
    reply buttons, when they are shown.  The heading of the post, which
    names the poster "me" when [post.posterInfo.id === surveyUser.id], is
    among the chunks that are left out. *)
Definition createPostDiv (env : host) (fuel : nat) (s : state) (opts : options)
    (post : loc) (r : render) : result render :=
  match heap s !! post with
  | None => Throw
  | Some p =>
      let '(subpost, d) := createElement (rdom r) in
      _ ← (if showReplyButton opts then
             newest ← getNewestPostInThread s post;
             if decide (Some post = newest)
             then addReplyButtons env fuel s post
             else Ok []
           else Ok []);
      Ok (mkRender d (<[post_id p := subpost]> (postDivs r)) (topicDivs r))
  end.

(** [x.appendChild(y)] where [x] or [y] was read from a table and may be
    [undefined]. *)
Definition appendChildTo (parent child : option node) (d : document) : result document :=
  match parent, child with
  | Some x, Some y => appendChild x y d
  | _, _ => Throw
  end.

(** Third loop: a reply goes below the [replies] area of its parent's node
    when that node exists, and below the container of its thread
    otherwise; a top-level post goes below the container of its thread. *)
Definition reparent (h : gmap loc Post) (post : loc) (r : render)
    : result render :=
  match h !! post with
  | None => Throw
  | Some p =>
      let topicDiv := topicDivs r !! propKey (post_threadId p) in
      let postDiv := postDivs r !! post_id p in
      if decide (post_parent p ≠ -1) then
        match postDivs r !! post_parent p with
        | Some parentDiv =>
            '(area, d) ←
              match replies (rdom r) !! parentDiv with
              | Some area => Ok (area, rdom r)
              | None =>
                  let '(area, d) := createElement (rdom r) in
                  d ← appendChild parentDiv area (setReplies parentDiv area d);
                  Ok (area, d)
              end;
            d ← appendChildTo (Some area) postDiv d;
            Ok (setDom d r)
        | None =>
            d ← appendChildTo topicDiv postDiv (rdom r);
            Ok (setDom d r)
        end
      else
        d ← appendChildTo topicDiv postDiv (rdom r);
        Ok (setDom d r)
  end.

(** What [filterAndAssembleForumThreads] has built: the fragment, the
    header that shows the number of threads, and that number. *)
Record assembly := mkAssembly {
  forumDiv : node;
  countEl : option node;
  threadCount : nat;
  filteredArray : list string;
  adom : document
}.

Definition assembleThread (h : gmap loc Post) (topicDivs : gmap string node)
    (post : loc) (a : assembly) : result assembly :=
  match h !! post with
  | None => Throw
  | Some p =>
      match post_threadId p with
      | Some threadId =>
          if bool_decide (threadId ∈ filteredArray a) then
            d ← match topicDivs !! threadId with
                | Some topicDiv => appendChild (forumDiv a) topicDiv (adom a)
                | None =>
                    (* [append(undefined)] appends the text "undefined" *)
                    let '(text, d) := createElement (adom a) in
                    appendChild (forumDiv a) text d
                end;
            Ok (mkAssembly (forumDiv a) (countEl a) (S (threadCount a))
                  (filter (λ id, id ≠ threadId) (filteredArray a)) d)
          else Ok a
      | None => Ok a   (* an array of strings does not include [undefined] *)
      end
  end.

Definition filterAndAssembleForumThreads (env : host) (s : state)
    (posts : list loc) (topicDivs : gmap string node)
    (applyFilter showThreadCount : bool) (d : document) : result assembly :=
  let filteredArray := getFilteredThreadIds env (heap s) (threadHash s) applyFilter in
  let '(forumDiv, d) := createElement d in
  '(countEl, d) ←
    (if showThreadCount then
       let '(countEl, d) := createElement d in
       d ← appendChild forumDiv countEl d;
       Ok (Some countEl, d)
     else Ok (None, d));
  forEach (assembleThread (heap s) topicDivs) posts
    (mkAssembly forumDiv countEl O filteredArray d).

(** The text of the header, [countEl.innerHTML]. *)
Definition countText (a : assembly) : string :=
  pretty (threadCount a) +:+ (if decide (threadCount a = 1%nat) then " thread" else " threads").

(** Everything [parseContent] does before it re-parents the post nodes. *)
Definition renderPosts (env : host) (fuel : nat) (now : Z) (posts : list loc)
    (context : string) (s : state) : result (state * render) :=
  let opts := getOptionsForContext context in
  s' ← updateForumData fuel now posts (fullSet opts) s;
  r ← forEach (createTopicDiv fuel s' opts) posts (mkRender emptyDocument ∅ ∅);
  r ← forEach (createPostDiv env fuel s' opts) posts r;
  Ok (s', r).

Definition parseContent (env : host) (fuel : nat) (now : Z) (posts : list loc)
    (context : string) (s : state) : result (state * render * assembly) :=
  let opts := getOptionsForContext context in
  '(s', r) ← renderPosts env fuel now posts context s;
  r ← forEach (reparent (heap s')) posts r;
  a ← filterAndAssembleForumThreads env s' posts (topicDivs r)
        (applyFilter opts) (showThreadCount opts) (rdom r);
  Ok (s', r, a).

(** The module after the two example posts were indexed for locale "fr". *)
Definition indexedState : state :=
  mkState (setThreadId "fr|5" <$> exampleHeap) (Some "fr") (Some 1000)
          {[ 5 := 1%positive; 9 := 2%positive ]}
          {[ "fr|5" := [1%positive; 2%positive] ]}.

(** A post whose subject begins with "Re:" and no space. *)
Definition postReColon : Post :=
  mkPost 7 (-1) "fr" None (Some "Re:x") "Discuss" 100.

(** A host page: user 100 is logged in and is no member of the technical
    committee; no thread is closed; the filter lets every thread pass. *)
Definition exampleEnv : host :=
  mkHost (Some (mkUser 100)) (Some false) (λ _ _, false) (λ _ th _, (map_to_list th).*1).

(** The same page when every thread is closed and the user is a member of
    the technical committee. *)
Definition closedEnv : host :=
  mkHost (Some (mkUser 100)) (Some true) (λ _ _, true) (λ _ th _, (map_to_list th).*1).

(** ** Parent links and root ancestors *)

(** The index that [updatePostHash] builds when it starts from an empty
    one: under each id, the last post of the list with that id. *)
Definition indexInto (h : gmap loc Post) (ph : gmap Z loc) (posts : list loc)
    : gmap Z loc :=
  foldl (λ ph post,
           match h !! post with
           | Some p => <[post_id p := post]> ph
           | None => ph
           end) ph posts.

Definition indexOf (h : gmap loc Post) (posts : list loc) : gmap Z loc :=
  indexInto h ∅ posts.

(** The post index that [updateForumData] builds: the posts of the list are
    indexed into an empty index when they are a full set, and on top of
    [postHash] otherwise. *)
Definition indexAfter (fullSet : bool) (s : state) (posts : list loc) : gmap Z loc :=
  indexInto (heap s) (if fullSet then ∅ else postHash s) posts.

(** One turn of the loop of [getOldestPostInThread]. *)
Definition parentLink (h : gmap loc Post) (ph : gmap Z loc) (post parentPost : loc) : Prop :=
  ∃ p, h !! post = Some p ∧ 0 ≤ post_parent p ∧ ph !! post_parent p = Some parentPost.

(** No post that the walk from [post] can reach lies on a cycle of parent
    links. *)
Definition noCycleFrom (h : gmap loc Post) (ph : gmap Z loc) (post : loc) : Prop :=
  ∀ q, rtc (parentLink h ph) post q → ¬ tc (parentLink h ph) q q.

(** The index holds posts of the store. *)
Definition indexInStore (h : gmap loc Post) (ph : gmap Z loc) : Prop :=
  ∀ k l, ph !! k = Some l → is_Some (h !! l).

(** The root ancestor of a post: the post at which the parent links end,
    either because its parent is negative or because the index has no post
    under its parent. *)
Inductive rootAncestor (h : gmap loc Post) (ph : gmap Z loc) : loc → loc → Prop :=
  | root_here post p :
      h !! post = Some p →
      post_parent p < 0 ∨ ph !! post_parent p = None →
      rootAncestor h ph post post
  | root_up post p parentPost root :
      h !! post = Some p →
      0 ≤ post_parent p →
      ph !! post_parent p = Some parentPost →
      rootAncestor h ph parentPost root →
      rootAncestor h ph post root.

(** The root ancestor as the documentation words it: the links are
    followed until a post whose parent is -1, or whose parent is absent
    from the index. *)
Inductive rootAsDocumented (h : gmap loc Post) (ph : gmap Z loc) : loc → loc → Prop :=
  | documented_root_here post p :
      h !! post = Some p →
      post_parent p = -1 ∨ ph !! post_parent p = None →
      rootAsDocumented h ph post post
  | documented_root_up post p parentPost root :
      h !! post = Some p →
      post_parent p ≠ -1 →
      ph !! post_parent p = Some parentPost →
      rootAsDocumented h ph parentPost root →
      rootAsDocumented h ph post root.

(** Two stores have the same shape when they hold the same posts up to the
    thread ids. *)
Definition eraseThreadId (p : Post) : Post :=
  mkPost (post_id p) (post_parent p) (post_locale p) None
         (post_subject p) (post_status p) (post_poster p).

Definition sameShape (h h' : gmap loc Post) : Prop :=
  ∀ l, eraseThreadId <$> h !! l = eraseThreadId <$> h' !! l.

(** The thread id that a post has in a store, [None] when the post is not
    in the store and [Some None] when it has no thread id yet. *)
Definition threadIdIn (h : gmap loc Post) (post : loc) : option (option string) :=
  post_threadId <$> h !! post.

(** A post with a negative id and a reply to it. *)
Definition postMinus5 : Post := mkPost (-5) (-1) "fr" None (Some "Subject") "Discuss" 100.
Definition postReplyToMinus5 : Post := mkPost 9 (-5) "de" None (Some "Subject") "Discuss" 101.
Definition negativeHeap : gmap loc Post :=
  {[ 1%positive := postMinus5; 2%positive := postReplyToMinus5 ]}.

(** The key under which [threadHash] and [topicDivs] hold the thread of a
    post. *)
Definition threadKey (p : Post) : string := propKey (post_threadId p).

(** The thread index that [updateThreadHash] makes of a given one: each
    post goes to the end of the array of its thread. *)
Definition groupInto (h : gmap loc Post) (th : gmap string (list loc))
    (posts : list loc) : gmap string (list loc) :=
  foldl (λ th post,
           match h !! post with
           | Some p => <[threadKey p := default [] (th !! threadKey p) ++ [post]]> th
           | None => th
           end) th posts.

(** The posts of a list that a store files under a given thread key. *)
Definition postsOfThread (h : gmap loc Post) (key : string) (posts : list loc)
    : list loc :=
  filter (λ post, threadKey <$> h !! post = Some key) posts.

(** The state in which a full set is indexed once the post index is built. *)
Definition withIndex (s : state) (posts : list loc) : state :=
  setPostHash (indexOf (heap s) posts) (setThreadHash ∅ (setPostHash ∅ s)).

(** A post that asks for something, by user 101. *)
Definition requestPost : Post :=
  mkPost 5 (-1) "fr" (Some "fr|5") (Some "Subject") "Request" 101.

(** The first example post once it is indexed; user 100 posted it. *)
Definition indexedPost5 : Post := setThreadId "fr|5" post5.

(** A post that asks for something, by user 100. *)
Definition ownRequest : Post :=
  mkPost 5 (-1) "fr" (Some "fr|5") (Some "Subject") "Request" 100.

(** ** Thread ids in the order of the posts *)

(** The thread ids of the posts of a list, in the order of the list; a post
    without a thread id contributes nothing. *)
Definition threadIdsOf (h : gmap loc Post) (posts : list loc) : list string :=
  omap (λ post, (h !! post) ≫= post_threadId) posts.

(** The thread ids for which the loop of [filterAndAssembleForumThreads]
    appends a container, in the order in which it appends them: an id is
    taken when it is met for the first time, provided that it passes the
    filter, and is then struck from the filtered array. *)
Fixpoint assembleIds (filteredArray threadIds : list string) : list string :=
  match threadIds with
  | [] => []
  | threadId :: rest =>
      if bool_decide (threadId ∈ filteredArray)
      then threadId :: assembleIds (filter (λ id, id ≠ threadId) filteredArray) rest
      else assembleIds filteredArray rest
  end.

(** In a list of thread ids, the first occurrence of [key1] comes before
    every occurrence of [key2]. *)
Definition firstOccursBefore (key1 key2 : string) (threadIds : list string) : Prop :=
  ∃ before after,
    threadIds = before ++ (key1 :: after) ∧ (key1 ∉ before) ∧ (key2 ∉ before).

(** ** Invariants of the tables of parseContent *)

(** The nodes that are not created yet have no parent and no children. *)
Definition allocated (d : document) : Prop :=
  ∀ n : node, (nextNode d ≤ n)%nat → parentNode d !! n = None ∧ childNodes d !! n = None.

(** What holds of the tables and of the document all along [parseContent]:
    the nodes of the tables and the [replies] areas are created nodes; a
    node stands for one thread, for one post id or for one [replies] area;
    a container of a thread has no parent. *)
Record tablesOk (r : render) : Prop := mkTablesOk {
  ok_allocated : allocated (rdom r);
  ok_topic_created : ∀ key c,
    topicDivs r !! key = Some c → (c < nextNode (rdom r))%nat;
  ok_post_created : ∀ id n,
    postDivs r !! id = Some n → (n < nextNode (rdom r))%nat;
  ok_area_created : ∀ n area,
    replies (rdom r) !! n = Some area → (area < nextNode (rdom r))%nat;
  ok_topic_injective : ∀ key1 key2 c,
    topicDivs r !! key1 = Some c → topicDivs r !! key2 = Some c → key1 = key2;
  ok_post_injective : ∀ id1 id2 n,
    postDivs r !! id1 = Some n → postDivs r !! id2 = Some n → id1 = id2;
  ok_topic_post : ∀ key c id n,
    topicDivs r !! key = Some c → postDivs r !! id = Some n → c ≠ n;
  ok_topic_area : ∀ key c n area,
    topicDivs r !! key = Some c → replies (rdom r) !! n = Some area → c ≠ area;
  ok_post_area : ∀ id n m area,
    postDivs r !! id = Some n → replies (rdom r) !! m = Some area → n ≠ area;
  ok_topic_root : ∀ key c,
    topicDivs r !! key = Some c → parentNode (rdom r) !! c = None
}.

(** A node is at the same place in two documents: it has the same parent
    and is a child of the same nodes. *)
Definition samePlace (d d' : document) (x : node) : Prop :=
  parentNode d' !! x = parentNode d !! x
  ∧ ∀ n, x ∈ children d' n ↔ x ∈ children d n.

(** A reply whose parent, post 5, is not among the posts received, and a
    post of another thread. *)
Definition post7 : Post := mkPost 7 (-1) "fr" None (Some "Other") "Discuss" 102.
Definition orphanHeap : gmap loc Post := {[ 1%positive := post7; 2%positive := post9 ]}.
Definition orphanPosts : list loc := [2%positive; 1%positive].

(** Three posts of two threads, newest first: the reply 9 to post 5, then
    post 7, then post 5. *)
Definition threadsHeap : gmap loc Post :=
  {[ 1%positive := post5; 2%positive := post7; 3%positive := post9 ]}.
Definition threadsPosts : list loc := [3%positive; 2%positive; 1%positive].

(** ** Posts with one id *)

(** The posts of a list that have a given id. *)
Definition postsWithId (h : gmap loc Post) (id : Z) (posts : list loc) : list loc :=
  filter (λ post, post_id <$> h !! post = Some id) posts.

(** ** The post window

    [openPostOrReply] receives an object whose properties may be missing;
    a missing property is [None].  [replyData] is a post object.  The
    [xpath] of a post object is kept in a table of its own, by location. *)

Record postParams := mkParams {
  params_replyTo : option Z;
  params_replyData : option loc;
  params_locale : option string;
  params_xpath : option string;
  params_subject : option string;
  params_postType : option string;
  params_myValue : option string
}.

(** A number is falsy exactly when it is zero; [undefined] is falsy. *)
Definition truthyNumber (n : option Z) : bool :=
  match n with
  | Some n => negb (bool_decide (n = 0))
  | None => false
  end.

(** [v ? v : d] for a string [v] that may be missing. *)
Definition orElse {A : Type} (v : option string) (some : string → A) (d : A) : A :=
  match v with
  | Some x => if truthy v then some x else d
  | None => d
  end.

(** A value that is put into a string: [null] and [undefined] are put as
    their names. *)
Definition showNull (v : option string) : string := default "null" v.
Definition showUndefined (v : option string) : string := default "undefined" v.

Definition attribute (name value : string) : string :=
  name +:+ "=" +:+ dquote +:+ value +:+ dquote.

Definition makePostHtml (postType : option string) (locale : string)
    (xpath : option string) (replyTo : Z) : string :=
  let html := EmptyString in
  let html := html +:+ "<form " +:+ attribute "role" "form" +:+ " "
                   +:+ attribute "id" "post-form" +:+ ">" in
  let html := html +:+ "<div " +:+ attribute "class" "form-group" +:+ ">" in
  let html := html +:+ "<div " +:+ attribute "class" "input-group" +:+ ">" in
  let html := html +:+ "<span " +:+ attribute "class" "input-group-addon"
                   +:+ ">Subject:</span>" in
  let html := html +:+ "<input " +:+ attribute "class" "form-control" +:+ " "
                   +:+ attribute "name" "subj" +:+ " " +:+ attribute "type" "text"
                   +:+ " " +:+ attribute "value" EmptyString +:+ ">" in
  let html := html +:+ "</div>" in
  let html := html +:+ "<div " +:+ attribute "id" "postType" +:+ " "
                   +:+ attribute "class" "pull-right postType" +:+ ">"
                   +:+ showNull postType +:+ "</div>" in
  let html := html +:+ "<textarea " +:+ attribute "name" "text" +:+ " "
                   +:+ attribute "class" "form-control" +:+ " "
                   +:+ attribute "placeholder" "Write your post here"
                   +:+ "></textarea>" in
  let html := html +:+ "</div>" in
  let html := html +:+ "<button "
                   +:+ attribute "class" "btn btn-success submit-post btn-block"
                   +:+ ">Submit</button>" in
  let html := html +:+ "<input " +:+ attribute "type" "hidden" +:+ " "
                   +:+ attribute "name" "forum" +:+ " "
                   +:+ attribute "value" "true" +:+ ">" in
  let html := html +:+ "<input " +:+ attribute "type" "hidden" +:+ " "
                   +:+ attribute "name" "_" +:+ " "
                   +:+ attribute "value" locale +:+ ">" in
  let html := html +:+ "<input " +:+ attribute "type" "hidden" +:+ " "
                   +:+ attribute "name" "xpath" +:+ " "
                   +:+ attribute "value" (showUndefined xpath) +:+ ">" in
  let html := html +:+ "<input " +:+ attribute "type" "hidden" +:+ " "
                   +:+ attribute "name" "replyTo" +:+ " "
                   +:+ attribute "value" (pretty replyTo) +:+ ">" in
  let html := html +:+ "</form>" in
  let html := html +:+ "<div " +:+ attribute "class" "post" +:+ "></div>" in
  let html := html +:+ "<div " +:+ attribute "class" "forumDiv" +:+ "></div>" in
  html.

Definition prefillPostText (postType myValue : option string) : string :=
  if decide (postType = Some "Close") then "I'm closing this thread"
  else if decide (postType = Some "Request") then
    orElse myValue (λ v, "Please consider voting for " +:+ v +:+ newline) EmptyString
  else if decide (postType = Some "Agree") then "I agree"
  else if decide (postType = Some "Decline") then "I decline, since "
  else EmptyString.

(** What [openPostWindow] puts into the dialog: the html of its body, the
    subject, the text, and the fragment that shows the post replied to. *)
Record postWindow := mkPostWindow {
  window_html : string;
  window_subject : string;
  window_text : string;
  window_forumDiv : option (render * assembly)
}.

Definition openPostWindow (env : host) (fuel : nat) (now : Z)
    (html subject text : string) (parentPost : option loc) (s : state)
    : result (state * postWindow) :=
  match parentPost with
  | Some parent =>
      '(s', r, a) ← parseContent env fuel now [parent] "parent" s;
      Ok (s', mkPostWindow html subject text (Some (r, a)))
  | None => Ok (s, mkPostWindow html subject text None)
  end.

(** [firstPost.locale] and [firstPost.xpath] throw when [firstPost] is
    [null]. *)
Definition openPostOrReply (env : host) (xpaths : gmap loc string)
    (fuel : nat) (now : Z) (params : postParams) (s : state)
    : result (state * postWindow) :=
  let isReply :=
    truthyNumber (params_replyTo params)
    && bool_decide (0 ≤ default 0 (params_replyTo params)) in
  let replyTo := if isReply then default 0 (params_replyTo params) else -1 in
  let parentPost := if isReply then params_replyData params else None in
  firstPost ← match parentPost with
              | Some parent =>
                  first ← getOldestPostInThread fuel s parent; Ok (Some first)
              | None => Ok None
              end;
  '(locale, xpath) ←
    (if isReply then
       match firstPost with
       | Some first =>
           match heap s !! first with
           | Some fp => Ok (post_locale fp, xpaths !! first)
           | None => Throw
           end
       | None => Throw
       end
     else Ok (orElse (params_locale params) id EmptyString,
              Some (orElse (params_xpath params) id EmptyString)));
  let subjectParam := orElse (params_subject params) id EmptyString in
  let postType := orElse (params_postType params) Some None in
  let html := makePostHtml postType locale xpath replyTo in
  parent ← match parentPost with
            | Some parent =>
                match heap s !! parent with
                | Some p => Ok (Some p)
                | None => Throw
                end
            | None => Ok None
            end;
  let subject := makePostSubject isReply parent subjectParam in
  let myValue := orElse (params_myValue params) Some None in
  let text := prefillPostText postType myValue in
  openPostWindow env fuel now html subject text parentPost s.

(** The click on a button that [makeOneReplyButton] made for a post. *)
Definition replyButtonClick (env : host) (xpaths : gmap loc string)
    (fuel : nat) (now : Z) (post : loc) (postType : string) (s : state)
    : result (state * postWindow) :=
  match heap s !! post with
  | Some p =>
      openPostOrReply env xpaths fuel now
        (mkParams (Some (post_id p)) (Some post) None None None (Some postType) None) s
  | None => Throw
  end.

(** The click on a button that [makeOneNewPostButton] made, once
    [xpathMap.get] has answered: [header] is the formatted path header of
    the answer, when it has one. *)
Definition newPostButtonClick (env : host) (xpaths : gmap loc string)
    (fuel : nat) (now : Z) (postType : string) (locale : string)
    (couldFlag : bool) (xpstrid code : string) (myValue : option string)
    (header : option string) (s : state) : result (state * postWindow) :=
  let subj := code +:+ " " +:+ xpstrid in
  let subj := match header with Some h => h | None => subj end in
  let subj := if couldFlag then subj +:+ " (Flag for review)" else subj in
  openPostOrReply env xpaths fuel now
    (mkParams None None (Some locale) (Some xpstrid) (Some subj) (Some postType) myValue) s.

(** ** Escaped text

    The inverse of what [post2text] decodes: the characters of a given
    list are written as their entities. *)

Definition ampersand : ascii := Eval cbv in ascii_of_nat 38.
Definition lessThan : ascii := Eval cbv in ascii_of_nat 60.
Definition greaterThan : ascii := Eval cbv in ascii_of_nat 62.
Definition quotationMark : ascii := Eval cbv in ascii_of_nat 34.

Definition entity (c : ascii) : string :=
  if decide (c = ampersand) then "&amp;"
  else if decide (c = lessThan) then "&lt;"
  else if decide (c = greaterThan) then "&gt;"
  else if decide (c = quotationMark) then "&quot;"
  else String c EmptyString.

Fixpoint escapeChars (special : list ascii) (text : string) : string :=
  match text with
  | EmptyString => EmptyString
  | String c text' =>
      (if bool_decide (c ∈ special) then entity c else String c EmptyString)
      +:+ escapeChars special text'
  end.

Definition escapeHtml : string → string :=
  escapeChars [quotationMark; lessThan; greaterThan; ampersand].

(** Does a character occur in a string? *)
Fixpoint occursIn (c : ascii) (text : string) : bool :=
  match text with
  | EmptyString => false
  | String c' text' => bool_decide (c' = c) || occursIn c text'
  end.

(** ** Dates

    [fmtDateTime] reads [new Date(x)] through five of its methods, whose
    answers depend on the time zone of the page; a date is given here by
    these five answers. *)

Record date := mkDate {
  getFullYear : Z;
  getMonth : Z;
  getDate : Z;
  getHours : Z;
  getMinutes : Z
}.

Definition pad (n : Z) : string :=
  if bool_decide (n < 10) then "0" +:+ pretty n else pretty n.

Definition fmtDateTime (d : date) : string :=
  pretty (getFullYear d) +:+ "-" +:+ pad (getMonth d + 1) +:+ "-" +:+ pad (getDate d)
  +:+ " " +:+ pad (getHours d) +:+ ":" +:+ pad (getMinutes d).

(** The answers of a date of the calendar, in a year of four digits. *)
Definition calendarDate (d : date) : Prop :=
  1000 ≤ getFullYear d ≤ 9999 ∧ 0 ≤ getMonth d ≤ 11 ∧ 1 ≤ getDate d ≤ 31
  ∧ 0 ≤ getHours d ≤ 23 ∧ 0 ≤ getMinutes d ≤ 59.

(** ** The summary

    What the summary reads from the page: whether [cldrStAjax] is defined,
    the session id ([undefined] when there is none), and the object that
    [cldrStForumFilter.getFilteredThreadCounts] returns, as the list of
    its properties, each value in the form in which it is put into a
    string.  A request that is sent is given by its url.  [FORUM_DEBUG] is
    the constant [false], so the line with the time of the last update is
    never written; [cldrStForumFilter.setUserId], which
    [getForumSummaryHtml] calls, changes the filter only and is left
    out. *)

Record summaryHost := mkSummaryHost {
  cldrStAjax : bool;
  surveySessionId : option string;
  getFilteredThreadCounts : list (string * string)
}.

Definition getLoadForumUrl (page : summaryHost) (s : state) : string :=
  match surveySessionId page with
  | None => EmptyString
  | Some sessionId =>
      "SurveyAjax?s=" +:+ sessionId +:+ "&what=forum_fetch&xpath=0&_="
      +:+ showNull (forumLocale s)
  end.

Definition loadForumForSummaryOnly (page : summaryHost) (locale : option string)
    (s : state) : state * option string :=
  if cldrStAjax page then
    let s := setLocale locale s in
    (s, Some (getLoadForumUrl page s))
  else (s, None).

Definition reallyGetForumSummaryHtml (page : summaryHost) (canDoAjax : bool)
    (s : state) : string * state * option string :=
  let id := "forumSummary" in
  let html := "<div id='" +:+ id +:+ "'>" +:+ newline in
  let '(html, s, request) :=
    if negb (truthyNumber (forumUpdateTime s)) then
      if canDoAjax then
        let html := html +:+ "<p>Loading Forum Summary...</p>" +:+ newline in
        let '(s, request) := loadForumForSummaryOnly page (forumLocale s) s in
        (html, s, request)
      else (html +:+ "<p>Load failed</p>n", s, None)
    else
      let c := getFilteredThreadCounts page in
      let html := html +:+ "<ul>" +:+ newline in
      let html :=
        foldl (λ html '(k, count),
                 html +:+ "<li>" +:+ k +:+ ": " +:+ count +:+ "</li>" +:+ newline)
              html c in
      (html +:+ "</ul>" +:+ newline, s, None) in
  (html +:+ "</div>" +:+ newline, s, request).

Definition getForumSummaryHtml (page : summaryHost) (locale : option string)
    (s : state) : string * state * option string :=
  reallyGetForumSummaryHtml page true (setLocale locale s).

(** The handler of the answer to the request of [loadForumForSummaryOnly]:
    [el] tells whether the element of the summary is in the page, and
    [json] is the array of the posts, or [None] for an answer with an
    error.  It returns what it writes into the element, if anything. *)
Definition summaryLoadHandler (env : host) (page : summaryHost) (fuel : nat)
    (now : Z) (el : bool) (json : option (list loc)) (s : state)
    : result (state * option string * option string) :=
  if el then
    match json with
    | None => Ok (s, Some "Error", None)
    | Some posts =>
        '(s, _, _) ← parseContent env fuel now posts "summary" s;
        let '(html, s, request) := reallyGetForumSummaryHtml page false s in
        Ok (s, Some html, request)
    end
  else Ok (s, None, None).

(** The list of the counts, as the summary shows it. *)
Definition countsHtml (c : list (string * string)) : string :=
  foldr (λ '(k, count) rest,
           "<li>" +:+ k +:+ ": " +:+ count +:+ "</li>" +:+ newline +:+ rest)
        EmptyString c.

(** ** Ancestors in the document *)

(** [m] is the parent of [n]. *)
Definition parentOf (d : document) (n m : node) : Prop := parentNode d !! n = Some m.

(** ** The nesting of the nodes

    The number of parent links from a post to the first post of its
    thread, and the level that a node of [parseContent] has accordingly: a
    container of a thread is at level 0, the node of a post at the odd
    level that its depth gives, and its [replies] area one level further.
    In a well-nested document each node is at a higher level than its
    parent. *)

Inductive depthOf (h : gmap loc Post) (ph : gmap Z loc) : loc → nat → Prop :=
  | depth_here post p :
      h !! post = Some p →
      post_parent p < 0 ∨ ph !! post_parent p = None →
      depthOf h ph post 0
  | depth_up post p parentPost depth :
      h !! post = Some p →
      0 ≤ post_parent p →
      ph !! post_parent p = Some parentPost →
      depthOf h ph parentPost depth →
      depthOf h ph post (S depth).

Inductive levelOf (h : gmap loc Post) (ph : gmap Z loc) (r : render) : node → nat → Prop :=
  | level_topic key c :
      topicDivs r !! key = Some c → levelOf h ph r c 0
  | level_post id n post depth :
      postDivs r !! id = Some n → ph !! id = Some post → depthOf h ph post depth →
      levelOf h ph r n (2 * depth + 1)
  | level_area id n post depth area :
      postDivs r !! id = Some n → ph !! id = Some post → depthOf h ph post depth →
      replies (rdom r) !! n = Some area →
      levelOf h ph r area (2 * depth + 2).

Record nestingOk (h : gmap loc Post) (ph : gmap Z loc) (r : render) : Prop := mkNestingOk {
  nest_tables : tablesOk r;
  nest_replies_post : ∀ n area,
    replies (rdom r) !! n = Some area → ∃ id, postDivs r !! id = Some n;
  nest_replies_injective : ∀ n1 n2 area,
    replies (rdom r) !! n1 = Some area → replies (rdom r) !! n2 = Some area → n1 = n2;
  nest_levels : ∀ n m,
    parentNode (rdom r) !! n = Some m →
    ∃ k k', levelOf h ph r n k ∧ levelOf h ph r m k' ∧ (k' < k)%nat
}.

(** A list of posts that is ready for the third loop of [parseContent]:
    each post is indexed under its id, which is not negative, has a depth,
    a container for its thread and a node; and the nodes of posts are
    nodes of posts of the list. *)
Record postsRanked (h : gmap loc Post) (ph : gmap Z loc) (posts : list loc)
    (r : render) : Prop := mkPostsRanked {
  ranked_indexed : ∀ post p,
    post ∈ posts → h !! post = Some p → ph !! post_id p = Some post;
  ranked_id : ∀ post p, post ∈ posts → h !! post = Some p → 0 ≤ post_id p;
  ranked_depth : ∀ post, post ∈ posts → ∃ depth, depthOf h ph post depth;
  ranked_tables : ∀ post, post ∈ posts →
    ∃ p topicDiv postDiv,
      h !! post = Some p ∧ topicDivs r !! threadKey p = Some topicDiv
      ∧ postDivs r !! post_id p = Some postDiv;
  ranked_posts : ∀ id n,
    postDivs r !! id = Some n → ∃ post p, post ∈ posts ∧ h !! post = Some p ∧ post_id p = id
}.

(** Every [replies] area is a child of the node that it belongs to. *)
Definition areasAttached (d : document) : Prop :=
  ∀ n area, replies d !! n = Some area →
    parentNode d !! area = Some n ∧ area ∈ children d n.

(** ** Nodes inside nodes *)

(** [child] is a child node of [parent]: [parent] is its [parentNode] and
    it is among the [childNodes] of [parent]. *)
Definition childOf (d : document) (child parent : node) : Prop :=
  parentNode d !! child = Some parent ∧ child ∈ children d parent.

(** ** More example data *)

(** Two posts that are each the parent of the other. *)
Definition cyclePost3 : Post := mkPost 3 4 "fr" None (Some "Subject") "Discuss" 100.
Definition cyclePost4 : Post := mkPost 4 3 "fr" None (Some "Subject") "Discuss" 101.
Definition cycleHeap : gmap loc Post := {[ 1%positive := cyclePost3; 2%positive := cyclePost4 ]}.
Definition cycleState : state :=
  mkState cycleHeap (Some "fr") None {[ 3 := 1%positive; 4 := 2%positive ]} ∅.

(** Two posts with the same id. *)
Definition twinPost : Post := mkPost 5 (-1) "de" None (Some "Twin") "Discuss" 102.
Definition twinHeap : gmap loc Post := {[ 1%positive := post5; 2%positive := twinPost ]}.

(** The module before the two example posts are indexed for "fr". *)
Definition loadedState : state := mkState exampleHeap (Some "fr") None ∅ ∅.

(** A reply whose subject was made from the subject of post 5. *)
Definition replyRe : Post := mkPost 9 5 "fr" None (Some "Re: Subject") "Discuss" 101.

(** The date of the documentation, 2018-05-16 13:45. *)
Definition exampleDate : date := mkDate 2018 4 16 13 45.

(** A page with [cldrStAjax], a session and two counts of the filter. *)
Definition examplePage : summaryHost :=
  mkSummaryHost true (Some "abc") [("Open", "2"); ("Closed", "0")].

(** The module as [setLocale] leaves it when the locale changes to "fr"
    while a thread of "de" is indexed, over the three posts. *)
Definition staleState : state :=
  mkState threadsHeap (Some "fr") None ∅ {[ "de|7" := [2%positive] ]}.

(** ** Tactics *)

(** Membership of a given verb in a given list of verbs. *)
Ltac verb_solver :=
  repeat match goal with
  | H : _ ∈ [] |- _ => by apply elem_of_nil in H
  | H : _ ∈ _ :: _ |- _ => apply elem_of_cons in H as [H|H]; [discriminate H|]
  | |- _ ∈ _ :: _ => apply elem_of_cons; first [by left | right]
  | |- _ ∉ _ => intros ?
  end.

(** [verb ∈ l ↔ P] for a given list and a closed [P]. *)
Ltac verb_iff :=
  split;
  [ intros ?; first [done | by verb_solver]
  | intros ?; first [by verb_solver | by intuition] ].

(** The posts of a list of three, one by one. *)
Ltac three_posts H :=
  repeat (apply elem_of_cons in H as [->|H]); [..|by apply elem_of_nil in H].

(** * Properties *)

(** ** Evaluation on small inputs *)

Example post2text_example :
  post2text (Some "a &lt;b&gt; &amp;amp; &quot;c&quot;<p>d")
  = "a <b> &amp; " +:+ dquote +:+ "c" +:+ dquote +:+ newline +:+ "d".
Proof. reflexivity. Qed.

Example makePostSubject_example :
  makePostSubject true (Some post5) "ignored" = "Re: Subject".
Proof. reflexivity. Qed.

(** ** setLocale *)

Lemma setLocale_same (s : state) : setLocale (forumLocale s) s = s.
Proof. unfold setLocale. by rewrite decide_True. Qed.

Lemma setLocale_switch (locale : option string) (s : state) :
  locale ≠ forumLocale s →
  forumLocale (setLocale locale s) = locale
  ∧ forumUpdateTime (setLocale locale s) = None
  ∧ postHash (setLocale locale s) = ∅.
Proof. intros Hne. unfold setLocale. by rewrite decide_False. Qed.

Lemma setLocale_threadHash (locale : option string) (s : state) :
  threadHash (setLocale locale s) = threadHash s.
Proof. unfold setLocale. by case_decide. Qed.

(** C2: [setLocale] with another locale resets the time of the last update
    and empties [postHash], but [threadHash] keeps the threads of the old
    locale: after the switch from "fr" to "de" the thread "fr|5" is still
    indexed. *)
Theorem setLocale_keeps_threadHash :
  let s' := setLocale (Some "de") indexedState in
  forumLocale s' = Some "de"
  ∧ forumUpdateTime s' = None
  ∧ postHash s' = ∅
  ∧ threadHash s' !! "fr|5" = Some [1%positive; 2%positive]
  ∧ threadHash s' ≠ ∅.
Proof.
  cbn zeta. rewrite setLocale_threadHash.
  destruct (setLocale_switch (Some "de") indexedState) as (Hl & Ht & Hp); [done|].
  repeat split; done.
Qed.

(** ** Subjects *)

Lemma substring_Re (subject : string) :
  String.substring 0 3 subject = "Re:" ↔ String.prefix "Re:" subject = true.
Proof. symmetry. apply (String.prefix_correct "Re:" subject). Qed.

(** C8, as the code has it: the subject of a reply is the decoded subject
    of the parent post, with "Re: " in front exactly when that subject does
    not begin with the three characters "Re:". *)
Theorem makePostSubject_reply (parentPost : Post) (subjectParam : string) :
  let subject := post2text (post_subject parentPost) in
  makePostSubject true (Some parentPost) subjectParam
  = if String.prefix "Re:" subject then subject else "Re: " +:+ subject.
Proof.
  cbn zeta. unfold makePostSubject.
  destruct (String.prefix "Re:" _) eqn:Hp.
  - apply substring_Re in Hp. rewrite decide_False; [done|]. by intros [].
  - rewrite decide_True; [done|]. intros Hs. apply substring_Re in Hs. congruence.
Qed.

(** C8, counterexample: the parent subject "Re:x" does not begin with
    "Re: ", yet the reply keeps it as it is. *)
Lemma makePostSubject_Re_without_space :
  String.prefix "Re: " (post2text (post_subject postReColon)) = false
  ∧ makePostSubject true (Some postReColon) "" = "Re:x"
  ∧ makePostSubject true (Some postReColon) ""
    ≠ subjectAsDocumented (post2text (post_subject postReColon)).
Proof. vm_compute. repeat split; discriminate. Qed.

(** ** Allowed post types *)

Section PermissionFacts.
Context (env : host) (s : state).

Lemma userCanClose_top_level (firstPost : option Post) :
  userCanClose env s false firstPost = Ok false.
Proof. done. Qed.

Lemma userCanClose_reply (fp : Post) :
  userCanClose env s true (Some fp)
  = Ok (negb (passIfClosed env (heap s) (threadHash s !! propKey (post_threadId fp)))
        && (userIsPoster env (Some fp) || userIsTC env)).
Proof.
  unfold userCanClose, threadIsClosed. simpl.
  by destruct (passIfClosed _ _ _).
Qed.

Lemma userCanClose_returns (isReply : bool) (firstPost : option Post) :
  (isReply = true → firstPost ≠ None) →
  ∃ b, userCanClose env s isReply firstPost = Ok b.
Proof.
  intros Hfp. destruct isReply; [|by eexists].
  destruct firstPost as [fp|]; [|by destruct Hfp].
  rewrite userCanClose_reply. by eexists.
Qed.

(** The verbs that do not depend on the permission to close. *)
Lemma getStatusOptions_verbs (isReply : bool) (firstPost : option Post)
    (myValue : option string) (canClose : bool) :
  userCanClose env s isReply firstPost = Ok canClose →
  ∃ options,
    getStatusOptions env s isReply firstPost myValue = Ok options
    ∧ verbs options =
        (if truthy myValue && negb isReply then ["Request"] else [])
        ++ ["Discuss"]
        ++ (if isReply && negb (userIsPoster env firstPost)
               && bool_decide (post_status <$> firstPost = Some "Request")
            then ["Agree"; "Decline"] else [])
        ++ (if canClose then ["Close"] else []).
Proof.
  intros Hclose. unfold getStatusOptions. rewrite Hclose.
  unfold mbind, result_bind, verbs.
  eexists. split; [done|].
  destruct firstPost as [fp|].
  - generalize (userIsPoster env (Some fp)). intros poster.
    replace (bool_decide (post_status <$> Some fp = Some "Request"))
      with (bool_decide (post_status fp = "Request"))
      by (apply bool_decide_ext; simpl; split; congruence).
    by destruct (truthy myValue && negb isReply), canClose,
      (isReply && negb poster && bool_decide (post_status fp = "Request")).
  - simpl. rewrite andb_false_r.
    by destruct (truthy myValue && negb isReply), canClose.
Qed.
End PermissionFacts.

(** An object is strictly equal to no number: [userIsPoster] is never
    true. *)
Lemma userIsPoster_false (env : host) (post : option Post) :
  userIsPoster env post = false.
Proof. unfold userIsPoster. by destruct post, (surveyUser env). Qed.

Lemma request_decide (env : host) (isReply : bool) (firstPost : option Post) :
  isReply && negb (userIsPoster env firstPost)
    && bool_decide (post_status <$> firstPost = Some "Request") = true
  ↔ isReply = true ∧ post_status <$> firstPost = Some "Request".
Proof.
  rewrite userIsPoster_false, andb_true_r, andb_true_iff, bool_decide_eq_true. done.
Qed.

(** X27: when a reply comes with the first post of its thread,
    [getStatusOptions] returns; "Discuss" is allowed; "Request" is allowed
    exactly for a post that is no reply with a truthy [myValue] (neither
    [null] nor the empty string); "Agree" and "Decline" are allowed exactly
    for a reply to a thread whose first post has the status "Request",
    whoever the current user is. *)
Theorem getStatusOptions_allowed (env : host) (s : state) (isReply : bool)
    (firstPost : option Post) (myValue : option string) :
  (isReply = true → firstPost ≠ None) →
  ∃ options,
    getStatusOptions env s isReply firstPost myValue = Ok options
    ∧ "Discuss" ∈ verbs options
    ∧ ("Request" ∈ verbs options ↔ isReply = false ∧ truthy myValue = true)
    ∧ ("Agree" ∈ verbs options
       ↔ isReply = true ∧ post_status <$> firstPost = Some "Request")
    ∧ ("Decline" ∈ verbs options
       ↔ isReply = true ∧ post_status <$> firstPost = Some "Request").
Proof.
  intros Hfp.
  destruct (userCanClose_returns env s isReply firstPost Hfp) as [canClose Hclose].
  destruct (getStatusOptions_verbs env s isReply firstPost myValue canClose Hclose)
    as (options & Hopt & Hverbs).
  exists options. split; [done|]. rewrite Hverbs.
  rewrite <- !(request_decide env).
  destruct (isReply && negb (userIsPoster env firstPost)
            && bool_decide (post_status <$> firstPost = Some "Request")),
    (truthy myValue), isReply, canClose; simpl;
    (split; [by verb_solver|]); repeat (split; [verb_iff|]); verb_iff.
Qed.

(** A user whose [myValue] is the empty string, which is not [null], is not
    offered "Request" for a new top-level post. *)
Lemma getStatusOptions_empty_value :
  getStatusOptions exampleEnv indexedState false None (Some EmptyString)
    = Ok [("Discuss", "Discuss")]
  ∧ ¬ ∃ options,
      getStatusOptions exampleEnv indexedState false None (Some EmptyString) = Ok options
      ∧ optionsAsDocumented exampleEnv false None (Some EmptyString) (verbs options).
Proof.
  split; [done|].
  intros (options & [= <-] & _ & [_ Hrequest] & _).
  assert ("Request" ∈ verbs [("Discuss", "Discuss")]) as Hin
    by (apply Hrequest; done).
  simpl in Hin. verb_solver.
Qed.

(** C6: the poster of the first post of a thread that asks for something,
    replying to the thread, is offered "Agree" and "Decline", which the
    documentation allows to somebody else than the poster only:
    [userIsPoster] compares the object [surveyUser] with the number
    [post.poster] and is never true. *)
Theorem poster_offered_Agree_and_Decline (env : host) (s : state) (fp : Post)
    (myValue : option string) :
  isPosterOf env fp → post_status fp = "Request" →
  userIsPoster env (Some fp) = false
  ∧ ∃ options,
      getStatusOptions env s true (Some fp) myValue = Ok options
      ∧ "Agree" ∈ verbs options ∧ "Decline" ∈ verbs options
      ∧ ¬ optionsAsDocumented env true (Some fp) myValue (verbs options).
Proof.
  intros Hposter Hstatus. split; [apply userIsPoster_false|].
  destruct (userCanClose_returns env s true (Some fp)) as [canClose Hclose]; [done|].
  destruct (getStatusOptions_verbs env s true (Some fp) myValue canClose Hclose)
    as (options & Hopt & Hverbs).
  exists options. split; [done|]. rewrite Hverbs, userIsPoster_false. simpl.
  rewrite andb_false_r, Hstatus, bool_decide_eq_true_2 by done. simpl.
  assert ("Agree" ∈ "Discuss" :: "Agree" :: "Decline" :: (if canClose then ["Close"] else []))
    as Hagree by (right; by left).
  split; [done|]. split; [right; right; by left|].
  intros (_ & _ & [Hreply _] & _).
  destruct (Hreply Hagree) as (_ & fp' & [= <-] & _ & Hother). done.
Qed.

(** C7: when the thread is closed, the user cannot close it, whoever the
    user is, and "Close" is not among the allowed post types. *)
Theorem closed_thread_cannot_be_closed (env : host) (s : state)
    (isReply : bool) (firstPost : option Post) :
  threadIsClosed env s firstPost = Ok true →
  userCanClose env s isReply firstPost = Ok false
  ∧ ∀ myValue, ∃ options,
      getStatusOptions env s isReply firstPost myValue = Ok options
      ∧ "Close" ∉ verbs options.
Proof.
  intros Hclosed.
  assert (userCanClose env s isReply firstPost = Ok false) as Hcan.
  { destruct isReply; [|done]. unfold userCanClose. by rewrite Hclosed. }
  split; [done|]. intros myValue.
  destruct (getStatusOptions_verbs env s isReply firstPost myValue false Hcan)
    as (options & Hopt & Hverbs).
  exists options. split; [done|]. rewrite Hverbs.
  destruct (truthy myValue && negb isReply),
    (isReply && negb (userIsPoster env firstPost)
     && bool_decide (post_status <$> firstPost = Some "Request"));
    simpl; verb_solver.
Qed.

(** ** Outcomes and loops *)

Lemma bind_Ok {A B : Type} (m : result A) (k : A → result B) (b : B) :
  m ≫= k = Ok b ↔ ∃ a, m = Ok a ∧ k a = Ok b.
Proof.
  destruct m as [a| |]; simpl; split; try done; eauto.
  - intros (a' & [= <-] & Hk). done.
  - intros (? & [=] & _).
  - intros (? & [=] & _).
Qed.

Lemma forEach_cons_Ok {A S : Type} (body : A → S → result S) x l s s' :
  forEach body (x :: l) s = Ok s' ↔ ∃ s1, body x s = Ok s1 ∧ forEach body l s1 = Ok s'.
Proof. simpl. apply bind_Ok. Qed.

Lemma forEach_app {A S : Type} (body : A → S → result S) l1 l2 s :
  forEach body (l1 ++ l2) s = forEach body l1 s ≫= forEach body l2.
Proof.
  revert s. induction l1 as [|x l1 IH]; intros s; simpl; [done|].
  destruct (body x s) as [s1| |]; simpl; [apply IH|done|done].
Qed.

Lemma forEach_app_Ok {A S : Type} (body : A → S → result S) l1 l2 s s' :
  forEach body (l1 ++ l2) s = Ok s'
  ↔ ∃ s1, forEach body l1 s = Ok s1 ∧ forEach body l2 s1 = Ok s'.
Proof. rewrite forEach_app. apply bind_Ok. Qed.

(** A property that every turn of the loop keeps holds at the end. *)
Lemma forEach_invariant {A S : Type} (body : A → S → result S) (I : S → Prop) l s s' :
  (∀ x s1 s2, x ∈ l → I s1 → body x s1 = Ok s2 → I s2) →
  I s → forEach body l s = Ok s' → I s'.
Proof.
  revert s. induction l as [|x l IH]; intros s Hstep Hs Hrun.
  - by injection Hrun as <-.
  - apply forEach_cons_Ok in Hrun as (s1 & Hx & Hl).
    apply (IH s1); [|by eapply Hstep; [left|..]|done].
    intros y s2 s3 Hy. apply Hstep. by right.
Qed.

(** ** The walk *)

Lemma getOldestPostInThread_unfold (fuel : nat) (s : state) (post : loc) :
  getOldestPostInThread fuel s post =
  match heap s !! post with
  | None => Throw
  | Some p =>
      if bool_decide (0 ≤ post_parent p) then
        match postHash s !! post_parent p with
        | Some parentPost =>
            match fuel with
            | O => OutOfFuel
            | S fuel' => getOldestPostInThread fuel' s parentPost
            end
        | None => Ok post
        end
      else Ok post
  end.
Proof. by destruct fuel. Qed.

Lemma sameShape_refl h : sameShape h h.
Proof. done. Qed.

Lemma sameShape_sym h h' : sameShape h h' → sameShape h' h.
Proof. intros H l. by rewrite H. Qed.

Lemma sameShape_trans h1 h2 h3 : sameShape h1 h2 → sameShape h2 h3 → sameShape h1 h3.
Proof. intros H1 H2 l. by rewrite H1. Qed.

Lemma sameShape_lookup h h' l p :
  sameShape h h' → h !! l = Some p →
  ∃ p', h' !! l = Some p' ∧ eraseThreadId p' = eraseThreadId p.
Proof.
  intros Hshape Hl. specialize (Hshape l). rewrite Hl in Hshape.
  destruct (h' !! l) as [p'|]; [|done]. exists p'. split; [done|].
  simpl in Hshape. congruence.
Qed.

Lemma eraseThreadId_fields p p' :
  eraseThreadId p' = eraseThreadId p →
  post_id p' = post_id p ∧ post_parent p' = post_parent p
  ∧ post_locale p' = post_locale p.
Proof. unfold eraseThreadId. intros H. injection H as H1 H2 H3. auto. Qed.

Lemma sameShape_insert h l p t :
  h !! l = Some p → sameShape h (<[l := setThreadId t p]> h).
Proof.
  intros Hl l'. destruct (decide (l = l')) as [<-|Hne].
  - by rewrite lookup_insert_eq, Hl.
  - by rewrite lookup_insert_ne.
Qed.

(** The walk reads the ids, the parents and the index only. *)
Lemma getOldestPostInThread_shape (fuel : nat) (s s' : state) (post : loc) :
  sameShape (heap s) (heap s') → postHash s = postHash s' →
  getOldestPostInThread fuel s post = getOldestPostInThread fuel s' post.
Proof.
  intros Hshape Hindex. revert post.
  induction fuel as [|fuel IH]; intros post;
    rewrite (getOldestPostInThread_unfold _ s), (getOldestPostInThread_unfold _ s');
    rewrite <- Hindex;
    (destruct (heap s !! post) as [p|] eqn:Hp;
     [ destruct (sameShape_lookup _ _ _ _ Hshape Hp) as (p' & -> & Herase);
       apply eraseThreadId_fields in Herase as (_ & -> & _)
     | specialize (Hshape post); rewrite Hp in Hshape;
       destruct (heap s' !! post); [done|] ]);
    try done.
  case_bool_decide; [|done]. destruct (postHash s !! post_parent p); [|done].
  apply IH.
Qed.

Section Walk.
Context (h : gmap loc Post) (ph : gmap Z loc).

Lemma rootAncestor_deterministic post root1 root2 :
  rootAncestor h ph post root1 → rootAncestor h ph post root2 → root1 = root2.
Proof.
  intros H1. revert root2.
  induction H1 as [post p Hp Hend|post p parentPost root Hp Hge Hparent _ IH];
    intros root2 H2; inversion H2 as [? p' Hp' Hend'|? p' parentPost' ? Hp' Hge' Hparent' Hrest];
    subst; rewrite Hp in Hp'; injection Hp' as <-.
  - done.
  - destruct Hend as [Hneg|Hnone]; [lia|congruence].
  - destruct Hend' as [Hneg|Hnone]; [lia|congruence].
  - apply IH. congruence.
Qed.

Lemma rootAncestor_in_store post root :
  rootAncestor h ph post root → is_Some (h !! post) ∧ is_Some (h !! root).
Proof.
  induction 1 as [post p Hp _|post p parentPost root Hp _ _ _ [_ IH]];
    (split; [by exists p|]); [by exists p|done].
Qed.

Lemma rootAncestor_links post root :
  rootAncestor h ph post root → rtc (parentLink h ph) post root.
Proof.
  induction 1 as [|post p parentPost root Hp Hge Hparent _ IH]; [done|].
  eapply rtc_l; [|done]. by exists p.
Qed.

(** A post at which the parent links end is its own root ancestor. *)
Lemma rootAncestor_root post root :
  rootAncestor h ph post root → rootAncestor h ph root root.
Proof. induction 1; [by econstructor|done]. Qed.
End Walk.

(** What the walk returns is the root ancestor. *)
Lemma getOldestPostInThread_sound (fuel : nat) (s : state) (post root : loc) :
  getOldestPostInThread fuel s post = Ok root →
  rootAncestor (heap s) (postHash s) post root.
Proof.
  revert post. induction fuel as [|fuel IH]; intros post;
    rewrite getOldestPostInThread_unfold;
    destruct (heap s !! post) as [p|] eqn:Hp; try done;
    case_bool_decide as Hge;
    try (intros [= <-]; eapply root_here; [done|left; lia]);
    destruct (postHash s !! post_parent p) as [parentPost|] eqn:Hparent;
    try (intros [= <-]; eapply root_here; [done|by right]);
    try done.
  intros Hwalk. eapply root_up; eauto.
Qed.

(** The walk ends within as many turns as there are keys that it can still
    meet: a key that it met twice would close a cycle. *)
Lemma getOldestPostInThread_within (s : state) (fuel : nat) (keys : gset Z) (post : loc) :
  indexInStore (heap s) (postHash s) →
  is_Some (heap s !! post) →
  noCycleFrom (heap s) (postHash s) post →
  (∀ q parentPost, rtc (parentLink (heap s) (postHash s)) post q →
     ∀ p, heap s !! q = Some p → postHash s !! post_parent p = Some parentPost →
     post_parent p ∈ keys) →
  (size keys ≤ fuel)%nat →
  ∃ root, getOldestPostInThread fuel s post = Ok root.
Proof.
  intros Hstore. revert keys post.
  induction fuel as [|fuel IH]; intros keys post [p Hp] Hacyclic Hkeys Hsize;
    rewrite getOldestPostInThread_unfold, Hp;
    (case_bool_decide as Hge; [|by eexists]);
    (destruct (postHash s !! post_parent p) as [parentPost|] eqn:Hparent; [|by eexists]);
    assert (post_parent p ∈ keys) as Hkey by (by eapply (Hkeys post parentPost)).
  - assert (size keys = 0%nat) as Hempty by lia.
    apply size_empty_inv in Hempty. set_solver.
  - assert (parentLink (heap s) (postHash s) post parentPost) as Hlink by (by exists p).
    apply (IH (keys ∖ {[post_parent p]})).
    + by eapply Hstore.
    + intros q Hq. apply Hacyclic. by eapply rtc_l.
    + intros q parentPost' Hq p' Hp' Hparent'.
      apply elem_of_difference. split.
      * eapply (Hkeys q parentPost'); [by eapply rtc_l|done..].
      * intros Hsame%elem_of_singleton.
        apply (Hacyclic parentPost); [by apply rtc_once|].
        eapply tc_rtc_l; [done|]. apply tc_once.
        exists p'. rewrite Hsame. split; [done|]. split; [lia|done].
    + rewrite size_difference by set_solver. rewrite size_singleton.
      assert (size keys ≠ 0%nat); [|lia].
      apply size_non_empty_iff. set_solver.
Qed.

(** A number of turns equal to the size of the index is enough. *)
Lemma getOldestPostInThread_enough (s : state) (post : loc) (fuel : nat) :
  indexInStore (heap s) (postHash s) →
  is_Some (heap s !! post) →
  noCycleFrom (heap s) (postHash s) post →
  (size (postHash s) ≤ fuel)%nat →
  ∃ root, getOldestPostInThread fuel s post = Ok root.
Proof.
  intros Hstore Hpost Hacyclic Hfuel.
  apply (getOldestPostInThread_within s fuel (dom (postHash s))); try done.
  - intros q parentPost _ p _ Hparent. apply elem_of_dom. by eexists.
  - by rewrite size_dom.
Qed.

(** C9: when the parent links that the walk from a post can reach form no
    cycle, [getOldestPostInThread] ends: a number of turns equal to the
    size of the index is enough, and it returns the root ancestor of the
    post. *)
Theorem getOldestPostInThread_terminates (s : state) (post : loc) :
  indexInStore (heap s) (postHash s) →
  is_Some (heap s !! post) →
  noCycleFrom (heap s) (postHash s) post →
  ∃ root,
    rootAncestor (heap s) (postHash s) post root
    ∧ ∀ fuel, (size (postHash s) ≤ fuel)%nat →
        getOldestPostInThread fuel s post = Ok root.
Proof.
  intros Hstore Hpost Hacyclic.
  destruct (getOldestPostInThread_enough s post (size (postHash s)))
    as [root Hroot]; try done.
  exists root. split; [by eapply getOldestPostInThread_sound|].
  intros fuel Hfuel.
  destruct (getOldestPostInThread_enough s post fuel) as [root' Hroot']; try done.
  rewrite Hroot'. f_equal.
  eapply rootAncestor_deterministic; by eapply getOldestPostInThread_sound.
Qed.

(** A walk has a root ancestor only if it meets no cycle. *)
Lemma rootAncestor_noCycle (h : gmap loc Post) (ph : gmap Z loc) (post root : loc) :
  rootAncestor h ph post root → noCycleFrom h ph post.
Proof.
  assert (∀ x y z, parentLink h ph x y → parentLink h ph x z → y = z) as Hdet.
  { intros x y z (p & Hp & _ & Hy) (p' & Hp' & _ & Hz). congruence. }
  induction 1 as [post p Hp Hend|post p parentPost root Hp Hge Hparent _ IH].
  - assert (∀ y, ¬ parentLink h ph post y) as Hstuck.
    { intros y (p' & Hp' & Hge & Hy). rewrite Hp in Hp'. injection Hp' as <-.
      destruct Hend; [lia|congruence]. }
    intros q Hq Hcycle. apply rtc_inv in Hq as [<-|(y & Hy & _)]; [|by eapply Hstuck].
    inversion Hcycle; by eapply Hstuck.
  - assert (parentLink h ph post parentPost) as Hlink by (by exists p).
    intros q Hq Hcycle. apply rtc_inv in Hq as [<-|(y & Hy & Hq)].
    + apply (IH parentPost); [done|].
      assert (rtc (parentLink h ph) parentPost post) as Hback.
      { inversion Hcycle as [? ? Hy|? y ? Hy Hrest]; subst;
          rewrite (Hdet _ _ _ Hlink Hy); [done|by apply tc_rtc]. }
      eapply tc_rtc_l; [done|by apply tc_once].
    + rewrite <- (Hdet _ _ _ Hlink Hy) in Hq. by apply (IH q).
Qed.

(** ** The post index *)

Lemma indexInto_cons h ph post posts :
  indexInto h ph (post :: posts)
  = indexInto h (match h !! post with
                 | Some p => <[post_id p := post]> ph
                 | None => ph
                 end) posts.
Proof. done. Qed.

Lemma indexInto_in_store h ph posts :
  indexInStore h ph → indexInStore h (indexInto h ph posts).
Proof.
  revert ph. induction posts as [|post posts IH]; intros ph Hph; [done|].
  rewrite indexInto_cons. apply IH.
  destruct (h !! post) as [p|] eqn:Hp; [|done].
  intros k l. rewrite lookup_insert. case_decide; [|by apply Hph].
  intros [= <-]. by exists p.
Qed.

Lemma indexInto_size h ph posts :
  (size (indexInto h ph posts) ≤ size ph + length posts)%nat.
Proof.
  revert ph. induction posts as [|post posts IH]; intros ph; simpl; [lia|].
  fold (indexInto h). etrans; [apply IH|].
  destruct (h !! post) as [p|]; [|lia].
  rewrite map_size_insert. destruct (ph !! post_id p); simpl; lia.
Qed.

Lemma indexOf_in_store h posts : indexInStore h (indexOf h posts).
Proof. apply indexInto_in_store. intros k l. by rewrite lookup_empty. Qed.

Lemma indexOf_size h posts : (size (indexOf h posts) ≤ length posts)%nat.
Proof.
  unfold indexOf. etrans; [apply indexInto_size|].
  by rewrite map_size_empty.
Qed.

Lemma updatePostHash_spec (posts : list loc) (s : state) :
  (∀ post, post ∈ posts → is_Some (heap s !! post)) →
  updatePostHash posts s
  = Ok (setPostHash (indexInto (heap s) (postHash s) posts) s).
Proof.
  revert s. induction posts as [|post posts IH]; intros s Hposts.
  - by destruct s.
  - destruct (Hposts post) as [p Hp]; [by left|].
    unfold updatePostHash in *. simpl. rewrite Hp. simpl.
    rewrite IH; [done|]. intros post' Hin. apply Hposts. by right.
Qed.

Lemma updatePostHash_inv (posts : list loc) (s s' : state) :
  updatePostHash posts s = Ok s' →
  ∀ post, post ∈ posts → is_Some (heap s !! post).
Proof.
  revert s. induction posts as [|post posts IH]; intros s Hrun post' Hin.
  - by apply elem_of_nil in Hin.
  - apply forEach_cons_Ok in Hrun as (s1 & Hstep & Hrest).
    destruct (heap s !! post) as [p|] eqn:Hp; [|done].
    injection Hstep as <-.
    apply elem_of_cons in Hin as [->|Hin]; [by exists p|].
    by apply (IH _ Hrest).
Qed.

(** ** Thread ids *)

Lemma threadIdOf_shape p p' :
  eraseThreadId p' = eraseThreadId p → threadIdOf p' = threadIdOf p.
Proof.
  intros (Hid & _ & Hlocale)%eraseThreadId_fields.
  unfold threadIdOf. by rewrite Hid, Hlocale.
Qed.

Lemma setThreadId_shape t p p' :
  eraseThreadId p' = eraseThreadId p → setThreadId t p' = setThreadId t p.
Proof. unfold eraseThreadId, setThreadId. intros H. injection H as -> -> -> -> -> ->. done. Qed.

Lemma addThreadIds_cons fuel post posts s s' :
  addThreadIds fuel (post :: posts) s = Ok s' ↔
  ∃ root r p,
    getOldestPostInThread fuel s post = Ok root
    ∧ heap s !! root = Some r ∧ heap s !! post = Some p
    ∧ addThreadIds fuel posts
        (setHeap (<[post := setThreadId (threadIdOf r) p]> (heap s)) s) = Ok s'.
Proof.
  unfold addThreadIds. rewrite forEach_cons_Ok. split.
  - intros (s1 & Hstep & Hrest).
    apply bind_Ok in Hstep as (root & Hroot & Hstep).
    destruct (heap s !! root) as [r|] eqn:Hr; [|done].
    destruct (heap s !! post) as [p|] eqn:Hp; [|done].
    injection Hstep as <-. by exists root, r, p.
  - intros (root & r & p & Hroot & Hr & Hp & Hrest).
    eexists. split; [|done]. by rewrite Hroot; simpl; rewrite Hr, Hp.
Qed.

(** What [addThreadIds] leaves behind: the indices are untouched, and each
    post of the list carries the thread id made of the locale and the id of
    the post that the walk from it returned. *)
Lemma addThreadIds_Ok fuel posts s s' :
  addThreadIds fuel posts s = Ok s' →
  forumLocale s' = forumLocale s ∧ forumUpdateTime s' = forumUpdateTime s
  ∧ postHash s' = postHash s ∧ threadHash s' = threadHash s
  ∧ sameShape (heap s) (heap s')
  ∧ (∀ post, post ∈ posts → ∃ root r p,
       getOldestPostInThread fuel s post = Ok root
       ∧ heap s !! root = Some r ∧ heap s !! post = Some p
       ∧ heap s' !! post = Some (setThreadId (threadIdOf r) p))
  ∧ (∀ l, l ∉ posts → heap s' !! l = heap s !! l).
Proof.
  revert s. induction posts as [|post posts IH]; intros s Hrun.
  - injection Hrun as <-. repeat split; try done.
    intros post Hin. by apply elem_of_nil in Hin.
  - apply addThreadIds_cons in Hrun as (root & r & p & Hroot & Hr & Hp & Hrest).
    set (s1 := setHeap (<[post := setThreadId (threadIdOf r) p]> (heap s)) s) in *.
    assert (sameShape (heap s) (heap s1)) as Hshape1 by (by apply sameShape_insert).
    destruct (IH s1 Hrest) as (Hl & Ht & Hph & Hth & Hshape & Hposts & Hothers).
    repeat split; try done.
    + by eapply sameShape_trans.
    + intros post' Hin.
      destruct (decide (post' ∈ posts)) as [Hin'|Hout].
      * destruct (Hposts post' Hin') as (root' & r1 & p1 & Hroot' & Hr1 & Hp1 & Hend).
        destruct (sameShape_lookup _ _ _ _ (sameShape_sym _ _ Hshape1) Hr1)
          as (r' & Hr' & Hre).
        destruct (sameShape_lookup _ _ _ _ (sameShape_sym _ _ Hshape1) Hp1)
          as (p' & Hp' & Hpe).
        exists root', r', p'. repeat split; try done.
        -- by rewrite (getOldestPostInThread_shape fuel s s1).
        -- rewrite Hend. f_equal.
           rewrite (threadIdOf_shape _ _ Hre). by apply setThreadId_shape.
      * apply elem_of_cons in Hin as [->|Hin]; [|done].
        exists root, r, p. repeat split; try done.
        rewrite (Hothers post Hout). apply lookup_insert_eq.
    + intros l Hl'. apply not_elem_of_cons in Hl' as [Hne Hout].
      rewrite (Hothers l Hout). by apply lookup_insert_ne.
Qed.

Lemma addThreadIds_returns fuel posts s :
  (∀ post, post ∈ posts → ∃ root, getOldestPostInThread fuel s post = Ok root) →
  ∃ s', addThreadIds fuel posts s = Ok s'.
Proof.
  revert s. induction posts as [|post posts IH]; intros s Hposts; [by eexists|].
  destruct (Hposts post) as [root Hroot]; [by left|].
  destruct (rootAncestor_in_store _ _ _ _ (getOldestPostInThread_sound _ _ _ _ Hroot))
    as [[p Hp] [r Hr]].
  set (s1 := setHeap (<[post := setThreadId (threadIdOf r) p]> (heap s)) s).
  destruct (IH s1) as [s' Hrest].
  - intros post' Hin. destruct (Hposts post') as [root' Hroot']; [by right|].
    exists root'. rewrite <- Hroot'. symmetry.
    apply getOldestPostInThread_shape; [|done]. by apply sameShape_insert.
  - exists s'. apply addThreadIds_cons. by exists root, r, p.
Qed.

(** ** The thread index *)

Lemma updateThreadHash_step (th : gmap string (list loc)) (key : string) (post : loc) :
  alter (λ a, a ++ [post]) key
        (match th !! key with Some _ => th | None => <[key := []]> th end)
  = <[key := default [] (th !! key) ++ [post]]> th.
Proof.
  apply map_eq. intros k. destruct (th !! key) as [a|] eqn:Hkey; simpl;
    destruct (decide (key = k)) as [<-|Hne].
  - by rewrite lookup_alter_eq, lookup_insert_eq, Hkey.
  - by rewrite lookup_alter_ne, lookup_insert_ne.
  - by rewrite lookup_alter_eq, !lookup_insert_eq.
  - by rewrite lookup_alter_ne, !lookup_insert_ne.
Qed.

Lemma updateThreadHash_spec (posts : list loc) (s : state) :
  (∀ post, post ∈ posts → is_Some (heap s !! post)) →
  updateThreadHash posts s
  = Ok (setThreadHash (groupInto (heap s) (threadHash s) posts) s).
Proof.
  revert s. induction posts as [|post posts IH]; intros s Hposts.
  - by destruct s.
  - destruct (Hposts post) as [p Hp]; [by left|].
    unfold updateThreadHash in *. simpl. rewrite Hp. simpl.
    rewrite IH by (intros post' Hin; apply Hposts; by right).
    simpl. rewrite updateThreadHash_step. done.
Qed.

Lemma groupInto_lookup h th posts key :
  groupInto h th posts !! key =
  match postsOfThread h key posts with
  | [] => th !! key
  | thread => Some (default [] (th !! key) ++ thread)
  end.
Proof.
  revert th. induction posts as [|post posts IH]; intros th; [done|].
  unfold groupInto, postsOfThread in *. simpl. rewrite IH. clear IH.
  rewrite filter_cons.
  destruct (h !! post) as [p|] eqn:Hp; simpl.
  - destruct (decide (threadKey p = key)) as [<-|Hne].
    + rewrite decide_True by done. rewrite lookup_insert_eq. simpl.
      destruct (filter _ posts); [done|]. by rewrite <- app_assoc.
    + rewrite decide_False by congruence. by rewrite lookup_insert_ne.
  - done.
Qed.

(** ** Indexing a full set *)

Lemma indexInto_shape h h' ph posts :
  sameShape h h' → indexInto h ph posts = indexInto h' ph posts.
Proof.
  intros Hshape. revert ph. induction posts as [|post posts IH]; intros ph; [done|].
  rewrite !indexInto_cons.
  destruct (h !! post) as [p|] eqn:Hp.
  - destruct (sameShape_lookup _ _ _ _ Hshape Hp) as (p' & Hp' & Herase).
    rewrite Hp'. apply eraseThreadId_fields in Herase as (Hid & _).
    rewrite Hid. apply IH.
  - specialize (Hshape post). rewrite Hp in Hshape.
    destruct (h' !! post); [done|]. apply IH.
Qed.

Lemma updateForumData_full (fuel : nat) (now : Z) (posts : list loc) (s s' : state) :
  updateForumData fuel now posts true s = Ok s' ↔
  (∀ post, post ∈ posts → is_Some (heap s !! post))
  ∧ ∃ s2, addThreadIds fuel posts (withIndex s posts) = Ok s2
          ∧ s' = setUpdateTime (Some now)
                   (setThreadHash (groupInto (heap s2) ∅ posts) s2).
Proof.
  unfold updateForumData. split.
  - intros Hrun. apply bind_Ok in Hrun as (s1 & Hindex & Hrun).
    assert (∀ post, post ∈ posts → is_Some (heap s !! post)) as Hposts
      by apply (updatePostHash_inv _ _ _ Hindex).
    rewrite updatePostHash_spec in Hindex by done. injection Hindex as <-.
    apply bind_Ok in Hrun as (s2 & Hids & Hrun).
    apply bind_Ok in Hrun as (s3 & Hthreads & [= <-]).
    destruct (addThreadIds_Ok _ _ _ _ Hids) as (_ & _ & _ & Hth & Hshape & Hall & _).
    rewrite updateThreadHash_spec in Hthreads.
    + injection Hthreads as <-. split; [done|]. exists s2. split; [done|].
      by rewrite Hth.
    + intros post Hin. destruct (Hall post Hin) as (root & r & p & _ & _ & _ & Hp).
      by eexists.
  - intros (Hposts & s2 & Hids & ->).
    rewrite updatePostHash_spec by done. simpl.
    unfold withIndex in Hids. simpl in Hids. unfold indexOf in Hids.
    rewrite Hids. simpl.
    destruct (addThreadIds_Ok _ _ _ _ Hids) as (_ & _ & _ & Hth & _ & Hall & _).
    rewrite updateThreadHash_spec.
    + simpl. by rewrite Hth.
    + intros post Hin. destruct (Hall post Hin) as (root & r & p & _ & _ & _ & Hp).
      by eexists.
Qed.

Lemma withIndex_walk (fuel : nat) (s : state) (posts : list loc) (post : loc) :
  getOldestPostInThread fuel (withIndex s posts) post
  = getOldestPostInThread fuel (setPostHash (indexOf (heap s) posts) s) post.
Proof. by apply getOldestPostInThread_shape. Qed.

(** The outcome of indexing a full set. *)
Lemma updateForumData_full_Ok (fuel : nat) (now : Z) (posts : list loc) (s s' : state) :
  updateForumData fuel now posts true s = Ok s' →
  forumLocale s' = forumLocale s
  ∧ forumUpdateTime s' = Some now
  ∧ postHash s' = indexOf (heap s) posts
  ∧ threadHash s' = groupInto (heap s') ∅ posts
  ∧ sameShape (heap s) (heap s')
  ∧ (∀ post, post ∈ posts → ∃ root r p,
       getOldestPostInThread fuel (withIndex s posts) post = Ok root
       ∧ heap s !! root = Some r ∧ heap s !! post = Some p
       ∧ heap s' !! post = Some (setThreadId (threadIdOf r) p))
  ∧ (∀ l, l ∉ posts → heap s' !! l = heap s !! l).
Proof.
  intros (Hposts & s2 & Hids & ->)%updateForumData_full.
  destruct (addThreadIds_Ok _ _ _ _ Hids) as (Hl & Ht & Hph & Hth & Hshape & Hall & Hrest).
  done.
Qed.

Lemma updateForumData_full_returns (fuel : nat) (now : Z) (posts : list loc) (s : state) :
  (∀ post, post ∈ posts →
     ∃ root, getOldestPostInThread fuel (withIndex s posts) post = Ok root) →
  ∃ s', updateForumData fuel now posts true s = Ok s'.
Proof.
  intros Hwalks.
  destruct (addThreadIds_returns fuel posts (withIndex s posts) Hwalks) as [s2 Hids].
  eexists. apply updateForumData_full. split; [|by exists s2].
  intros post Hin. destruct (Hwalks post Hin) as [root Hroot].
  by destruct (rootAncestor_in_store _ _ _ _ (getOldestPostInThread_sound _ _ _ _ Hroot)).
Qed.

(** When every post of a list has a root ancestor (the post at which the
    walk of [getOldestPostInThread] ends, because its parent is negative or
    absent from the index), indexing the list as a full set returns, and
    the thread id of every post is the locale of its root ancestor, then
    "|", then the id of its root ancestor. *)
Lemma threadId_of_root_ancestor (s : state) (now : Z) (posts : list loc) :
  (∀ post, post ∈ posts →
     ∃ root, rootAncestor (heap s) (indexOf (heap s) posts) post root) →
  ∃ s',
    updateForumData (length posts) now posts true s = Ok s'
    ∧ postHash s' = indexOf (heap s) posts
    ∧ ∀ post root r,
        post ∈ posts →
        rootAncestor (heap s) (indexOf (heap s) posts) post root →
        heap s !! root = Some r →
        threadIdIn (heap s') post
        = Some (Some (post_locale r +:+ "|" +:+ pretty (post_id r))).
Proof.
  intros Hroots.
  assert (∀ post, post ∈ posts →
            ∃ root, getOldestPostInThread (length posts) (withIndex s posts) post = Ok root)
    as Hwalks.
  { intros post Hin. destruct (Hroots post Hin) as [root Hroot].
    rewrite withIndex_walk.
    apply (getOldestPostInThread_enough (setPostHash (indexOf (heap s) posts) s)).
    - apply indexOf_in_store.
    - by destruct (rootAncestor_in_store _ _ _ _ Hroot).
    - by eapply rootAncestor_noCycle.
    - apply indexOf_size. }
  destruct (updateForumData_full_returns _ now _ _ Hwalks) as [s' Hrun].
  exists s'. split; [done|].
  destruct (updateForumData_full_Ok _ _ _ _ _ Hrun) as (_ & _ & Hph & _ & _ & Hall & _).
  split; [done|]. intros post root r Hin Hroot Hr.
  destruct (Hall post Hin) as (root' & r' & p & Hwalk & Hr' & Hp & Hend).
  rewrite withIndex_walk in Hwalk. apply getOldestPostInThread_sound in Hwalk.
  rewrite (rootAncestor_deterministic _ _ _ _ _ Hroot Hwalk) in Hr.
  rewrite Hr in Hr'. injection Hr' as <-.
  unfold threadIdIn. by rewrite Hend.
Qed.

(** With a post of a negative id in the index the two root ancestors
    differ: post 9 ("de") is a reply to post -5 ("fr"), which has parent
    -1.  Followed up to a parent -1, the parent links lead from post 9 to
    post -5; the walk ends at post 9, whose parent is negative, and post 9
    gets the thread id "de|9". *)
Lemma threadId_negative_parent :
  ∃ s',
    updateForumData 2 0 [1%positive; 2%positive] true (initialState negativeHeap) = Ok s'
    ∧ rootAsDocumented (heap s') (postHash s') 2%positive 1%positive
    ∧ heap s' !! 1%positive = Some (setThreadId "fr|-5" postMinus5)
    ∧ threadIdIn (heap s') 2%positive = Some (Some "de|9")
    ∧ threadIdIn (heap s') 2%positive
      ≠ Some (Some (post_locale postMinus5 +:+ "|" +:+ pretty (post_id postMinus5))).
Proof.
  eexists. split; [vm_compute; reflexivity|].
  split; [|by vm_compute].
  eapply documented_root_up; [by vm_compute|by vm_compute|by vm_compute|].
  eapply documented_root_here; [by vm_compute|by left].
Qed.

Example example_threadIds :
  ∃ s',
    updateForumData 2 0 examplePosts true (initialState exampleHeap) = Ok s'
    ∧ threadIdIn (heap s') 1%positive = Some (Some "fr|5")
    ∧ threadIdIn (heap s') 2%positive = Some (Some "fr|5")
    ∧ threadHash s' = {[ "fr|5" := [1%positive; 2%positive] ]}.
Proof. eexists. split; [vm_compute; reflexivity|]. by vm_compute. Qed.

(** C9 on the reply of the example, whose walk meets its parent and ends. *)
Lemma getOldestPostInThread_terminates_example :
  ∃ root,
    rootAncestor (heap indexedState) (postHash indexedState) 2%positive root
    ∧ ∀ fuel, (size (postHash indexedState) ≤ fuel)%nat →
        getOldestPostInThread fuel indexedState 2%positive = Ok root.
Proof.
  apply (getOldestPostInThread_terminates indexedState 2%positive).
  - intros k l Hk. unfold indexedState, postHash in Hk.
    apply lookup_insert_Some in Hk as [[_ <-]|[_ Hk]];
      [eexists; vm_compute; reflexivity|].
    apply lookup_singleton_Some in Hk as [_ <-]. eexists; vm_compute; reflexivity.
  - eexists; vm_compute; reflexivity.
  - apply (rootAncestor_noCycle _ _ _ 1%positive).
    eapply root_up; [by vm_compute|by vm_compute|by vm_compute|].
    eapply root_here; [by vm_compute|by left].
Defined.

Lemma state_eq (s s' : state) :
  heap s = heap s' → forumLocale s = forumLocale s' →
  forumUpdateTime s = forumUpdateTime s' → postHash s = postHash s' →
  threadHash s = threadHash s' → s = s'.
Proof. destruct s, s'; simpl; intros; by subst. Qed.

(** C3: indexing the same list as a full set a second time returns and
    changes neither the posts, nor the post index, nor the thread index
    (nor the locale); only the time of the last update is set anew. *)
Theorem updateForumData_idempotent (fuel : nat) (now now' : Z)
    (posts : list loc) (s s1 : state) :
  updateForumData fuel now posts true s = Ok s1 →
  ∃ s2,
    updateForumData fuel now' posts true s1 = Ok s2
    ∧ postHash s2 = postHash s1
    ∧ threadHash s2 = threadHash s1
    ∧ heap s2 = heap s1
    ∧ s2 = setUpdateTime (Some now') s1.
Proof.
  intros Hrun1.
  destruct (updateForumData_full_Ok _ _ _ _ _ Hrun1)
    as (Hl1 & Ht1 & Hph1 & Hth1 & Hshape1 & Hall1 & Hrest1).
  assert (indexOf (heap s1) posts = indexOf (heap s) posts) as Hindex
    by (symmetry; by apply indexInto_shape).
  assert (∀ post, getOldestPostInThread fuel (withIndex s1 posts) post
                  = getOldestPostInThread fuel (withIndex s posts) post) as Hwalk.
  { intros post. apply getOldestPostInThread_shape.
    - by apply sameShape_sym.
    - simpl. by rewrite Hindex. }
  destruct (updateForumData_full_returns fuel now' posts s1) as [s2 Hrun2].
  { intros post Hin. destruct (Hall1 post Hin) as (root & _ & _ & Hroot & _).
    exists root. by rewrite Hwalk. }
  destruct (updateForumData_full_Ok _ _ _ _ _ Hrun2)
    as (Hl2 & Ht2 & Hph2 & Hth2 & Hshape2 & Hall2 & Hrest2).
  assert (heap s2 = heap s1) as Hheap.
  { apply map_eq. intros l. destruct (decide (l ∈ posts)) as [Hin|Hout]; [|by apply Hrest2].
    destruct (Hall1 l Hin) as (root & r & p & Hroot & Hr & Hp & Hend1).
    destruct (Hall2 l Hin) as (root' & r1 & p1 & Hroot' & Hr1 & Hp1 & Hend2).
    rewrite Hwalk, Hroot in Hroot'. injection Hroot' as <-.
    destruct (sameShape_lookup _ _ _ _ Hshape1 Hr) as (r1' & Hr1' & Herase).
    rewrite Hr1 in Hr1'. injection Hr1' as <-.
    rewrite Hend2, (threadIdOf_shape _ _ Herase).
    rewrite Hend1 in Hp1. injection Hp1 as <-. by rewrite Hend1. }
  exists s2. split; [done|].
  assert (postHash s2 = postHash s1) as Hph by (by rewrite Hph2, Hindex).
  assert (threadHash s2 = threadHash s1) as Hth by (by rewrite Hth2, Hheap).
  repeat split; try done.
  by apply state_eq.
Qed.

(** ** Order of the posts of a thread *)

Lemma filter_ext_in {A : Type} (P Q : A → Prop) `{!∀ x, Decision (P x)}
    `{!∀ x, Decision (Q x)} (l : list A) :
  (∀ x, x ∈ l → (P x ↔ Q x)) → filter P l = filter Q l.
Proof.
  induction l as [|x l IH]; intros Hext; [done|].
  rewrite !filter_cons.
  rewrite IH by (intros y Hy; apply Hext; by right).
  destruct (decide (P x)) as [HP|HP], (decide (Q x)) as [HQ|HQ]; try done;
    exfalso; apply (Hext x) in HP || apply (Hext x) in HQ; try done; by left.
Qed.

(** The head of a filtered list is the first element that passes. *)
Lemma filter_head_first {A : Type} (P : A → Prop) `{!∀ x, Decision (P x)}
    (l : list A) (x : A) (rest : list A) :
  filter P l = x :: rest →
  P x ∧ ∃ before after, l = before ++ x :: after ∧ ∀ y, y ∈ before → ¬ P y.
Proof.
  induction l as [|y l IH]; [done|]. rewrite filter_cons.
  destruct (decide (P y)) as [HP|HP].
  - intros [= -> Hrest]. split; [done|]. exists [], l. split; [done|].
    intros z Hz. by apply elem_of_nil in Hz.
  - intros Hfilter. destruct (IH Hfilter) as (Hx & before & after & -> & Hbefore).
    split; [done|]. exists (y :: before), after. split; [done|].
    intros z [->|Hz]%elem_of_cons; [done|by apply Hbefore].
Qed.

(** C10: after a list was indexed as a full set, the array that the thread
    index holds for a thread is the list of the posts of that thread in the
    order of the input; its first element is the first post of the input
    that belongs to the thread (the newest one, for an input that is sorted
    from newest to oldest), and [getNewestPostInThread] returns it for
    every post of the thread. *)
Theorem threadHash_keeps_input_order (fuel : nat) (now : Z) (posts : list loc)
    (s s' : state) :
  updateForumData fuel now posts true s = Ok s' →
  (∀ key thread, threadHash s' !! key = Some thread →
     thread = filter (λ post, threadIdIn (heap s') post = Some (Some key)) posts)
  ∧ (∀ post, post ∈ posts →
       ∃ key newest rest,
         threadIdIn (heap s') post = Some (Some key)
         ∧ threadHash s' !! key = Some (newest :: rest)
         ∧ getNewestPostInThread s' post = Ok (Some newest)
         ∧ threadIdIn (heap s') newest = Some (Some key)
         ∧ ∃ before after,
             posts = before ++ newest :: after
             ∧ ∀ q, q ∈ before → threadIdIn (heap s') q ≠ Some (Some key)).
Proof.
  intros Hrun.
  destruct (updateForumData_full_Ok _ _ _ _ _ Hrun)
    as (_ & _ & _ & Hth & _ & Hall & _).
  assert (∀ key, postsOfThread (heap s') key posts
                 = filter (λ post, threadIdIn (heap s') post = Some (Some key)) posts)
    as Hfilter.
  { intros key. apply filter_ext_in. intros post Hin.
    destruct (Hall post Hin) as (root & r & p & _ & _ & _ & Hend).
    unfold threadIdIn. rewrite Hend. simpl. unfold threadKey. simpl.
    split; congruence. }
  assert (∀ key, threadHash s' !! key =
                 match filter (λ post, threadIdIn (heap s') post = Some (Some key)) posts with
                 | [] => None
                 | thread => Some thread
                 end) as Hlookup.
  { intros key. rewrite Hth at 1. rewrite groupInto_lookup, Hfilter.
    by destruct (filter _ posts). }
  split.
  - intros key thread. rewrite Hlookup. destruct (filter _ posts); congruence.
  - intros post Hin.
    destruct (Hall post Hin) as (root & r & p & _ & _ & _ & Hend).
    set (key := threadIdOf r).
    assert (threadIdIn (heap s') post = Some (Some key)) as Hkey
      by (unfold threadIdIn; by rewrite Hend).
    destruct (filter (λ post, threadIdIn (heap s') post = Some (Some key)) posts)
      as [|newest rest] eqn:Hthread.
    { by destruct (filter_nil_not_elem_of _ _ post Hthread Hkey). }
    exists key, newest, rest.
    assert (threadHash s' !! key = Some (newest :: rest)) as Hentry
      by (by rewrite Hlookup, Hthread).
    split; [done|]. split; [done|]. split.
    { unfold getNewestPostInThread. rewrite Hend. simpl. fold key. by rewrite Hentry. }
    by apply filter_head_first in Hthread.
Qed.

(** ** The theorems at the example *)

(** C6 at a reply of user 100 to a request of their own. *)
Lemma poster_offered_Agree_and_Decline_example :
  userIsPoster exampleEnv (Some ownRequest) = false
  ∧ ∃ options,
      getStatusOptions exampleEnv indexedState true (Some ownRequest) None = Ok options
      ∧ "Agree" ∈ verbs options ∧ "Decline" ∈ verbs options
      ∧ ¬ optionsAsDocumented exampleEnv true (Some ownRequest) None (verbs options).
Proof.
  apply (poster_offered_Agree_and_Decline exampleEnv indexedState ownRequest None);
    reflexivity.
Defined.

Example getStatusOptions_reply_to_own_request :
  getStatusOptions exampleEnv indexedState true (Some ownRequest) None
  = Ok [("Discuss", "Discuss"); ("Agree", "Agree"); ("Decline", "Decline")].
Proof. reflexivity. Qed.

Example getStatusOptions_reply_to_request :
  getStatusOptions exampleEnv indexedState true (Some requestPost) None
  = Ok [("Discuss", "Discuss"); ("Agree", "Agree"); ("Decline", "Decline")].
Proof. reflexivity. Qed.

Example getStatusOptions_voter :
  getStatusOptions exampleEnv indexedState false None (Some "Wert")
  = Ok [("Request", "Request"); ("Discuss", "Discuss")].
Proof. reflexivity. Qed.

(** C7 at a closed thread, for its poster, who is also a member of the
    technical committee. *)
Lemma closed_thread_cannot_be_closed_example :
  threadIsClosed closedEnv indexedState (Some indexedPost5) = Ok true
  ∧ isPosterOf closedEnv indexedPost5
  ∧ userIsTC closedEnv = true
  ∧ userCanClose closedEnv indexedState true (Some indexedPost5) = Ok false
  ∧ ∀ myValue, ∃ options,
      getStatusOptions closedEnv indexedState true (Some indexedPost5) myValue = Ok options
      ∧ "Close" ∉ verbs options.
Proof.
  split; [reflexivity|]. split; [reflexivity|]. split; [reflexivity|].
  apply (closed_thread_cannot_be_closed closedEnv indexedState true (Some indexedPost5)).
  reflexivity.
Defined.

Example poster_not_offered_Close :
  isPosterOf exampleEnv indexedPost5
  ∧ getStatusOptions exampleEnv indexedState true (Some indexedPost5) None
    = Ok [("Discuss", "Discuss")].
Proof. split; reflexivity. Qed.

(** C3 at the example. *)
Lemma updateForumData_idempotent_example :
  ∃ s2,
    updateForumData 2 2000 examplePosts true indexedState = Ok s2
    ∧ postHash s2 = postHash indexedState
    ∧ threadHash s2 = threadHash indexedState
    ∧ heap s2 = heap indexedState
    ∧ s2 = setUpdateTime (Some 2000) indexedState.
Proof.
  apply (updateForumData_idempotent 2 1000 2000 examplePosts
           (mkState exampleHeap (Some "fr") None ∅ ∅) indexedState).
  vm_compute. reflexivity.
Defined.

(** C10 at the example. *)
Lemma threadHash_keeps_input_order_example :
  (∀ key thread, threadHash indexedState !! key = Some thread →
     thread = filter (λ post, threadIdIn (heap indexedState) post = Some (Some key))
                examplePosts)
  ∧ (∀ post, post ∈ examplePosts →
       ∃ key newest rest,
         threadIdIn (heap indexedState) post = Some (Some key)
         ∧ threadHash indexedState !! key = Some (newest :: rest)
         ∧ getNewestPostInThread indexedState post = Ok (Some newest)
         ∧ threadIdIn (heap indexedState) newest = Some (Some key)
         ∧ ∃ before after,
             examplePosts = before ++ newest :: after
             ∧ ∀ q, q ∈ before → threadIdIn (heap indexedState) q ≠ Some (Some key)).
Proof.
  apply (threadHash_keeps_input_order 2 1000 examplePosts
           (mkState exampleHeap (Some "fr") None ∅ ∅) indexedState).
  vm_compute. reflexivity.
Defined.

Example getNewestPostInThread_example :
  getNewestPostInThread indexedState 2%positive = Ok (Some 1%positive).
Proof. reflexivity. Qed.

(** ** The document *)

Lemma appendChild_Ok (parent child : node) (d d' : document) :
  appendChild parent child d = Ok d' →
  d' = attach parent child (detach child d).
Proof.
  unfold appendChild.
  destruct (isInclusiveAncestor _ _ _ _) as [[]|]; try done. by intros [= <-].
Qed.

(** A node without a parent accepts every other node as a child. *)
Lemma appendChild_root (parent child : node) (d : document) :
  parentNode d !! parent = None → child ≠ parent →
  appendChild parent child d = Ok (attach parent child (detach child d)).
Proof.
  intros Hroot Hne. unfold appendChild.
  destruct (nextNode d); simpl; by rewrite bool_decide_eq_false_2, Hroot.
Qed.

Lemma nextNode_detach child d : nextNode (detach child d) = nextNode d.
Proof. unfold detach. by destruct (parentNode d !! child). Qed.

Lemma replies_detach child d : replies (detach child d) = replies d.
Proof. unfold detach. by destruct (parentNode d !! child). Qed.

Lemma parentNode_detach child d :
  parentNode (detach child d) = delete child (parentNode d).
Proof.
  unfold detach. destruct (parentNode d !! child) eqn:Hc; [done|].
  simpl. by rewrite delete_id.
Qed.

Lemma children_detach child d n :
  children (detach child d) n
  = if decide (parentNode d !! child = Some n)
    then filter (λ c, c ≠ child) (children d n)
    else children d n.
Proof.
  unfold detach, children. destruct (parentNode d !! child) as [old|] eqn:Hc; simpl.
  - destruct (decide (old = n)) as [->|Hne].
    + rewrite decide_True by done. rewrite lookup_alter_eq.
      by destruct (childNodes d !! n).
    + rewrite decide_False by congruence. by rewrite lookup_alter_ne.
  - done.
Qed.

Lemma children_attach parent child d n :
  children (attach parent child d) n
  = if decide (n = parent) then children d parent ++ [child] else children d n.
Proof.
  unfold attach, children at 1. simpl. case_decide as Hn.
  - subst. by rewrite lookup_insert_eq.
  - by rewrite lookup_insert_ne.
Qed.

Section AppendChild.
Context (parent child : node) (d d' : document).
Context (Happend : appendChild parent child d = Ok d').

Lemma nextNode_appendChild : nextNode d' = nextNode d.
Proof using Happend.
  rewrite (appendChild_Ok _ _ _ _ Happend). simpl. apply nextNode_detach.
Qed.

Lemma replies_appendChild : replies d' = replies d.
Proof using Happend.
  rewrite (appendChild_Ok _ _ _ _ Happend). simpl. apply replies_detach.
Qed.

Lemma parentNode_appendChild : parentNode d' = <[child := parent]> (parentNode d).
Proof using Happend.
  rewrite (appendChild_Ok _ _ _ _ Happend). simpl.
  rewrite parentNode_detach. apply insert_delete_eq.
Qed.

Lemma parentNode_appendChild_other n :
  n ≠ child → parentNode d' !! n = parentNode d !! n.
Proof using Happend.
  intros Hne. rewrite parentNode_appendChild. by apply lookup_insert_ne.
Qed.

Lemma parentNode_appendChild_self : parentNode d' !! child = Some parent.
Proof using Happend. rewrite parentNode_appendChild. apply lookup_insert_eq. Qed.

(** The children of the new parent: what it had, without the child, and
    then the child. *)
Lemma children_appendChild_parent :
  children d' parent = filter (λ c, c ≠ child) (children d parent) ++ [child]
  ∨ children d' parent = children d parent ++ [child].
Proof using Happend.
  rewrite (appendChild_Ok _ _ _ _ Happend), children_attach, decide_True by done.
  rewrite children_detach. case_decide; [by left|by right].
Qed.

Lemma children_appendChild_fresh :
  child ∉ children d parent →
  children d' parent = children d parent ++ [child].
Proof using Happend.
  intros Hfresh. destruct children_appendChild_parent as [->| ->]; [|done].
  f_equal. induction (children d parent) as [|c l IH]; [done|].
  apply not_elem_of_cons in Hfresh as [Hne Hfresh].
  rewrite filter_cons, decide_True by done. by rewrite IH.
Qed.

Lemma children_appendChild_self : child ∈ children d' parent.
Proof using Happend.
  destruct children_appendChild_parent as [->| ->];
    apply elem_of_app; right; by left.
Qed.

(** The other nodes stay where they are. *)
Lemma children_appendChild_other n x :
  x ≠ child → x ∈ children d' n ↔ x ∈ children d n.
Proof using Happend.
  intros Hne. rewrite (appendChild_Ok _ _ _ _ Happend), children_attach.
  assert (x ∈ children (detach child d) n ↔ x ∈ children d n) as Hdetach.
  { rewrite children_detach. case_decide; [|done].
    rewrite list_elem_of_filter. split; [by intros [_ ?]|done]. }
  case_decide as Hn; [|done]. subst n.
  rewrite elem_of_app, list_elem_of_singleton, Hdetach.
  split; [by intros [?|?]|by left].
Qed.
End AppendChild.

(** ** The order of the assembled threads *)

Lemma assembleIds_elem_of (filteredArray threadIds : list string) (key : string) :
  key ∈ assembleIds filteredArray threadIds ↔ key ∈ filteredArray ∧ key ∈ threadIds.
Proof.
  revert filteredArray.
  induction threadIds as [|threadId rest IH]; intros filteredArray; simpl.
  - rewrite !elem_of_nil. tauto.
  - case_bool_decide as Hpass.
    + rewrite !elem_of_cons, IH, list_elem_of_filter.
      destruct (decide (key = threadId)) as [->|Hne]; tauto.
    + rewrite IH, elem_of_cons.
      split; [tauto|]. intros [Hin [->|Hrest]]; tauto.
Qed.

Lemma assembleIds_NoDup (filteredArray threadIds : list string) :
  NoDup (assembleIds filteredArray threadIds).
Proof.
  revert filteredArray.
  induction threadIds as [|threadId rest IH]; intros filteredArray; simpl.
  - constructor.
  - case_bool_decide; [|done]. constructor; [|done].
    rewrite assembleIds_elem_of, list_elem_of_filter. tauto.
Qed.

(** A thread comes before another one in the output only if its first post
    comes before every post of the other one. *)
Lemma assembleIds_order (filteredArray threadIds : list string)
    (front : list string) (key1 : string) (back : list string) (key2 : string) :
  assembleIds filteredArray threadIds = front ++ key1 :: back →
  key2 ∈ back →
  firstOccursBefore key1 key2 threadIds.
Proof.
  revert filteredArray front.
  induction threadIds as [|threadId rest IH]; intros filteredArray front; simpl.
  - by destruct front.
  - assert (∀ F front',
              assembleIds F rest = front' ++ key1 :: back →
              (∀ key, key ∈ assembleIds F rest → key ≠ threadId) →
              key2 ∈ back → firstOccursBefore key1 key2 (threadId :: rest)) as Hlater.
    { intros F front' Hout Hne Hin.
      destruct (IH F front' Hout Hin) as (before & after & -> & H1 & H2).
      exists (threadId :: before), after. split; [done|].
      rewrite !not_elem_of_cons. repeat split; try done.
      - apply Hne. rewrite Hout. apply elem_of_app. right. by left.
      - apply Hne. rewrite Hout. apply elem_of_app. right. by right. }
    case_bool_decide as Hpass.
    + destruct front as [|key front'].
      * intros [= <- _] _. exists [], rest. split; [done|]. split; apply not_elem_of_nil.
      * intros [= <- Hout]. apply (Hlater _ _ Hout).
        intros key. rewrite assembleIds_elem_of, list_elem_of_filter. tauto.
    + intros Hout. apply (Hlater _ _ Hout).
      intros key [Hin _]%assembleIds_elem_of ->. done.
Qed.

Lemma threadIdsOf_cons (h : gmap loc Post) (post : loc) (posts : list loc) :
  threadIdsOf h (post :: posts)
  = match h !! post ≫= post_threadId with
    | Some threadId => threadId :: threadIdsOf h posts
    | None => threadIdsOf h posts
    end.
Proof. done. Qed.

Section Assemble.
Context (h : gmap loc Post) (topicDivs : gmap string node).
Context (Hinjective : ∀ key1 key2 c,
           topicDivs !! key1 = Some c → topicDivs !! key2 = Some c → key1 = key2).

Lemma assembleThread_skip (post : loc) (a : assembly) (p : Post) :
  h !! post = Some p →
  (∀ threadId, post_threadId p = Some threadId → threadId ∉ filteredArray a) →
  assembleThread h topicDivs post a = Ok a.
Proof.
  intros Hp Hskip. unfold assembleThread. rewrite Hp.
  destruct (post_threadId p) as [threadId|]; [|done].
  by rewrite bool_decide_eq_false_2 by by apply Hskip.
Qed.

Lemma assembleThread_append (post : loc) (a : assembly) (p : Post)
    (threadId : string) (c : node) (d' : document) :
  h !! post = Some p → post_threadId p = Some threadId →
  threadId ∈ filteredArray a → topicDivs !! threadId = Some c →
  appendChild (forumDiv a) c (adom a) = Ok d' →
  assembleThread h topicDivs post a
  = Ok (mkAssembly (forumDiv a) (countEl a) (S (threadCount a))
          (filter (λ id, id ≠ threadId) (filteredArray a)) d').
Proof.
  intros Hp Hid Hpass Hc Happend. unfold assembleThread.
  rewrite Hp, Hid, bool_decide_eq_true_2, Hc, Happend by done. done.
Qed.

(** The loop of [filterAndAssembleForumThreads]: it returns, it appends the
    containers of the thread ids that [assembleIds] lists, in that order,
    and it moves no other node. *)
Lemma assembleThreads_run (posts : list loc) (a : assembly) :
  (∀ post, post ∈ posts → is_Some (h !! post)) →
  (∀ post p key, post ∈ posts → h !! post = Some p → post_threadId p = Some key →
     ∃ c, topicDivs !! key = Some c ∧ c ≠ forumDiv a) →
  parentNode (adom a) !! forumDiv a = None →
  (∀ key c, key ∈ filteredArray a → topicDivs !! key = Some c →
     c ∉ children (adom a) (forumDiv a)) →
  ∃ a' containers,
    forEach (assembleThread h topicDivs) posts a = Ok a'
    ∧ forumDiv a' = forumDiv a ∧ countEl a' = countEl a
    ∧ Forall2 (λ key c, topicDivs !! key = Some c)
        (assembleIds (filteredArray a) (threadIdsOf h posts)) containers
    ∧ children (adom a') (forumDiv a) = children (adom a) (forumDiv a) ++ containers
    ∧ threadCount a' = (threadCount a + length containers)%nat
    ∧ ∀ x, x ∉ containers →
        parentNode (adom a') !! x = parentNode (adom a) !! x
        ∧ ∀ n, x ∈ children (adom a') n ↔ x ∈ children (adom a) n.
Proof using Hinjective.
  revert a. induction posts as [|post posts IH]; intros a Hposts Hcontainers Hroot Hfresh.
  - exists a, []. simpl. rewrite app_nil_r.
    split; [done|]. split; [done|]. split; [done|]. split; [constructor|].
    split; [done|]. split; [lia|done].
  - destruct (Hposts post) as [p Hp]; [by left|].
    assert (∀ post, post ∈ posts → is_Some (h !! post)) as Hposts'
      by (intros q Hq; apply Hposts; by right).
    assert (∀ post p key, post ∈ posts → h !! post = Some p →
              post_threadId p = Some key →
              ∃ c, topicDivs !! key = Some c ∧ c ≠ forumDiv a) as Hcontainers'
      by (intros q pq key Hq; apply Hcontainers; by right).
    rewrite threadIdsOf_cons, Hp.
    change (forEach (assembleThread h topicDivs) (post :: posts) a)
      with (assembleThread h topicDivs post a ≫= forEach (assembleThread h topicDivs) posts).
    remember (assembleThread h topicDivs post a) as step eqn:Hstep.
    simpl. destruct (post_threadId p) as [threadId|] eqn:Hid; simpl;
      [case_bool_decide as Hpass|]; subst step.
    2: { rewrite (assembleThread_skip post a p Hp); [by apply IH|].
         intros t Ht. rewrite Hid in Ht. by injection Ht as <-. }
    2: { rewrite (assembleThread_skip post a p Hp); [by apply IH|].
         intros t Ht. by rewrite Hid in Ht. }
    destruct (Hcontainers post p threadId) as (c & Hc & Hne); [by left|done|done|].
    pose proof (appendChild_root (forumDiv a) c (adom a) Hroot Hne) as Happend.
    rewrite (assembleThread_append _ _ p threadId c _ Hp Hid Hpass Hc Happend). simpl.
    set (d' := attach (forumDiv a) c (detach c (adom a))) in *.
    set (a1 := mkAssembly (forumDiv a) (countEl a) (S (threadCount a))
                 (filter (λ id, id ≠ threadId) (filteredArray a)) d').
    destruct (IH a1) as (a' & containers & Hrun & Hf & Hcount & Hall & Hchildren & Hn & Hframe);
      try done.
    + simpl. rewrite (parentNode_appendChild_other _ _ _ _ Happend); [done|congruence].
    + simpl. intros key c' [Hkey Hin]%list_elem_of_filter Hc'.
      rewrite (children_appendChild_fresh _ _ _ _ Happend) by (by apply (Hfresh threadId c)).
      rewrite elem_of_app, list_elem_of_singleton.
      intros [Hold| ->]; [by eapply (Hfresh key c')|].
      apply Hkey. by eapply Hinjective.
    + subst a1. simpl in Hrun, Hf, Hcount, Hall, Hchildren, Hn, Hframe.
      exists a', (c :: containers). split; [done|]. split; [done|]. split; [done|].
      split; [by constructor|]. split.
      { rewrite Hchildren. simpl.
        rewrite (children_appendChild_fresh _ _ _ _ Happend) by (by apply (Hfresh threadId c)).
        by rewrite <- app_assoc. }
      split; [rewrite Hn; simpl; lia|].
      intros x [Hx Hrest]%not_elem_of_cons.
      destruct (Hframe x Hrest) as [Hparent Hkids]. split.
      * rewrite Hparent. simpl. by apply (parentNode_appendChild_other _ _ _ _ Happend).
      * intros n. rewrite Hkids. simpl.
        by apply (children_appendChild_other _ _ _ _ Happend).
Qed.
End Assemble.

(** ** The tables of parseContent *)

Lemma allocated_appendChild (parent child : node) (d d' : document) :
  appendChild parent child d = Ok d' →
  (parent < nextNode d)%nat → (child < nextNode d)%nat →
  allocated d → allocated d'.
Proof.
  intros Happend Hparent Hchild Halloc n Hn.
  rewrite (nextNode_appendChild _ _ _ _ Happend) in Hn.
  destruct (Halloc n Hn) as [Hp Hc]. split.
  - rewrite (parentNode_appendChild_other _ _ _ _ Happend); [done|lia].
  - rewrite (appendChild_Ok _ _ _ _ Happend). simpl.
    rewrite lookup_insert_ne by lia.
    unfold detach. destruct (parentNode d !! child) as [old|] eqn:Hold; [|done].
    simpl. destruct (decide (old = n)) as [->|Hne].
    + by rewrite lookup_alter_eq, Hc.
    + by rewrite lookup_alter_ne.
Qed.

Lemma tablesOk_empty : tablesOk (mkRender emptyDocument ∅ ∅).
Proof. by split. Qed.

Lemma createTopicDiv_inv (fuel : nat) (s : state) (opts : options)
    (post : loc) (r r' : render) :
  createTopicDiv fuel s opts post r = Ok r' →
  ∃ p, heap s !! post = Some p
       ∧ (r' = r ∧ is_Some (topicDivs r !! threadKey p)
          ∨ topicDivs r !! threadKey p = None
            ∧ r' = mkRender (createElement (rdom r)).2 (postDivs r)
                     (<[threadKey p := nextNode (rdom r)]> (topicDivs r))).
Proof.
  unfold createTopicDiv. destruct (heap s !! post) as [p|]; [|done].
  fold (threadKey p). intros Hstep. exists p. split; [done|].
  destruct (topicDivs r !! threadKey p) as [c|] eqn:Hkey.
  - injection Hstep as <-. left. split; [done|by exists c].
  - right. split; [done|]. simpl in Hstep.
    by apply bind_Ok in Hstep as (u & _ & [= <-]).
Qed.

Lemma createPostDiv_inv (env : host) (fuel : nat) (s : state) (opts : options)
    (post : loc) (r r' : render) :
  createPostDiv env fuel s opts post r = Ok r' →
  ∃ p, heap s !! post = Some p
       ∧ r' = mkRender (createElement (rdom r)).2
                (<[post_id p := nextNode (rdom r)]> (postDivs r)) (topicDivs r).
Proof.
  unfold createPostDiv. destruct (heap s !! post) as [p|]; [|done].
  simpl. intros (u & _ & [= <-])%bind_Ok. by exists p.
Qed.

Lemma createTopicDiv_ok (fuel : nat) (s : state) (opts : options)
    (post : loc) (r r' : render) :
  createTopicDiv fuel s opts post r = Ok r' → tablesOk r → tablesOk r'.
Proof.
  intros (p & _ & [[-> _]|[Hkey ->]])%createTopicDiv_inv; [done|].
  intros [Halloc Htopic Hpost Harea Htinj Hpinj Htp Hta Hpa Hroot].
  split; simpl.
  - intros n Hn. simpl in Hn. apply Halloc. lia.
  - intros key c [[_ <-]|[_ Hc]]%lookup_insert_Some; [lia|].
    specialize (Htopic _ _ Hc). lia.
  - intros id n Hn. specialize (Hpost _ _ Hn). lia.
  - intros n area Ha. specialize (Harea _ _ Ha). lia.
  - intros key1 key2 c [[<- <-]|[Hne1 Hc1]]%lookup_insert_Some
      [[<- Heq]|[Hne2 Hc2]]%lookup_insert_Some; try done.
    + specialize (Htopic _ _ Hc2). lia.
    + specialize (Htopic _ _ Hc1). lia.
    + by eapply Htinj.
  - done.
  - intros key c id n [[_ <-]|[_ Hc]]%lookup_insert_Some Hn; [|by eapply Htp].
    specialize (Hpost _ _ Hn). lia.
  - intros key c n area [[_ <-]|[_ Hc]]%lookup_insert_Some Ha; [|by eapply Hta].
    specialize (Harea _ _ Ha). lia.
  - done.
  - intros key c [[_ <-]|[_ Hc]]%lookup_insert_Some; [|by eapply Hroot].
    by apply Halloc.
Qed.

Lemma createPostDiv_ok (env : host) (fuel : nat) (s : state) (opts : options)
    (post : loc) (r r' : render) :
  createPostDiv env fuel s opts post r = Ok r' → tablesOk r → tablesOk r'.
Proof.
  intros (p & _ & ->)%createPostDiv_inv.
  intros [Halloc Htopic Hpost Harea Htinj Hpinj Htp Hta Hpa Hroot].
  split; simpl.
  - intros n Hn. simpl in Hn. apply Halloc. lia.
  - intros key c Hc. specialize (Htopic _ _ Hc). lia.
  - intros id n [[_ <-]|[_ Hn]]%lookup_insert_Some; [lia|].
    specialize (Hpost _ _ Hn). lia.
  - intros n area Ha. specialize (Harea _ _ Ha). lia.
  - done.
  - intros id1 id2 n [[<- <-]|[Hne1 Hn1]]%lookup_insert_Some
      [[<- Heq]|[Hne2 Hn2]]%lookup_insert_Some; try done.
    + specialize (Hpost _ _ Hn2). lia.
    + specialize (Hpost _ _ Hn1). lia.
    + by eapply Hpinj.
  - intros key c id n Hc [[_ <-]|[_ Hn]]%lookup_insert_Some; [|by eapply Htp].
    specialize (Htopic _ _ Hc). lia.
  - done.
  - intros id n m area [[_ <-]|[_ Hn]]%lookup_insert_Some Ha; [|by eapply Hpa].
    specialize (Harea _ _ Ha). lia.
  - done.
Qed.

Lemma samePlace_refl d x : samePlace d d x.
Proof. by split. Qed.

Lemma samePlace_trans d1 d2 d3 x :
  samePlace d1 d2 x → samePlace d2 d3 x → samePlace d1 d3 x.
Proof.
  intros [Hp1 Hc1] [Hp2 Hc2]. split; [congruence|].
  intros n. by rewrite Hc2.
Qed.

Lemma samePlace_appendChild parent child d d' x :
  appendChild parent child d = Ok d' → x ≠ child → samePlace d d' x.
Proof.
  intros Happend Hne. split.
  - by apply (parentNode_appendChild_other _ _ _ _ Happend).
  - intros n. by apply (children_appendChild_other _ _ _ _ Happend).
Qed.

Lemma tablesOk_appendChild (r : render) (parent child : node) (d' : document) :
  tablesOk r →
  appendChild parent child (rdom r) = Ok d' →
  (parent < nextNode (rdom r))%nat → (child < nextNode (rdom r))%nat →
  (∀ key c, topicDivs r !! key = Some c → c ≠ child) →
  tablesOk (setDom d' r).
Proof.
  intros [Halloc Htopic Hpost Harea Htinj Hpinj Htp Hta Hpa Hroot]
    Happend Hparent Hchild Hnotopic.
  pose proof (nextNode_appendChild _ _ _ _ Happend) as Hnext.
  pose proof (replies_appendChild _ _ _ _ Happend) as Hreplies.
  split; simpl; rewrite ?Hnext, ?Hreplies; try done.
  - by eapply allocated_appendChild.
  - intros key c Hc.
    rewrite (parentNode_appendChild_other _ _ _ _ Happend); [by eapply Hroot|].
    by eapply Hnotopic.
Qed.

(** A new [replies] area below the node of a post. *)
Lemma tablesOk_createArea (r : render) (parentDiv : node) :
  tablesOk r →
  tablesOk (setDom (setReplies parentDiv (nextNode (rdom r)) (createElement (rdom r)).2) r).
Proof.
  intros [Halloc Htopic Hpost Harea Htinj Hpinj Htp Hta Hpa Hroot].
  split; simpl; try done.
  - intros n Hn. simpl in Hn. apply Halloc. lia.
  - intros key c Hc. specialize (Htopic _ _ Hc). lia.
  - intros id n Hn. specialize (Hpost _ _ Hn). lia.
  - intros n area [[_ <-]|[_ Ha]]%lookup_insert_Some; [lia|].
    specialize (Harea _ _ Ha). lia.
  - intros key c n area Hc [[_ <-]|[_ Ha]]%lookup_insert_Some; [|by eapply Hta].
    specialize (Htopic _ _ Hc). lia.
  - intros id n m area Hn [[_ <-]|[_ Ha]]%lookup_insert_Some; [|by eapply Hpa].
    specialize (Hpost _ _ Hn). lia.
Qed.

(** One turn of the third loop keeps the tables, and moves nothing but the
    node of its post and, maybe, a [replies] area that it creates. *)
Lemma reparent_Ok (h : gmap loc Post) (post : loc) (r r' : render) :
  reparent h post r = Ok r' → tablesOk r →
  tablesOk r'
  ∧ postDivs r' = postDivs r ∧ topicDivs r' = topicDivs r
  ∧ (nextNode (rdom r) ≤ nextNode (rdom r'))%nat
  ∧ ∃ p postDiv,
      h !! post = Some p ∧ postDivs r !! post_id p = Some postDiv
      ∧ ∀ x, x ≠ postDiv → (x < nextNode (rdom r))%nat →
          samePlace (rdom r) (rdom r') x.
Proof.
  intros Hstep Hok. unfold reparent in Hstep.
  destruct (h !! post) as [p|] eqn:Hp; [|done].
  assert (∀ parent d',
            appendChildTo parent (postDivs r !! post_id p) (rdom r) = Ok d' →
            (∀ x, parent = Some x → (x < nextNode (rdom r))%nat) →
            tablesOk (setDom d' r)
            ∧ nextNode d' = nextNode (rdom r)
            ∧ ∃ postDiv, postDivs r !! post_id p = Some postDiv
                ∧ ∀ x, x ≠ postDiv → samePlace (rdom r) d' x) as Hmove.
  { intros [parent|] d'; [|done].
    destruct (postDivs r !! post_id p) as [postDiv|] eqn:Hdiv; [|done].
    simpl. intros Happend Hparent. split; [|split].
    - eapply tablesOk_appendChild; try done.
      + by apply Hparent.
      + by eapply ok_post_created.
      + intros key c Hc. by eapply ok_topic_post.
    - by eapply nextNode_appendChild.
    - exists postDiv. split; [done|]. intros x Hx.
      by eapply samePlace_appendChild. }
  assert (∀ d', appendChildTo (topicDivs r !! propKey (post_threadId p))
                  (postDivs r !! post_id p) (rdom r) ≫= (λ d, Ok (setDom d r)) = Ok d' →
                tablesOk d' ∧ postDivs d' = postDivs r ∧ topicDivs d' = topicDivs r
                ∧ (nextNode (rdom r) ≤ nextNode (rdom d'))%nat
                ∧ ∃ p0 postDiv, Some p = Some p0
                    ∧ postDivs r !! post_id p0 = Some postDiv
                    ∧ ∀ x, x ≠ postDiv → (x < nextNode (rdom r))%nat →
                        samePlace (rdom r) (rdom d') x) as Hthread.
  { intros r2 (d' & Happend & [= <-])%bind_Ok.
    destruct (Hmove _ _ Happend) as (Hok' & Hnext & postDiv & Hdiv & Hframe).
    { intros x Hx. by eapply ok_topic_created. }
    split; [done|]. split; [done|]. split; [done|]. simpl. split; [lia|].
    exists p, postDiv. split; [done|]. split; [done|]. intros x Hx _. by apply Hframe. }
  case_decide as Hreply; [|by apply Hthread].
  destruct (postDivs r !! post_parent p) as [parentDiv|] eqn:Hparent;
    [|by apply Hthread].
  clear Hthread.
  apply bind_Ok in Hstep as ([area d] & Harea & Hstep).
  apply bind_Ok in Hstep as (d3 & Happend & [= <-]).
  destruct (replies (rdom r) !! parentDiv) as [area'|] eqn:Hreplies.
  - injection Harea as <- <-.
    destruct (Hmove _ _ Happend) as (Hok' & Hnext & postDiv & Hdiv & Hframe).
    { intros x [= <-]. by eapply ok_area_created. }
    split; [done|]. split; [done|]. split; [done|]. simpl. split; [lia|].
    exists p, postDiv. split; [done|]. split; [done|]. intros x Hx _. by apply Hframe.
  - simpl in Harea.
    apply bind_Ok in Harea as (d2 & Hattach & [= <- <-]).
    set (r1 := setDom (setReplies parentDiv (nextNode (rdom r))
                         (createElement (rdom r)).2) r) in *.
    pose proof (tablesOk_createArea r parentDiv Hok) as Hok1.
    assert (tablesOk (setDom d2 r1)) as Hok2.
    { eapply tablesOk_appendChild; try done; simpl.
      - pose proof (ok_post_created r Hok _ _ Hparent). lia.
      - lia.
      - intros key c Hc. pose proof (ok_topic_created r Hok _ _ Hc). lia. }
    pose proof (nextNode_appendChild _ _ _ _ Hattach) as Hnext2. simpl in Hnext2.
    destruct (postDivs r !! post_id p) as [postDiv|] eqn:Hdiv; [|done].
    simpl in Happend.
    assert (tablesOk (setDom d3 (setDom d2 r1))) as Hok3.
    { eapply tablesOk_appendChild; try done; simpl; rewrite ?Hnext2.
      - lia.
      - pose proof (ok_post_created r Hok _ _ Hdiv). lia.
      - intros key c Hc. by eapply (ok_topic_post r Hok). }
    pose proof (nextNode_appendChild _ _ _ _ Happend) as Hnext3. simpl in Hnext3.
    split; [done|]. split; [done|]. split; [done|]. simpl. split; [lia|].
    exists p, postDiv. split; [done|]. split; [done|]. intros x Hx Hcreated.
    eapply samePlace_trans; [|by eapply samePlace_appendChild].
    eapply samePlace_trans; [|eapply samePlace_appendChild; [done|lia]].
    by split.
Qed.

(** What a turn of a loop establishes for its element, and what the later
    turns keep, holds at the end for every element of the list. *)
Lemma forEach_established {A S : Type} (body : A → S → result S)
    (F : A → S → Prop) (l : list A) (s s' : S) :
  (∀ x s1 s2, body x s1 = Ok s2 → F x s2) →
  (∀ x y s1 s2, body y s1 = Ok s2 → F x s1 → F x s2) →
  forEach body l s = Ok s' →
  ∀ x, x ∈ l → F x s'.
Proof.
  intros Hset Hkeep. revert s.
  induction l as [|y l IH]; intros s Hrun x Hin; [by apply elem_of_nil in Hin|].
  apply forEach_cons_Ok in Hrun as (s1 & Hstep & Hrest).
  apply elem_of_cons in Hin as [->|Hin]; [|by eapply IH].
  assert (F y s1) as Hy by (by eapply Hset).
  clear Hstep IH. revert s1 Hrest Hy.
  induction l as [|z l IH]; intros s1 Hrest Hy; [by injection Hrest as <-|].
  apply forEach_cons_Ok in Hrest as (s2 & Hstep & Hrest).
  apply (IH s2); [done|]. by eapply Hkeep.
Qed.

Lemma createTopicDivs_Ok (fuel : nat) (s : state) (opts : options)
    (posts : list loc) (r r' : render) :
  forEach (createTopicDiv fuel s opts) posts r = Ok r' → tablesOk r →
  tablesOk r'
  ∧ postDivs r' = postDivs r
  ∧ ∀ post, post ∈ posts →
      ∃ p, heap s !! post = Some p ∧ is_Some (topicDivs r' !! threadKey p).
Proof.
  intros Hrun Hok. split; [|split].
  - revert Hok Hrun. apply forEach_invariant. intros post r1 r2 _ Hok Hstep.
    by eapply createTopicDiv_ok.
  - revert Hrun. apply (forEach_invariant _ (λ r', postDivs r' = postDivs r)); [|done].
    intros post r1 r2 _ Hsame.
    by intros (p & _ & [[-> _]|[_ ->]])%createTopicDiv_inv.
  - revert Hrun.
    apply (forEach_established _
             (λ post r', ∃ p, heap s !! post = Some p
                              ∧ is_Some (topicDivs r' !! threadKey p))).
    + intros post r1 r2 (p & Hp & [[-> Hkey]|[_ ->]])%createTopicDiv_inv;
        exists p; (split; [done|]); [done|].
      simpl. by rewrite lookup_insert_eq.
    + intros post post' r1 r2 (p' & _ & [[-> _]|[Hkey ->]])%createTopicDiv_inv
        (p & Hp & [c Hc]); exists p; (split; [done|]); [by exists c|].
      simpl. destruct (decide (threadKey p' = threadKey p)) as [Heq|Hne].
      * rewrite Heq in Hkey. congruence.
      * rewrite lookup_insert_ne by done. by exists c.
Qed.

Lemma createPostDivs_Ok (env : host) (fuel : nat) (s : state) (opts : options)
    (posts : list loc) (r r' : render) :
  forEach (createPostDiv env fuel s opts) posts r = Ok r' → tablesOk r →
  tablesOk r'
  ∧ topicDivs r' = topicDivs r
  ∧ ∀ post, post ∈ posts →
      ∃ p, heap s !! post = Some p ∧ is_Some (postDivs r' !! post_id p).
Proof.
  intros Hrun Hok. split; [|split].
  - revert Hok Hrun. apply forEach_invariant. intros post r1 r2 _ Hok Hstep.
    by eapply createPostDiv_ok.
  - revert Hrun. apply (forEach_invariant _ (λ r', topicDivs r' = topicDivs r)); [|done].
    intros post r1 r2 _ Hsame. by intros (p & _ & ->)%createPostDiv_inv.
  - revert Hrun.
    apply (forEach_established _
             (λ post r', ∃ p, heap s !! post = Some p
                              ∧ is_Some (postDivs r' !! post_id p))).
    + intros post r1 r2 (p & Hp & ->)%createPostDiv_inv.
      exists p. split; [done|]. simpl. by rewrite lookup_insert_eq.
    + intros post post' r1 r2 (p' & _ & ->)%createPostDiv_inv (p & Hp & [n Hn]).
      exists p. split; [done|]. simpl.
      rewrite lookup_insert. case_decide; by eexists.
Qed.

(** The tables when the re-parenting starts: every post of the list is in
    the store, its thread has a container and its id has a node. *)
Lemma renderPosts_Ok (env : host) (fuel : nat) (now : Z) (posts : list loc)
    (context : string) (s s1 : state) (r1 : render) :
  renderPosts env fuel now posts context s = Ok (s1, r1) →
  updateForumData fuel now posts (fullSet (getOptionsForContext context)) s = Ok s1
  ∧ tablesOk r1
  ∧ ∀ post, post ∈ posts →
      ∃ p topicDiv postDiv,
        heap s1 !! post = Some p
        ∧ topicDivs r1 !! threadKey p = Some topicDiv
        ∧ postDivs r1 !! post_id p = Some postDiv.
Proof.
  unfold renderPosts. intros (s' & Hindex & Hrun)%bind_Ok.
  apply bind_Ok in Hrun as (r0 & Htopics & Hrun).
  apply bind_Ok in Hrun as (r & Hdivs & [= <- <-]).
  destruct (createTopicDivs_Ok _ _ _ _ _ _ Htopics tablesOk_empty)
    as (Hok0 & _ & Hcover0).
  destruct (createPostDivs_Ok _ _ _ _ _ _ _ Hdivs Hok0) as (Hok & Hsame & Hcover).
  split; [done|]. split; [done|]. intros post Hin.
  destruct (Hcover0 post Hin) as (p & Hp & [topicDiv Ht]).
  destruct (Hcover post Hin) as (p' & Hp' & [postDiv Hn]).
  rewrite Hp in Hp'. injection Hp' as <-.
  exists p, topicDiv, postDiv. by rewrite Hsame.
Qed.

Lemma reparent_loop_Ok (h : gmap loc Post) (posts : list loc) (r r' : render) :
  forEach (reparent h) posts r = Ok r' → tablesOk r →
  tablesOk r' ∧ postDivs r' = postDivs r ∧ topicDivs r' = topicDivs r
  ∧ (nextNode (rdom r) ≤ nextNode (rdom r'))%nat.
Proof.
  intros Hrun Hok. revert Hrun.
  apply (forEach_invariant _
           (λ r', tablesOk r' ∧ postDivs r' = postDivs r ∧ topicDivs r' = topicDivs r
                  ∧ (nextNode (rdom r) ≤ nextNode (rdom r'))%nat)); [|done].
  intros post r1 r2 _ (Hok1 & Hp & Ht & Hn) Hstep.
  destruct (reparent_Ok _ _ _ _ Hstep Hok1) as (Hok2 & Hp2 & Ht2 & Hn2 & _).
  split; [done|]. split; [congruence|]. split; [congruence|lia].
Qed.

(** The turn of a reply without a parent node, or of a top-level post: its
    node goes below the container of its thread. *)
Lemma reparent_to_thread (h : gmap loc Post) (post : loc) (r : render) (p : Post)
    (topicDiv postDiv : node) :
  tablesOk r → h !! post = Some p →
  post_parent p = -1 ∨ postDivs r !! post_parent p = None →
  topicDivs r !! threadKey p = Some topicDiv →
  postDivs r !! post_id p = Some postDiv →
  ∃ d', appendChild topicDiv postDiv (rdom r) = Ok d'
        ∧ reparent h post r = Ok (setDom d' r).
Proof.
  intros Hok Hp Horphan Htopic Hdiv.
  assert (appendChild topicDiv postDiv (rdom r)
          = Ok (attach topicDiv postDiv (detach postDiv (rdom r)))) as Happend.
  { apply appendChild_root; [by eapply ok_topic_root|].
    intros ->. by eapply (ok_topic_post r Hok). }
  eexists. split; [done|].
  unfold reparent. rewrite Hp. fold (threadKey p). rewrite Htopic, Hdiv.
  case_decide as Hreply.
  - destruct Horphan as [?|Hnone]; [done|]. rewrite Hnone. simpl.
    by rewrite Happend.
  - simpl. by rewrite Happend.
Qed.

(** [filterAndAssembleForumThreads] on the tables of [parseContent]: it
    returns a fragment whose children are the header, when there is one,
    and then the containers of the threads that [assembleIds] lists; every
    other node that was created before stays at its place. *)
Lemma filterAndAssembleForumThreads_Ok (env : host) (s : state) (posts : list loc)
    (r : render) (applyFilter showThreadCount : bool) :
  tablesOk r →
  (∀ post, post ∈ posts →
     ∃ p topicDiv, heap s !! post = Some p ∧ topicDivs r !! threadKey p = Some topicDiv) →
  ∃ a containers,
    filterAndAssembleForumThreads env s posts (topicDivs r)
      applyFilter showThreadCount (rdom r) = Ok a
    ∧ children (adom a) (forumDiv a) = option_list (countEl a) ++ containers
    ∧ Forall2 (λ key c, topicDivs r !! key = Some c)
        (assembleIds (getFilteredThreadIds env (heap s) (threadHash s) applyFilter)
           (threadIdsOf (heap s) posts))
        containers
    ∧ threadCount a = length containers
    ∧ (countEl a = None ↔ showThreadCount = false)
    ∧ ∀ x, (x < nextNode (rdom r))%nat → x ∉ containers →
        samePlace (rdom r) (adom a) x.
Proof.
  intros Hok Hcover.
  pose proof (ok_allocated r Hok) as Halloc.
  set (d0 := rdom r) in *. set (fragment := nextNode d0).
  destruct (Halloc fragment) as [Hroot Hkids]; [done|].
  assert (∀ post, post ∈ posts → is_Some (heap s !! post)) as Hposts.
  { intros post Hin. destruct (Hcover post Hin) as (p & _ & Hp & _). by exists p. }
  assert (∀ post p key, post ∈ posts → heap s !! post = Some p →
            post_threadId p = Some key →
            ∃ c, topicDivs r !! key = Some c ∧ c ≠ fragment) as Hcontainers.
  { intros post p key Hin Hp Hkey.
    destruct (Hcover post Hin) as (p' & c & Hp' & Hc).
    rewrite Hp in Hp'. injection Hp' as <-.
    unfold threadKey in Hc. rewrite Hkey in Hc. exists c. split; [done|].
    pose proof (ok_topic_created r Hok _ _ Hc). unfold fragment, d0. lia. }
  unfold filterAndAssembleForumThreads. fold d0.
  change (createElement d0) with (fragment, mkDocument (parentNode d0) (childNodes d0)
                                    (replies d0) (S fragment)).
  cbv beta iota.
  set (d1 := mkDocument (parentNode d0) (childNodes d0) (replies d0) (S fragment)).
  destruct showThreadCount.
  - change (createElement d1) with (S fragment, mkDocument (parentNode d0) (childNodes d0)
                                      (replies d0) (S (S fragment))).
    cbv beta iota.
    set (d2 := mkDocument (parentNode d0) (childNodes d0) (replies d0) (S (S fragment))).
    assert (appendChild fragment (S fragment) d2
            = Ok (attach fragment (S fragment) (detach (S fragment) d2))) as Hheader
      by (apply appendChild_root; [done|lia]).
    rewrite Hheader. simpl.
    set (d3 := attach fragment (S fragment) (detach (S fragment) d2)) in *.
    assert (children d2 fragment = []) as Hkids2
      by (unfold children; change (childNodes d2) with (childNodes d0); by rewrite Hkids).
    assert (children d3 fragment = [S fragment]) as Hkids3.
    { rewrite (children_appendChild_fresh _ _ _ _ Hheader); rewrite Hkids2;
        [done|apply not_elem_of_nil]. }
    destruct (assembleThreads_run (heap s) (topicDivs r) (ok_topic_injective r Hok) posts
                (mkAssembly fragment (Some (S fragment)) O
                   (getFilteredThreadIds env (heap s) (threadHash s) applyFilter) d3))
      as (a & containers & Hrun & Hf & Hcount & Hall & Hchildren & Hn & Hframe);
      try done.
    + simpl. rewrite (parentNode_appendChild_other _ _ _ _ Hheader); [done|lia].
    + simpl. intros key c _ Hc. rewrite Hkids3, list_elem_of_singleton.
      pose proof (ok_topic_created r Hok _ _ Hc). unfold fragment, d0. lia.
    + simpl in Hf, Hcount, Hchildren, Hn, Hframe.
      exists a, containers. split; [done|]. rewrite Hf, Hcount.
      split; [by rewrite Hchildren, Hkids3|]. split; [done|]. split; [done|].
      split; [done|]. intros x Hx Hout.
      apply (samePlace_trans _ d3); [|by destruct (Hframe x Hout)].
      apply (samePlace_trans _ d2); [by split|].
      eapply samePlace_appendChild; [done|]. unfold fragment in *. lia.
  - simpl.
    destruct (assembleThreads_run (heap s) (topicDivs r) (ok_topic_injective r Hok) posts
                (mkAssembly fragment None O
                   (getFilteredThreadIds env (heap s) (threadHash s) applyFilter) d1))
      as (a & containers & Hrun & Hf & Hcount & Hall & Hchildren & Hn & Hframe);
      try done.
    + simpl. intros key c _ Hc. unfold children.
      change (childNodes d1) with (childNodes d0). rewrite Hkids. apply not_elem_of_nil.
    + simpl in Hf, Hcount, Hchildren, Hn, Hframe.
      exists a, containers. split; [done|]. rewrite Hf, Hcount.
      split; [rewrite Hchildren; unfold children;
              change (childNodes d1) with (childNodes d0); by rewrite Hkids|].
      split; [done|]. split; [done|]. split; [done|]. intros x Hx Hout.
      apply (samePlace_trans _ d1); [by split|by destruct (Hframe x Hout)].
Qed.

(** Once the node of a post is below the container of its thread, it stays
    there through the rest of the third loop, as long as no other post of
    the list has the same id. *)
Lemma reparent_loop_keeps (h : gmap loc Post) (posts : list loc) (r r' : render)
    (post : loc) (p : Post) (topicDiv postDiv : node) :
  forEach (reparent h) posts r = Ok r' → tablesOk r →
  h !! post = Some p →
  post_parent p ≠ -1 → postDivs r !! post_parent p = None →
  topicDivs r !! threadKey p = Some topicDiv →
  postDivs r !! post_id p = Some postDiv →
  (∀ q pq, q ∈ posts → h !! q = Some pq → post_id pq = post_id p → q = post) →
  post ∈ posts
  ∨ (parentNode (rdom r) !! postDiv = Some topicDiv ∧ postDiv ∈ children (rdom r) topicDiv) →
  parentNode (rdom r') !! postDiv = Some topicDiv
  ∧ postDiv ∈ children (rdom r') topicDiv.
Proof.
  revert r. induction posts as [|q posts IH];
    intros r Hrun Hok Hp Hreply Hparent Htopic Hdiv Hunique Hstart.
  - injection Hrun as <-. destruct Hstart as [Hin|?]; [|done].
    by apply elem_of_nil in Hin.
  - apply forEach_cons_Ok in Hrun as (r1 & Hstep & Hrest).
    destruct (reparent_Ok _ _ _ _ Hstep Hok)
      as (Hok1 & Hposts1 & Htopics1 & Hnext & pq & qDiv & Hq & HqDiv & Hframe).
    assert (∀ q' pq', q' ∈ posts → h !! q' = Some pq' →
              post_id pq' = post_id p → q' = post) as Hunique'
      by (intros q' pq' Hin; apply Hunique; by right).
    destruct (decide (q = post)) as [->|Hne].
    + destruct (reparent_to_thread _ _ _ _ _ _ Hok Hp (or_intror Hparent) Htopic Hdiv)
        as (d' & Happend & Hstep').
      rewrite Hstep' in Hstep. injection Hstep as <-.
      apply (IH (setDom d' r)); try done. right. simpl. split.
      * by apply (parentNode_appendChild_self _ _ _ _ Happend).
      * by apply (children_appendChild_self _ _ _ _ Happend).
    + apply (IH r1); try done; try congruence.
      destruct Hstart as [Hin|[Hparent0 Hchild0]].
      * apply elem_of_cons in Hin as [?|Hin]; [done|by left].
      * right. destruct (Hframe postDiv) as [Hsame Hkids].
        -- intros ->. apply Hne. apply (Hunique q pq); [by left|done|].
           by eapply (ok_post_injective r Hok).
        -- by eapply ok_post_created.
        -- split; [congruence|]. by apply Hkids.
Qed.

Lemma updateThreadHash_heap (posts : list loc) (s s' : state) :
  updateThreadHash posts s = Ok s' → heap s' = heap s.
Proof.
  apply (forEach_invariant _ (λ s', heap s' = heap s)); [|done].
  intros post s1 s2 _ Hheap. destruct (heap s1 !! post) as [p|]; [|done].
  by intros [= <-].
Qed.

(** After indexing, full set or not, every post of the list has a thread
    id. *)
Lemma updateForumData_threadIds (fuel : nat) (now : Z) (posts : list loc)
    (fullSet : bool) (s s' : state) :
  updateForumData fuel now posts fullSet s = Ok s' →
  ∀ post, post ∈ posts →
    ∃ p key, heap s' !! post = Some p ∧ post_threadId p = Some key.
Proof.
  unfold updateForumData. intros (s1 & _ & Hrun)%bind_Ok post Hin.
  apply bind_Ok in Hrun as (s2 & Hids & Hrun).
  apply bind_Ok in Hrun as (s3 & Hthreads & [= <-]).
  destruct (addThreadIds_Ok _ _ _ _ Hids) as (_ & _ & _ & _ & _ & Hall & _).
  destruct (Hall post Hin) as (root & r & p & _ & _ & _ & Hend).
  simpl. rewrite (updateThreadHash_heap _ _ _ Hthreads), Hend. by eexists _, _.
Qed.

Lemma Forall2_NoDup {A B : Type} (R : A → B → Prop) (l : list A) (k : list B) :
  (∀ x y z, R x z → R y z → x = y) →
  Forall2 R l k → NoDup l → NoDup k.
Proof.
  intros Hinj. induction 1 as [|x y l k Hxy Hall IH]; [constructor|].
  intros [Hx Hl]%NoDup_cons. constructor; [|by apply IH].
  intros Hy. apply Hx. clear IH Hl Hx.
  induction Hall as [|x' y' l k Hxy' _ IH]; [by apply elem_of_nil in Hy|].
  apply elem_of_cons in Hy as [->|Hy]; [|right; by apply IH].
  rewrite (Hinj _ _ _ Hxy Hxy'). by left.
Qed.

Lemma Forall2_elem_of_l {A B : Type} (R : A → B → Prop) (l : list A) (k : list B) x :
  Forall2 R l k → x ∈ l → ∃ y, y ∈ k ∧ R x y.
Proof.
  induction 1 as [|x' y' l k Hxy _ IH]; intros Hin; [by apply elem_of_nil in Hin|].
  apply elem_of_cons in Hin as [->|Hin].
  - exists y'. split; [by left|done].
  - destruct (IH Hin) as (y & Hy & HR). exists y. split; [by right|done].
Qed.

Lemma Forall2_elem_of_r {A B : Type} (R : A → B → Prop) (l : list A) (k : list B) y :
  Forall2 R l k → y ∈ k → ∃ x, x ∈ l ∧ R x y.
Proof.
  induction 1 as [|x' y' l k Hxy _ IH]; intros Hin; [by apply elem_of_nil in Hin|].
  apply elem_of_cons in Hin as [->|Hin].
  - exists x'. split; [by left|done].
  - destruct (IH Hin) as (x & Hx & HR). exists x. split; [by right|done].
Qed.

Lemma parseContent_Ok (env : host) (fuel : nat) (now : Z) (posts : list loc)
    (context : string) (s s' : state) (r : render) (a : assembly) :
  parseContent env fuel now posts context s = Ok (s', r, a) ↔
  ∃ r1,
    renderPosts env fuel now posts context s = Ok (s', r1)
    ∧ forEach (reparent (heap s')) posts r1 = Ok r
    ∧ filterAndAssembleForumThreads env s' posts (topicDivs r)
        (applyFilter (getOptionsForContext context))
        (showThreadCount (getOptionsForContext context)) (rdom r) = Ok a.
Proof.
  unfold parseContent. split.
  - intros ([s1 r1] & Hrender & Hrun)%bind_Ok.
    apply bind_Ok in Hrun as (r2 & Hloop & Hrun).
    apply bind_Ok in Hrun as (a' & Hassemble & [= <- <- <-]).
    by exists r1.
  - intros (r1 & -> & Hloop & Hassemble). simpl. rewrite Hloop. simpl.
    by rewrite Hassemble.
Qed.

(** C5: when [parseContent] has re-parented the post nodes, the assembly
    returns; the children of the returned fragment are the header, when
    the number of threads is shown, and then containers of threads; each
    thread that passes the filter and has a post in the list has its
    container there exactly once; and a container comes before another one
    only if the first post of its thread comes, in the list, before every
    post of the other thread. *)
Theorem assembled_threads_newest_first (env : host) (fuel : nat) (now : Z)
    (context : string) (posts : list loc) (s s1 : state) (r1 r : render) :
  renderPosts env fuel now posts context s = Ok (s1, r1) →
  forEach (reparent (heap s1)) posts r1 = Ok r →
  let filtered :=
    getFilteredThreadIds env (heap s1) (threadHash s1)
      (applyFilter (getOptionsForContext context)) in
  let threadIds := threadIdsOf (heap s1) posts in
  ∃ a keys containers,
    parseContent env fuel now posts context s = Ok (s1, r, a)
    ∧ children (adom a) (forumDiv a) = option_list (countEl a) ++ containers
    ∧ Forall2 (λ key c, topicDivs r !! key = Some c) keys containers
    ∧ NoDup keys ∧ NoDup containers
    ∧ (∀ key, key ∈ keys ↔ key ∈ filtered ∧ key ∈ threadIds)
    ∧ (∀ front key1 back key2,
         keys = front ++ key1 :: back → key2 ∈ back →
         firstOccursBefore key1 key2 threadIds)
    ∧ threadCount a = length keys.
Proof.
  intros Hrender Hloop filtered threadIds.
  destruct (renderPosts_Ok _ _ _ _ _ _ _ _ Hrender) as (Hindex & Hok1 & Hcover).
  destruct (reparent_loop_Ok _ _ _ _ Hloop Hok1) as (Hok & Hposts & Htopics & Hnext).
  destruct (filterAndAssembleForumThreads_Ok env s1 posts r
              (applyFilter (getOptionsForContext context))
              (showThreadCount (getOptionsForContext context)) Hok)
    as (a & containers & Hassemble & Hchildren & Hall & Hcount & _ & _).
  { intros q Hq. destruct (Hcover q Hq) as (pq & c & _ & Hpq & Hc & _).
    exists pq, c. split; [done|congruence]. }
  exists a, (assembleIds filtered threadIds), containers.
  split; [apply parseContent_Ok; by exists r1|].
  split; [done|]. split; [done|].
  split; [apply assembleIds_NoDup|]. split.
  { eapply Forall2_NoDup; [|done|apply assembleIds_NoDup].
    intros key1 key2 c. apply (ok_topic_injective r Hok). }
  split; [apply assembleIds_elem_of|].
  split; [intros front key1 back key2; apply assembleIds_order|].
  rewrite Hcount. symmetry. by eapply Forall2_length.
Qed.

Example parseContent_orphan :
  ∃ s r a,
    parseContent exampleEnv 2 0 orphanPosts "main" (initialState orphanHeap) = Ok (s, r, a)
    ∧ map_to_list (topicDivs r) = [("fr|7", 1%nat); ("fr|9", 0%nat)]
    ∧ postDivs r !! 9 = Some 2%nat
    ∧ postDivs r !! 7 = Some 3%nat
    ∧ children (adom a) 0%nat = [2%nat]
    ∧ children (adom a) 1%nat = [3%nat]
    ∧ children (adom a) (forumDiv a) = [5%nat; 0%nat; 1%nat]
    ∧ countEl a = Some 5%nat
    ∧ countText a = "2 threads".
Proof. eexists _, _, _. split; [vm_compute; reflexivity|]. by vm_compute. Qed.

(** C5 at three posts of two threads. *)
Lemma assembled_threads_newest_first_example :
  ∃ s1 r1 r a keys containers,
    renderPosts exampleEnv 2 0 threadsPosts "main" (initialState threadsHeap) = Ok (s1, r1)
    ∧ forEach (reparent (heap s1)) threadsPosts r1 = Ok r
    ∧ threadIdsOf (heap s1) threadsPosts = ["fr|5"; "fr|7"; "fr|5"]
    ∧ parseContent exampleEnv 2 0 threadsPosts "main" (initialState threadsHeap)
      = Ok (s1, r, a)
    ∧ children (adom a) (forumDiv a) = option_list (countEl a) ++ containers
    ∧ Forall2 (λ key c, topicDivs r !! key = Some c) keys containers
    ∧ NoDup keys ∧ NoDup containers
    ∧ (∀ key, key ∈ keys ↔
         key ∈ getFilteredThreadIds exampleEnv (heap s1) (threadHash s1) true
         ∧ key ∈ threadIdsOf (heap s1) threadsPosts)
    ∧ (∀ front key1 back key2,
         keys = front ++ key1 :: back → key2 ∈ back →
         firstOccursBefore key1 key2 (threadIdsOf (heap s1) threadsPosts))
    ∧ threadCount a = length keys.
Proof.
  eexists _, _, _.
  assert (renderPosts exampleEnv 2 0 threadsPosts "main" (initialState threadsHeap) = Ok (_, _))
    as Hrender by (vm_compute; reflexivity).
  lazymatch type of Hrender with
  | _ = Ok (?s1, ?r1) =>
      assert (forEach (reparent (heap s1)) threadsPosts r1 = Ok _)
        as Hloop by (vm_compute; reflexivity)
  end.
  destruct (assembled_threads_newest_first exampleEnv 2 0 "main" threadsPosts
              (initialState threadsHeap) _ _ _ Hrender Hloop)
    as (a & keys & containers & Hrun & Hrest).
  exists a, keys, containers. split; [exact Hrender|]. split; [exact Hloop|].
  split; [vm_compute; reflexivity|]. split; [exact Hrun|]. exact Hrest.
Defined.

Example parseContent_threads :
  ∃ s r a,
    parseContent exampleEnv 2 0 threadsPosts "main" (initialState threadsHeap) = Ok (s, r, a)
    ∧ topicDivs r !! "fr|5" = Some 0%nat
    ∧ topicDivs r !! "fr|7" = Some 1%nat
    ∧ children (adom a) (forumDiv a) = [7%nat; 0%nat; 1%nat]
    ∧ threadCount a = 2%nat.
Proof. eexists _, _, _. split; [vm_compute; reflexivity|]. by vm_compute. Qed.

(** ** More on the walk *)

Lemma parentLink_deterministic (h : gmap loc Post) (ph : gmap Z loc) (x y z : loc) :
  parentLink h ph x y → parentLink h ph x z → y = z.
Proof. intros (p & Hp & _ & Hy) (p' & Hp' & _ & Hz). congruence. Qed.

(** A post from which a cycle of parent links can be reached has a parent
    from which the cycle can be reached. *)
Lemma cycle_step (h : gmap loc Post) (ph : gmap Z loc) (post : loc) :
  (∃ q, rtc (parentLink h ph) post q ∧ tc (parentLink h ph) q q) →
  ∃ parentPost,
    parentLink h ph post parentPost
    ∧ ∃ q, rtc (parentLink h ph) parentPost q ∧ tc (parentLink h ph) q q.
Proof.
  intros (q & Hreach & Hcycle).
  apply rtc_inv in Hreach as [<-|(y & Hy & Hreach)].
  - inversion Hcycle as [? ? Hy|? y ? Hy Hrest]; subst.
    + exists post. split; [done|]. by exists post.
    + exists y. split; [done|]. exists post. split; [by apply tc_rtc|done].
  - exists y. split; [done|]. by exists q.
Qed.

Lemma getOldestPostInThread_diverges (s : state) (post : loc) (fuel : nat) :
  (∃ q, rtc (parentLink (heap s) (postHash s)) post q
        ∧ tc (parentLink (heap s) (postHash s)) q q) →
  getOldestPostInThread fuel s post = OutOfFuel.
Proof.
  revert post. induction fuel as [|fuel IH]; intros post Hcycle;
    destruct (cycle_step _ _ _ Hcycle) as (parentPost & (p & Hp & Hge & Hparent) & Hnext);
    rewrite getOldestPostInThread_unfold, Hp, bool_decide_eq_true_2, Hparent by done;
    [done|by apply IH].
Qed.

(** X1: when a cycle of parent links can be reached from a post, the loop
    of [getOldestPostInThread] never ends: whatever the number of turns it
    is given, it has not returned. *)
Theorem getOldestPostInThread_cycle (s : state) (post q : loc) :
  rtc (parentLink (heap s) (postHash s)) post q →
  tc (parentLink (heap s) (postHash s)) q q →
  ∀ fuel, getOldestPostInThread fuel s post = OutOfFuel.
Proof. intros Hreach Hcycle fuel. apply getOldestPostInThread_diverges. by exists q. Qed.

(** X2: a list in which a cycle of parent links can be reached from one of
    its posts cannot be indexed: [updateForumData] does not return. *)
Theorem updateForumData_cycle (s : state) (now : Z) (posts : list loc) (post q : loc) :
  post ∈ posts →
  rtc (parentLink (heap s) (indexOf (heap s) posts)) post q →
  tc (parentLink (heap s) (indexOf (heap s) posts)) q q →
  ∀ fuel s', updateForumData fuel now posts true s ≠ Ok s'.
Proof.
  intros Hin Hreach Hcycle fuel s' Hrun.
  destruct (updateForumData_full_Ok _ _ _ _ _ Hrun) as (_ & _ & _ & _ & _ & Hall & _).
  destruct (Hall post Hin) as (root & _ & _ & Hwalk & _).
  rewrite withIndex_walk, getOldestPostInThread_diverges in Hwalk; [done|].
  by exists q.
Qed.

(** The post that the walk returns is a post of the store at which the
    parent links end. *)
Lemma rootAncestor_ends (h : gmap loc Post) (ph : gmap Z loc) (post root : loc) :
  rootAncestor h ph post root →
  ∃ r, h !! root = Some r ∧ (post_parent r < 0 ∨ ph !! post_parent r = None).
Proof. induction 1 as [post p Hp Hend|]; [by exists p|done]. Qed.

(** X3: the post that [getOldestPostInThread] returns has no parent in the
    index (its parent is negative or not indexed), and it is its own oldest
    post: the walk from it returns it at once. *)
Theorem getOldestPostInThread_fixpoint (fuel : nat) (s : state) (post root : loc) :
  getOldestPostInThread fuel s post = Ok root →
  (∃ r, heap s !! root = Some r
        ∧ (post_parent r < 0 ∨ postHash s !! post_parent r = None))
  ∧ ∀ fuel', getOldestPostInThread fuel' s root = Ok root.
Proof.
  intros Hwalk%getOldestPostInThread_sound.
  destruct (rootAncestor_ends _ _ _ _ Hwalk) as (r & Hr & Hend).
  split; [by exists r|]. intros fuel'.
  rewrite getOldestPostInThread_unfold, Hr.
  case_bool_decide as Hge; [|done].
  destruct Hend as [Hneg|Hnone]; [lia|by rewrite Hnone].
Qed.

(** ** More on the post index *)

Lemma indexInto_lookup (h : gmap loc Post) (ph : gmap Z loc) (posts : list loc) (id : Z) :
  indexInto h ph posts !! id
  = match last (postsWithId h id posts) with
    | Some post => Some post
    | None => ph !! id
    end.
Proof.
  revert ph. induction posts as [|post posts IH]; intros ph; [done|].
  rewrite indexInto_cons, IH. unfold postsWithId. rewrite filter_cons.
  destruct (h !! post) as [p|] eqn:Hp.
  - case_decide as Hid; [injection Hid as <-|].
    + rewrite last_cons.
      destruct (last _); [done|]. by rewrite lookup_insert_eq.
    + destruct (last _); [done|]. rewrite lookup_insert_ne; [done|].
      intros Heq. apply Hid. simpl. by rewrite Heq.
  - by rewrite decide_False by done.
Qed.

Lemma postsWithId_shape (h h' : gmap loc Post) (id : Z) (posts : list loc) :
  sameShape h h' → postsWithId h id posts = postsWithId h' id posts.
Proof.
  intros Hshape. apply filter_ext_in. intros post _.
  destruct (h !! post) as [p|] eqn:Hp.
  - destruct (sameShape_lookup _ _ _ _ Hshape Hp) as (p' & -> & Herase).
    apply eraseThreadId_fields in Herase as (Hid & _). simpl. by rewrite Hid.
  - specialize (Hshape post). rewrite Hp in Hshape.
    by destruct (h' !! post).
Qed.

Lemma last_elem_of {A : Type} (l : list A) (x : A) : last l = Some x → x ∈ l.
Proof.
  intros Hlast. apply last_Some in Hlast as [l' ->].
  apply elem_of_app. right. by left.
Qed.

Lemma indexOf_lookup_posts (h : gmap loc Post) (posts : list loc) (id : Z) (post : loc) :
  indexOf h posts !! id = Some post →
  post ∈ posts ∧ ∃ p, h !! post = Some p ∧ post_id p = id.
Proof.
  unfold indexOf. rewrite indexInto_lookup, lookup_empty.
  destruct (last _) as [l|] eqn:Hlast; [|done]. intros [= ->].
  apply last_elem_of, list_elem_of_filter in Hlast as [Hid Hin].
  split; [done|]. destruct (h !! post) as [p|]; [|done].
  exists p. split; [done|]. by injection Hid.
Qed.

(** X4: after a full set was indexed, [postHash] holds under each id the
    last post of the list that has this id, and nothing under an id that
    no post of the list has: of two posts with one id, the later one
    wins. *)
Theorem postHash_last_wins (fuel : nat) (now : Z) (posts : list loc)
    (s s' : state) (id : Z) :
  updateForumData fuel now posts true s = Ok s' →
  postHash s' !! id = last (postsWithId (heap s') id posts).
Proof.
  intros Hrun.
  destruct (updateForumData_full_Ok _ _ _ _ _ Hrun) as (_ & _ & -> & _ & Hshape & _).
  unfold indexOf. rewrite indexInto_lookup, lookup_empty.
  rewrite (postsWithId_shape _ _ _ _ Hshape). by destruct (last _).
Qed.

(** ** The root ancestor as documented *)

(** When the index holds no post under a negative id, the parent links end
    at a post with parent -1, or with a parent absent from the index,
    exactly where the walk of [getOldestPostInThread] ends. *)
Lemma rootAsDocumented_iff (h : gmap loc Post) (ph : gmap Z loc) (post root : loc) :
  (∀ k l, ph !! k = Some l → 0 ≤ k) →
  rootAsDocumented h ph post root ↔ rootAncestor h ph post root.
Proof.
  intros Hkeys. split.
  - induction 1 as [post p Hp Hend|post p parentPost root Hp Hne Hparent _ IH].
    + eapply root_here; [done|]. destruct Hend as [->|Hnone]; [left; lia|by right].
    + eapply root_up; [done| |done|done]. by eapply Hkeys.
  - induction 1 as [post p Hp Hend|post p parentPost root Hp Hge Hparent _ IH].
    + eapply documented_root_here; [done|].
      destruct Hend as [Hneg|Hnone]; [|by right].
      right. destruct (ph !! post_parent p) as [l|] eqn:Hl; [|done].
      pose proof (Hkeys _ _ Hl). lia.
    + eapply documented_root_up; [done|lia|done|done].
Qed.

(** The index of a list of posts with non-negative ids holds no post under
    a negative id. *)
Lemma indexOf_keys (h : gmap loc Post) (posts : list loc) :
  (∀ post p, post ∈ posts → h !! post = Some p → 0 ≤ post_id p) →
  ∀ k l, indexOf h posts !! k = Some l → 0 ≤ k.
Proof.
  intros Hids k l Hk.
  destruct (indexOf_lookup_posts _ _ _ _ Hk) as (Hin & p & Hp & <-).
  by eapply Hids.
Qed.

(** C1: when the posts of a list have no negative ids and every post of
    the list has a root ancestor (the post that is reached by following
    the parent links through the index up to a post with parent -1, or
    with a parent absent from the index), indexing the list as a full set
    returns, and the thread id of every post is the locale of its root
    ancestor, then "|", then the id of its root ancestor. *)
Theorem threadId_of_documented_root (s : state) (now : Z) (posts : list loc) :
  (∀ post p, post ∈ posts → heap s !! post = Some p → 0 ≤ post_id p) →
  (∀ post, post ∈ posts →
     ∃ root, rootAsDocumented (heap s) (indexOf (heap s) posts) post root) →
  ∃ s',
    updateForumData (length posts) now posts true s = Ok s'
    ∧ postHash s' = indexOf (heap s) posts
    ∧ ∀ post root r,
        post ∈ posts →
        rootAsDocumented (heap s) (indexOf (heap s) posts) post root →
        heap s !! root = Some r →
        threadIdIn (heap s') post
        = Some (Some (post_locale r +:+ "|" +:+ pretty (post_id r))).
Proof.
  intros Hids Hroots.
  pose proof (indexOf_keys _ _ Hids) as Hkeys.
  destruct (threadId_of_root_ancestor s now posts) as (s' & Hrun & Hph & Hall).
  { intros post Hin. destruct (Hroots post Hin) as [root Hroot].
    exists root. by apply rootAsDocumented_iff. }
  exists s'. split; [done|]. split; [done|].
  intros post root r Hin Hroot Hr. apply (Hall post root r Hin); [|done].
  by apply rootAsDocumented_iff.
Qed.

(** C1 on the two posts of the example: both get the thread id "fr|5". *)
Lemma threadId_of_documented_root_example :
  ∃ s',
    updateForumData 2 0 examplePosts true (initialState exampleHeap) = Ok s'
    ∧ threadIdIn (heap s') 1%positive = Some (Some "fr|5")
    ∧ threadIdIn (heap s') 2%positive = Some (Some "fr|5").
Proof.
  assert (rootAsDocumented exampleHeap (indexOf exampleHeap examplePosts)
            1%positive 1%positive) as Hroot5
    by (eapply documented_root_here; [by vm_compute|by left]).
  assert (rootAsDocumented exampleHeap (indexOf exampleHeap examplePosts)
            2%positive 1%positive) as Hroot9
    by (eapply documented_root_up; [by vm_compute|by vm_compute|by vm_compute|done]).
  destruct (threadId_of_documented_root (initialState exampleHeap) 0 examplePosts)
    as (s' & Hrun & _ & Hall).
  - intros post p Hin. apply elem_of_cons in Hin as [->|Hin];
      [|apply list_elem_of_singleton in Hin as ->]; vm_compute; by intros [= <-].
  - intros post Hin. exists 1%positive. apply elem_of_cons in Hin as [->|Hin];
      [|apply list_elem_of_singleton in Hin as ->]; done.
  - exists s'. split; [done|]. split.
    + apply (Hall 1%positive 1%positive post5); [by left|done|done].
    + apply (Hall 2%positive 1%positive post5); [right; by left|done|done].
Defined.

(** ** Thread ids along the parent links *)

Lemma setThreadId_fields (t : string) (p : Post) :
  post_id (setThreadId t p) = post_id p
  ∧ post_parent (setThreadId t p) = post_parent p
  ∧ post_locale (setThreadId t p) = post_locale p
  ∧ post_threadId (setThreadId t p) = Some t.
Proof. done. Qed.

(** X5: after a full set was indexed, the thread ids follow the parent
    links: a post whose parent is in the index has the thread id of the
    post indexed under its parent; a post whose parent is negative or not
    in the index has the thread id made of its own locale and id. *)
Theorem threadId_follows_parent (fuel : nat) (now : Z) (posts : list loc)
    (s s' : state) (post : loc) (p : Post) :
  updateForumData fuel now posts true s = Ok s' →
  post ∈ posts → heap s' !! post = Some p →
  (∀ parentPost,
     0 ≤ post_parent p → postHash s' !! post_parent p = Some parentPost →
     threadIdIn (heap s') parentPost = Some (post_threadId p))
  ∧ (post_parent p < 0 ∨ postHash s' !! post_parent p = None →
     post_threadId p = Some (post_locale p +:+ "|" +:+ pretty (post_id p))).
Proof.
  intros Hrun Hin Hp.
  destruct (updateForumData_full_Ok _ _ _ _ _ Hrun) as (_ & _ & Hph & _ & _ & Hall & _).
  destruct (Hall post Hin) as (root & r & p0 & Hwalk & Hr & Hp0 & Hend).
  rewrite Hp in Hend. injection Hend as ->.
  rewrite withIndex_walk, getOldestPostInThread_unfold in Hwalk.
  simpl in Hwalk. rewrite Hp0 in Hwalk. rewrite Hph. simpl. split.
  - intros parentPost Hge Hparent.
    rewrite bool_decide_eq_true_2, Hparent in Hwalk by done.
    destruct fuel as [|fuel]; [done|].
    destruct (indexOf_lookup_posts (heap s) posts (post_parent p0) parentPost)
      as [Hin' _]; [done|].
    destruct (Hall parentPost Hin') as (root' & r' & q & Hwalk' & Hr' & Hq & Hend').
    rewrite withIndex_walk in Hwalk'.
    apply getOldestPostInThread_sound in Hwalk, Hwalk'.
    rewrite <- (rootAncestor_deterministic _ _ _ _ _ Hwalk Hwalk') in Hr'.
    rewrite Hr in Hr'. injection Hr' as <-.
    unfold threadIdIn. by rewrite Hend'.
  - intros Hends. f_equal.
    assert (root = post) as ->.
    { case_bool_decide as Hge; [|by injection Hwalk].
      destruct Hends as [?|Hnone]; [lia|]. rewrite Hnone in Hwalk. by injection Hwalk. }
    rewrite Hr in Hp0. by injection Hp0 as ->.
Qed.

(** ** Indexing on top of the indices *)

(** The outcome of indexing a list that is no full set. *)
Lemma updateForumData_partial_Ok (fuel : nat) (now : Z) (posts : list loc) (s s' : state) :
  updateForumData fuel now posts false s = Ok s' →
  forumLocale s' = forumLocale s
  ∧ forumUpdateTime s' = Some now
  ∧ postHash s' = indexInto (heap s) (postHash s) posts
  ∧ threadHash s' = groupInto (heap s') (threadHash s) posts
  ∧ sameShape (heap s) (heap s')
  ∧ (∀ post, post ∈ posts → ∃ root r p,
       getOldestPostInThread fuel
         (setPostHash (indexInto (heap s) (postHash s) posts) s) post = Ok root
       ∧ heap s !! root = Some r ∧ heap s !! post = Some p
       ∧ heap s' !! post = Some (setThreadId (threadIdOf r) p))
  ∧ (∀ l, l ∉ posts → heap s' !! l = heap s !! l).
Proof.
  unfold updateForumData. intros (s1 & Hindex & Hrun)%bind_Ok.
  assert (∀ post, post ∈ posts → is_Some (heap s !! post)) as Hposts
    by apply (updatePostHash_inv _ _ _ Hindex).
  rewrite updatePostHash_spec in Hindex by done. injection Hindex as <-.
  apply bind_Ok in Hrun as (s2 & Hids & Hrun).
  apply bind_Ok in Hrun as (s3 & Hthreads & [= <-]).
  destruct (addThreadIds_Ok _ _ _ _ Hids) as (Hl & Ht & Hph & Hth & Hshape & Hall & Hrest).
  rewrite updateThreadHash_spec in Hthreads.
  - injection Hthreads as <-. simpl. by rewrite Hth.
  - intros post Hin. destruct (Hall post Hin) as (root & r & p & _ & _ & _ & Hp).
    by eexists.
Qed.

(** X6: indexing a list that is no full set (as for the post shown in
    the reply dialog) removes nothing: an id that was indexed stays
    indexed, and keeps its post when no post of the list has this id; and
    every array of [threadHash] keeps its posts at its front, the posts of
    the list that belong to the thread being appended behind them. *)
Theorem updateForumData_accumulates (fuel : nat) (now : Z) (posts : list loc)
    (s s' : state) :
  updateForumData fuel now posts false s = Ok s' →
  (∀ id post, postHash s !! id = Some post →
     is_Some (postHash s' !! id)
     ∧ (postsWithId (heap s') id posts = [] → postHash s' !! id = Some post))
  ∧ (∀ key thread, threadHash s !! key = Some thread →
       threadHash s' !! key = Some (thread ++ postsOfThread (heap s') key posts)).
Proof.
  intros Hrun.
  destruct (updateForumData_partial_Ok _ _ _ _ _ Hrun)
    as (_ & _ & Hph & Hth & Hshape & _ & _).
  split.
  - intros id post Hid. rewrite Hph, indexInto_lookup, Hid.
    rewrite (postsWithId_shape _ _ id posts Hshape).
    split; [by destruct (last _)|]. by intros ->.
  - intros key thread Hkey. rewrite Hth, groupInto_lookup, Hkey. simpl.
    destruct (postsOfThread _ _ _); [by rewrite app_nil_r|done].
Qed.

Lemma setThreadId_twice (t : string) (p : Post) :
  setThreadId t (setThreadId t p) = setThreadId t p.
Proof. done. Qed.

(** A post of the indexed set that is indexed once more, without
    [fullSet]. *)
Lemma updateForumData_again (fuel : nat) (now now' : Z) (posts : list loc)
    (s s1 : state) (post : loc) (p : Post) :
  updateForumData fuel now posts true s = Ok s1 →
  post ∈ posts → heap s1 !! post = Some p →
  postHash s1 !! post_id p = Some post →
  ∃ s2 key thread,
    updateForumData fuel now' [post] false s1 = Ok s2
    ∧ heap s2 = heap s1 ∧ postHash s2 = postHash s1
    ∧ post_threadId p = Some key
    ∧ threadHash s1 !! key = Some thread ∧ post ∈ thread
    ∧ threadHash s2 = <[key := thread ++ [post]]> (threadHash s1).
Proof.
  intros Hrun Hin Hp Hindexed.
  destruct (updateForumData_full_Ok _ _ _ _ _ Hrun)
    as (_ & _ & Hph & Hth & Hshape & Hall & _).
  destruct (Hall post Hin) as (root & r & p0 & Hwalk & Hr & Hp0 & Hend).
  rewrite Hp in Hend. injection Hend as ->.
  destruct (sameShape_lookup _ _ _ _ Hshape Hr) as (r1 & Hr1 & Herase).
  assert (getOldestPostInThread fuel s1 post = Ok root) as Hwalk1.
  { rewrite <- Hwalk. symmetry. apply getOldestPostInThread_shape; [done|].
    by rewrite Hph. }
  set (key := threadIdOf r) in *.
  assert (threadHash s1 !! key
          = Some (postsOfThread (heap s1) key posts)
          ∧ post ∈ postsOfThread (heap s1) key posts) as [Hkey Hmember].
  { assert (post ∈ postsOfThread (heap s1) key posts) as Hmember.
    { apply list_elem_of_filter. split; [|done]. by rewrite Hp. }
    split; [|done]. rewrite Hth, groupInto_lookup.
    destruct (postsOfThread _ _ _); [by apply elem_of_nil in Hmember|done]. }
  exists (setUpdateTime (Some now') (setThreadHash
            (<[key := postsOfThread (heap s1) key posts ++ [post]]> (threadHash s1)) s1)),
    key, (postsOfThread (heap s1) key posts).
  split; [|done].
  unfold updateForumData, updatePostHash, addThreadIds, updateThreadHash. simpl.
  rewrite Hp. simpl. rewrite insert_id by done.
  replace (setPostHash (postHash s1) s1) with s1 by (by destruct s1).
  rewrite Hwalk1. simpl. rewrite Hr1, Hp. simpl.
  rewrite (threadIdOf_shape _ _ Herase). fold key. rewrite setThreadId_twice.
  rewrite insert_id by done.
  replace (setHeap (heap s1) s1) with s1 by (by destruct s1).
  rewrite Hp. simpl. rewrite Hkey. simpl.
  do 3 f_equal. apply map_eq. intros k.
  destruct (decide (key = k)) as [<-|Hne].
  - by rewrite lookup_alter_eq, lookup_insert_eq, Hkey.
  - by rewrite lookup_alter_ne, lookup_insert_ne.
Qed.

(** X7: showing again a post of the indexed set, as the reply dialog does
    with the post that is replied to ([parseContent] with the context
    "parent", that is [updateForumData] without [fullSet]), returns and
    leaves the posts and [postHash] as they are, but puts the post once
    more into the array of its thread: the array had the post already, and
    now ends with a second occurrence of it. *)
Theorem updateForumData_shown_again (fuel : nat) (now now' : Z) (posts : list loc)
    (s s1 : state) (post : loc) (p : Post) :
  updateForumData fuel now posts true s = Ok s1 →
  post ∈ posts → heap s1 !! post = Some p →
  postHash s1 !! post_id p = Some post →
  ∃ s2 key thread,
    updateForumData fuel now' [post] false s1 = Ok s2
    ∧ heap s2 = heap s1 ∧ postHash s2 = postHash s1
    ∧ post_threadId p = Some key
    ∧ threadHash s1 !! key = Some thread ∧ post ∈ thread
    ∧ threadHash s2 = <[key := thread ++ [post]]> (threadHash s1).
Proof. apply updateForumData_again. Qed.

(** ** Closing a thread *)

(** X8: when a reply comes with the first post of its thread,
    [getStatusOptions] allows "Close" exactly for a reply to a thread that
    is not closed, by a member of the technical committee: [userIsPoster]
    is never true, so that the poster of the first post is allowed to close
    the thread as a member of the committee only. *)
Theorem getStatusOptions_close (env : host) (s : state) (isReply : bool)
    (firstPost : option Post) (myValue : option string) :
  (isReply = true → firstPost ≠ None) →
  ∃ options,
    getStatusOptions env s isReply firstPost myValue = Ok options
    ∧ ("Close" ∈ verbs options ↔
       isReply = true
       ∧ threadIsClosed env s firstPost = Ok false
       ∧ userIsTC env = true).
Proof.
  intros Hfp.
  destruct (userCanClose_returns env s isReply firstPost Hfp) as [canClose Hclose].
  destruct (getStatusOptions_verbs env s isReply firstPost myValue canClose Hclose)
    as (options & Hopt & Hverbs).
  exists options. split; [done|]. rewrite Hverbs.
  assert (canClose = true ↔
          isReply = true ∧ threadIsClosed env s firstPost = Ok false
          ∧ userIsTC env = true) as <-.
  { destruct isReply.
    - destruct firstPost as [fp|]; [|by destruct Hfp].
      rewrite userCanClose_reply, userIsPoster_false in Hclose. injection Hclose as <-.
      unfold threadIsClosed.
      rewrite andb_true_iff, negb_true_iff. simpl.
      split; [intros [-> ?]|intros (_ & [= ->] & ?)]; done.
    - rewrite userCanClose_top_level in Hclose. injection Hclose as <-.
      split; [done|by intros [? _]]. }
  destruct (truthy myValue && negb isReply),
    (isReply && negb (userIsPoster env firstPost)
     && bool_decide (post_status <$> firstPost = Some "Request")), canClose;
    simpl; verb_iff.
Qed.

(** X9: the allowed verbs come in the order Request, Discuss, Agree,
    Decline, Close, each at most once, and the label of each verb is the
    verb itself. *)
Theorem getStatusOptions_order (env : host) (s : state) (isReply : bool)
    (firstPost : option Post) (myValue : option string)
    (options : list (string * string)) :
  getStatusOptions env s isReply firstPost myValue = Ok options →
  sublist (verbs options) ["Request"; "Discuss"; "Agree"; "Decline"; "Close"]
  ∧ Forall (λ option, option.1 = option.2) options.
Proof.
  unfold getStatusOptions. intros (canClose & _ & [= <-])%bind_Ok.
  destruct firstPost as [fp|];
    [destruct (isReply && negb (userIsPoster env (Some fp))
               && bool_decide (post_status fp = "Request"))|];
    destruct (truthy myValue && negb isReply), canClose; simpl;
    (split; [repeat constructor|repeat constructor]).
Qed.

(** ** Replacing and decoding *)

Lemma prefix_cons_ne (a b : ascii) (pat s : string) :
  a ≠ b → String.prefix (String a pat) (String b s) = false.
Proof. intros Hne. simpl. by destruct (ascii_dec a b). Qed.

Lemma prefix_append (pat s : string) : String.prefix pat (pat +:+ s) = true.
Proof.
  induction pat as [|a pat IH]; simpl; [by destruct s|].
  by destruct (ascii_dec a a).
Qed.

Lemma replaceAllFrom_cons (pat rep : string) (a : ascii) (s : string) :
  replaceAllFrom pat rep 0 (String a s)
  = if String.prefix pat (String a s)
    then rep +:+ replaceAllFrom pat rep (Nat.pred (String.length pat)) s
    else String a (replaceAllFrom pat rep 0 s).
Proof. done. Qed.

(** A character at which the pattern does not match is copied. *)
Lemma replaceAllFrom_copy (pat rep : string) (a : ascii) (s : string) :
  String.prefix pat (String a s) = false →
  replaceAllFrom pat rep 0 (String a s) = String a (replaceAllFrom pat rep 0 s).
Proof. intros Hno. by rewrite replaceAllFrom_cons, Hno. Qed.

Lemma replaceAllFrom_skip (pat rep u s : string) :
  replaceAllFrom pat rep (String.length u) (u +:+ s) = replaceAllFrom pat rep 0 s.
Proof. induction u as [|a u IH]; [by destruct s|done]. Qed.

(** A match is replaced, and the search goes on behind it. *)
Lemma replaceAllFrom_match (pat rep : string) (a : ascii) (s : string) :
  replaceAllFrom (String a pat) rep 0 (String a pat +:+ s)
  = rep +:+ replaceAllFrom (String a pat) rep 0 s.
Proof.
  change (String a pat +:+ s) with (String a (pat +:+ s)).
  rewrite replaceAllFrom_cons.
  change (String a (pat +:+ s)) with (String a pat +:+ s).
  rewrite prefix_append. f_equal. apply replaceAllFrom_skip.
Qed.

(** A text in which the first character of the pattern does not occur is
    left as it is. *)
Lemma replaceAll_absent (a : ascii) (pat rep text : string) :
  occursIn a text = false → replaceAll (String a pat) rep text = text.
Proof.
  unfold replaceAll. induction text as [|c text IH]; [done|].
  simpl occursIn. intros [Hc Hrest]%orb_false_iff.
  apply bool_decide_eq_false in Hc.
  rewrite replaceAllFrom_copy by (apply prefix_cons_ne; congruence).
  by rewrite IH.
Qed.

Lemma entity_ampersand : entity ampersand = "&amp;".
Proof. done. Qed.
Lemma entity_lessThan : entity lessThan = "&lt;".
Proof. done. Qed.
Lemma entity_greaterThan : entity greaterThan = "&gt;".
Proof. done. Qed.
Lemma entity_quotationMark : entity quotationMark = "&quot;".
Proof. done. Qed.

Lemma escapeChars_special (special : list ascii) (c : ascii) (text : string) :
  c ∈ special →
  escapeChars special (String c text) = entity c +:+ escapeChars special text.
Proof. intros Hc. simpl. by rewrite bool_decide_eq_true_2. Qed.

Lemma escapeChars_plain (special : list ascii) (c : ascii) (text : string) :
  c ∉ special →
  escapeChars special (String c text) = String c (escapeChars special text).
Proof. intros Hc. simpl. by rewrite bool_decide_eq_false_2. Qed.

Lemma escapeChars_nil (text : string) : escapeChars [] text = text.
Proof.
  induction text as [|c text IH]; [done|].
  rewrite escapeChars_plain by apply not_elem_of_nil. by rewrite IH.
Qed.

(** One step of the decoding: the entity of [x] is replaced by [x], and
    the entities of the characters that are still escaped, the ampersand
    among them, are passed over. *)
Lemma replaceAll_entity (x : ascii) (special : list ascii) (pat text : string) :
  entity x = String ampersand pat →
  ampersand ∈ special → x ∉ special →
  (∀ c s, c ∈ special →
     replaceAllFrom (entity x) (String x EmptyString) 0 (entity c +:+ s)
     = entity c +:+ replaceAllFrom (entity x) (String x EmptyString) 0 s) →
  replaceAll (entity x) (String x EmptyString) (escapeChars (x :: special) text)
  = escapeChars special text.
Proof.
  intros Hpat Hamp Hx Hpass. unfold replaceAll.
  induction text as [|c text IH]; [done|].
  destruct (decide (c = x)) as [->|Hne].
  - rewrite escapeChars_special by by left.
    rewrite (escapeChars_plain special) by done.
    rewrite Hpat, replaceAllFrom_match, <- Hpat. by rewrite IH.
  - destruct (decide (c ∈ special)) as [Hc|Hc].
    + rewrite !escapeChars_special by (done || by right).
      by rewrite Hpass, IH.
    + rewrite !escapeChars_plain by (done || by apply not_elem_of_cons).
      rewrite replaceAllFrom_copy, IH; [done|].
      rewrite Hpat. apply prefix_cons_ne. intros <-. done.
Qed.

Lemma occursIn_append (a : ascii) (u v : string) :
  occursIn a (u +:+ v) = occursIn a u || occursIn a v.
Proof. induction u as [|c u IH]; [done|]. simpl. by rewrite IH, orb_assoc. Qed.

Lemma occursIn_entity (c : ascii) : occursIn lessThan (entity c) = false.
Proof.
  unfold entity. repeat case_decide; try done.
  simpl. by rewrite bool_decide_eq_false_2.
Qed.

Lemma occursIn_escapeChars (special : list ascii) (text : string) :
  lessThan ∈ special → occursIn lessThan (escapeChars special text) = false.
Proof.
  intros Hlt. induction text as [|c text IH]; [done|].
  destruct (decide (c ∈ special)) as [Hc|Hc].
  - rewrite escapeChars_special by done.
    by rewrite occursIn_append, occursIn_entity, IH.
  - rewrite escapeChars_plain by done. simpl.
    rewrite IH, bool_decide_eq_false_2; [done|]. by intros ->.
Qed.

Lemma append_String (a : ascii) (u s : string) :
  String a u +:+ s = String a (u +:+ s).
Proof. done. Qed.

Lemma append_EmptyString (s : string) : EmptyString +:+ s = s.
Proof. done. Qed.

(** The entities of the characters that are still escaped are passed over
    by each of the three replacements. *)
Lemma quot_passes (c : ascii) (s : string) :
  c ∈ [lessThan; greaterThan; ampersand] →
  replaceAllFrom (entity quotationMark) (String quotationMark EmptyString) 0 (entity c +:+ s)
  = entity c +:+ replaceAllFrom (entity quotationMark) (String quotationMark EmptyString) 0 s.
Proof.
  intros Hc. repeat (apply elem_of_cons in Hc as [->|Hc]);
    [..|by apply elem_of_nil in Hc];
    rewrite ?entity_ampersand, ?entity_lessThan, ?entity_greaterThan, ?entity_quotationMark;
    rewrite !append_String, !append_EmptyString;
    by rewrite !replaceAllFrom_copy by reflexivity.
Qed.

Lemma lt_passes (c : ascii) (s : string) :
  c ∈ [greaterThan; ampersand] →
  replaceAllFrom (entity lessThan) (String lessThan EmptyString) 0 (entity c +:+ s)
  = entity c +:+ replaceAllFrom (entity lessThan) (String lessThan EmptyString) 0 s.
Proof.
  intros Hc. repeat (apply elem_of_cons in Hc as [->|Hc]);
    [..|by apply elem_of_nil in Hc];
    rewrite ?entity_ampersand, ?entity_lessThan, ?entity_greaterThan;
    rewrite !append_String, !append_EmptyString;
    by rewrite !replaceAllFrom_copy by reflexivity.
Qed.

Lemma gt_passes (c : ascii) (s : string) :
  c ∈ [ampersand] →
  replaceAllFrom (entity greaterThan) (String greaterThan EmptyString) 0 (entity c +:+ s)
  = entity c +:+ replaceAllFrom (entity greaterThan) (String greaterThan EmptyString) 0 s.
Proof.
  intros ->%list_elem_of_singleton.
  rewrite ?entity_ampersand, ?entity_greaterThan.
  rewrite !append_String, !append_EmptyString.
  by rewrite !replaceAllFrom_copy by reflexivity.
Qed.

Lemma replaceAll_ampersand (text : string) :
  replaceAll "&amp;" "&" (escapeChars [ampersand] text) = text.
Proof.
  unfold replaceAll. induction text as [|c text IH]; [done|].
  destruct (decide (c = ampersand)) as [->|Hne].
  - rewrite escapeChars_special by by left.
    rewrite entity_ampersand, replaceAllFrom_match. by rewrite IH.
  - rewrite escapeChars_plain by (by apply not_elem_of_cons; split; [|apply not_elem_of_nil]).
    rewrite replaceAllFrom_copy, IH; [done|].
    apply prefix_cons_ne. by intros <-.
Qed.

Lemma post2text_escaped (text : string) :
  post2text (Some (escapeHtml text)) = text.
Proof.
  unfold post2text, escapeHtml. simpl default.
  rewrite (replaceAll_absent lessThan "p>")
    by (apply occursIn_escapeChars; right; by left).
  assert (∀ (c : ascii) (l : list ascii), Forall (λ c', c ≠ c') l → c ∉ l) as Hout.
  { intros c l Hall Hin. rewrite Forall_forall in Hall. by apply (Hall c). }
  rewrite (replaceAll_entity quotationMark [lessThan; greaterThan; ampersand] "quot;");
    [|done|by right; right; left|apply Hout; by repeat constructor
     |intros c s; apply quot_passes].
  rewrite (replaceAll_entity lessThan [greaterThan; ampersand] "lt;");
    [|done|by right; left|apply Hout; by repeat constructor|intros c s; apply lt_passes].
  rewrite (replaceAll_entity greaterThan [ampersand] "gt;");
    [|done|by left|apply Hout; by repeat constructor|intros c s; apply gt_passes].
  apply replaceAll_ampersand.
Qed.

(** X10: [post2text] undoes the escaping of the four characters ampersand,
    less-than, greater-than and quotation mark: a text that was escaped
    comes back as it was, whatever it contains. *)
Theorem post2text_escapeHtml (text : string) :
  post2text (Some (escapeHtml text)) = text.
Proof. apply post2text_escaped. Qed.

(** X11: a text without ampersand and without less-than sign is left as it
    is by [post2text]. *)
Theorem post2text_plain (text : string) :
  occursIn ampersand text = false → occursIn lessThan text = false →
  post2text (Some text) = text.
Proof.
  intros Hamp Hlt. unfold post2text. simpl default.
  rewrite (replaceAll_absent lessThan "p>") by done.
  rewrite (replaceAll_absent ampersand "quot;") by done.
  rewrite (replaceAll_absent ampersand "lt;") by done.
  rewrite (replaceAll_absent ampersand "gt;") by done.
  by rewrite (replaceAll_absent ampersand "amp;").
Qed.

(** The subject of a reply begins with "Re:". *)
Lemma makePostSubject_Re (parentPost : Post) (subjectParam : string) :
  String.prefix "Re:" (makePostSubject true (Some parentPost) subjectParam) = true.
Proof.
  unfold makePostSubject. case_decide as Hre; [reflexivity|].
  apply substring_Re.
  by destruct (decide (String.substring 0 3 (post2text (post_subject parentPost)) = "Re:")).
Qed.

(** X12: the prefix "Re: " does not pile up: when the subject of a reply
    was made by [makePostSubject] and is stored escaped, the subject that
    [makePostSubject] makes for a reply to this reply is the same
    subject. *)
Theorem makePostSubject_stable (parentPost reply : Post) (subjectParam subjectParam' : string) :
  post_subject reply
    = Some (escapeHtml (makePostSubject true (Some parentPost) subjectParam)) →
  makePostSubject true (Some reply) subjectParam'
  = makePostSubject true (Some parentPost) subjectParam.
Proof.
  intros Hsubject.
  pose proof (makePostSubject_Re parentPost subjectParam) as Hre.
  unfold makePostSubject at 1. rewrite Hsubject, post2text_escaped.
  apply substring_Re in Hre. by rewrite decide_False by (by intros []).
Qed.

(** ** The post window *)

Lemma orElse_id (x : string) : orElse (Some x) id EmptyString = x.
Proof. by destruct x. Qed.

Lemma orElse_Some (v : option string) :
  truthy v = true → orElse v Some None = v.
Proof. destruct v as [x|]; [|done]. simpl. by intros ->. Qed.

Lemma orElse_falsy {A : Type} (v : option string) (some : string → A) (d : A) :
  truthy v = false → orElse v some d = d.
Proof. destruct v as [x|]; [|done]. simpl. by intros ->. Qed.

(** A post that is no reply: nothing is read from the indices, and the
    window shows no other post. *)
Lemma openPostOrReply_new (env : host) (xpaths : gmap loc string) (fuel : nat)
    (now : Z) (params : postParams) (s : state) :
  truthyNumber (params_replyTo params)
    && bool_decide (0 ≤ default 0 (params_replyTo params)) = false →
  openPostOrReply env xpaths fuel now params s
  = Ok (s, mkPostWindow
             (makePostHtml (orElse (params_postType params) Some None)
                (orElse (params_locale params) id EmptyString)
                (Some (orElse (params_xpath params) id EmptyString)) (-1))
             (orElse (params_subject params) id EmptyString)
             (prefillPostText (orElse (params_postType params) Some None)
                (orElse (params_myValue params) Some None))
             None).
Proof. intros Hnew. unfold openPostOrReply. by rewrite Hnew. Qed.

(** X13: the verbs that are offered for a new post open a window without
    throwing and without touching the indices; the form carries the
    locale and the xpath of the button and the reply target -1; and the
    text is pre-filled for "Request", which names the value of the user,
    and empty for "Discuss". *)
Theorem newPostButtonClick_opens (env : host) (xpaths : gmap loc string)
    (fuel : nat) (now : Z) (s : state) (options : list (string * string))
    (verb locale : string) (couldFlag : bool) (xpstrid code : string)
    (myValue header : option string) :
  getStatusOptions env s false None myValue = Ok options →
  verb ∈ verbs options →
  ∃ w,
    newPostButtonClick env xpaths fuel now verb locale couldFlag xpstrid code
      myValue header s = Ok (s, w)
    ∧ window_forumDiv w = None
    ∧ window_html w = makePostHtml (Some verb) locale (Some xpstrid) (-1)
    ∧ (verb = "Discuss" → window_text w = EmptyString)
    ∧ (verb = "Request" →
       ∃ value, myValue = Some value ∧ value ≠ EmptyString
                ∧ window_text w = "Please consider voting for " +:+ value +:+ newline).
Proof.
  intros Hoptions Hverb. unfold newPostButtonClick.
  rewrite openPostOrReply_new by done.
  cbn [params_locale params_xpath params_subject params_postType params_myValue].
  rewrite !orElse_id. eexists. split; [done|]. simpl. split; [done|].
  unfold getStatusOptions in Hoptions. simpl in Hoptions.
  rewrite andb_true_r in Hoptions.
  destruct (truthy myValue) eqn:Hvalue; injection Hoptions as <-; simpl in Hverb;
    repeat (apply elem_of_cons in Hverb as [->|Hverb]);
    try (by apply elem_of_nil in Hverb);
    (split; [done|]); (split; [done|]); intros [=].
  destruct myValue as [value|]; [|done]. exists value.
  split; [done|]. split; [by intros ->|].
  rewrite orElse_Some by done. unfold prefillPostText, orElse.
  rewrite decide_False, decide_True by done. by rewrite Hvalue.
Qed.

(** X14: a reply button of a post whose id is zero or negative does not
    open a reply: [openPostOrReply] takes the post for a new one, so that
    the form has the reply target -1, an empty locale, an empty xpath and
    an empty subject, and the post replied to is not shown. *)
Theorem replyButtonClick_without_id (env : host) (xpaths : gmap loc string)
    (fuel : nat) (now : Z) (s : state) (post : loc) (p : Post) (postType : string) :
  heap s !! post = Some p → post_id p ≤ 0 →
  replyButtonClick env xpaths fuel now post postType s
  = Ok (s, mkPostWindow
             (makePostHtml (orElse (Some postType) Some None) EmptyString
                (Some EmptyString) (-1))
             EmptyString
             (prefillPostText (orElse (Some postType) Some None) None)
             None).
Proof.
  intros Hp Hid. unfold replyButtonClick. rewrite Hp.
  rewrite openPostOrReply_new; [done|]. simpl.
  destruct (decide (post_id p = 0)) as [->|Hne]; [done|].
  rewrite bool_decide_eq_false_2 by done. simpl.
  apply bool_decide_eq_false. lia.
Qed.

(** ** Dates *)

(** A property of the numbers from [lo] on, checked one by one. *)
Lemma forallb_seqZ (P : Z → bool) (lo len : Z) :
  forallb P (seqZ lo len) = true → ∀ n, lo ≤ n < lo + len → P n = true.
Proof.
  intros Hall n Hn. rewrite forallb_forall in Hall. apply Hall.
  apply list_elem_of_In, elem_of_seqZ. lia.
Qed.

Lemma pad_length (n : Z) : 0 ≤ n ≤ 99 → String.length (pad n) = 2%nat.
Proof.
  intros Hn.
  pose proof (forallb_seqZ (λ n, bool_decide (String.length (pad n) = 2%nat)) 0 100) as Hall.
  eapply bool_decide_eq_true_1, (Hall ltac:(by vm_compute) n). lia.
Qed.

Lemma year_length (n : Z) : 1000 ≤ n ≤ 9999 → String.length (pretty n) = 4%nat.
Proof.
  intros Hn. destruct n as [|year|year]; try lia.
  change (pretty (Z.pos year)) with (pretty (N.pos year)).
  unfold pretty, pretty_N. rewrite decide_False by done.
  assert (1000 ≤ N.pos year ≤ 9999)%N as Hyear by lia.
  clear Hn. generalize dependent (N.pos year). clear year. intros year Hyear.
  assert (100 ≤ N.div year 10 < 1000)%N as H3
    by (split; [apply N.div_le_lower_bound|apply N.Div0.div_lt_upper_bound]; lia).
  assert (10 ≤ N.div (N.div year 10) 10 < 100)%N as H2
    by (split; [apply N.div_le_lower_bound|apply N.Div0.div_lt_upper_bound]; lia).
  assert (1 ≤ N.div (N.div (N.div year 10) 10) 10 < 10)%N as H1
    by (split; [apply N.div_le_lower_bound|apply N.Div0.div_lt_upper_bound]; lia).
  assert (N.div (N.div (N.div (N.div year 10) 10) 10) 10 = 0)%N as H0
    by (apply N.div_small; lia).
  rewrite !pretty_N_go_step by lia. by rewrite H0, pretty_N_go_0.
Qed.

(** X15: for a date of the calendar in a year of four digits,
    [fmtDateTime] gives sixteen characters, with the year, the month, the
    day, the hour and the minute at fixed places: a hyphen is the fifth
    and the eighth character, a space the eleventh and a colon the
    fourteenth. *)
Theorem fmtDateTime_format (d : date) :
  calendarDate d →
  String.length (fmtDateTime d) = 16%nat
  ∧ String.substring 4 1 (fmtDateTime d) = "-"
  ∧ String.substring 7 1 (fmtDateTime d) = "-"
  ∧ String.substring 10 1 (fmtDateTime d) = " "
  ∧ String.substring 13 1 (fmtDateTime d) = ":".
Proof.
  intros (Hyear & Hmonth & Hday & Hhours & Hminutes). unfold fmtDateTime.
  pose proof (year_length (getFullYear d) Hyear) as Hy.
  pose proof (pad_length (getMonth d + 1) ltac:(lia)) as Hmo.
  pose proof (pad_length (getDate d) ltac:(lia)) as Hd.
  pose proof (pad_length (getHours d) ltac:(lia)) as Hh.
  pose proof (pad_length (getMinutes d) ltac:(lia)) as Hmi.
  destruct (pretty (getFullYear d)) as [|y1 [|y2 [|y3 [|y4 [|]]]]]; try done.
  destruct (pad (getMonth d + 1)) as [|m1 [|m2 [|]]]; try done.
  destruct (pad (getDate d)) as [|d1 [|d2 [|]]]; try done.
  destruct (pad (getHours d)) as [|h1 [|h2 [|]]]; try done.
  destruct (pad (getMinutes d)) as [|i1 [|i2 [|]]]; try done.
Qed.

(** ** The summary *)

Lemma append_assoc (u v w : string) : (u +:+ v) +:+ w = u +:+ (v +:+ w).
Proof. induction u as [|a u IH]; [done|]. by rewrite !append_String, IH. Qed.

Lemma append_empty_r (u : string) : u +:+ EmptyString = u.
Proof. induction u as [|a u IH]; [done|]. by rewrite !append_String, IH. Qed.

Lemma countsHtml_foldl (c : list (string * string)) (html : string) :
  foldl (λ html '(k, count),
           html +:+ "<li>" +:+ k +:+ ": " +:+ count +:+ "</li>" +:+ newline) html c
  = html +:+ countsHtml c.
Proof.
  unfold countsHtml. revert html.
  induction c as [|[k count] c IH]; intros html; simpl.
  - by rewrite append_empty_r.
  - rewrite IH. by rewrite !append_assoc.
Qed.

(** The summary when it may not send a request: it lists the counts when
    the time of the last update is set and is not zero, and says that the
    load failed otherwise; the indices are left as they are. *)
Lemma reallyGetForumSummaryHtml_false (page : summaryHost) (s : state) :
  reallyGetForumSummaryHtml page false s
  = ("<div id='forumSummary'>" +:+ newline
     +:+ (if truthyNumber (forumUpdateTime s)
          then "<ul>" +:+ newline +:+ countsHtml (getFilteredThreadCounts page)
               +:+ "</ul>" +:+ newline
          else "<p>Load failed</p>n")
     +:+ "</div>" +:+ newline, s, None).
Proof.
  unfold reallyGetForumSummaryHtml.
  destruct (truthyNumber (forumUpdateTime s)); simpl negb; cbv iota.
  - rewrite countsHtml_foldl. by rewrite !append_assoc.
  - by rewrite !append_assoc.
Qed.

(** X16: when the posts that were requested for the summary arrive and
    [parseContent] returns, the element of the summary shows the list of
    the counts of the filter, and no further request is sent; only when
    the clock stood at zero during the call does it say that the load
    failed. *)
Theorem summaryLoadHandler_shows_counts (env : host) (page : summaryHost)
    (fuel : nat) (now : Z) (posts : list loc) (s s' : state)
    (r : render) (a : assembly) :
  parseContent env fuel now posts "summary" s = Ok (s', r, a) →
  summaryLoadHandler env page fuel now true (Some posts) s
  = Ok (s',
        Some ("<div id='forumSummary'>" +:+ newline
              +:+ (if decide (now = 0) then "<p>Load failed</p>n"
                   else "<ul>" +:+ newline
                        +:+ countsHtml (getFilteredThreadCounts page)
                        +:+ "</ul>" +:+ newline)
              +:+ "</div>" +:+ newline),
        None).
Proof.
  intros Hrun. unfold summaryLoadHandler. rewrite Hrun. simpl.
  rewrite reallyGetForumSummaryHtml_false.
  apply parseContent_Ok in Hrun as (r1 & Hrender & _).
  apply renderPosts_Ok in Hrender as (Hindex & _).
  apply updateForumData_full_Ok in Hindex as (_ & -> & _).
  simpl. by destruct (decide (now = 0)) as [->|Hne]; [|rewrite bool_decide_eq_false_2].
Qed.

(** X17: asked for the summary of another locale than the one that is
    loaded, [getForumSummaryHtml] shows no counts: it says that the
    summary is loading, the post index is emptied and the time of the
    last update is reset, and, when [cldrStAjax] is there, the posts of
    the new locale are requested. *)
Theorem getForumSummaryHtml_other_locale (page : summaryHost)
    (locale : option string) (s : state) :
  locale ≠ forumLocale s →
  ∃ s',
    getForumSummaryHtml page locale s
    = ("<div id='forumSummary'>" +:+ newline
       +:+ "<p>Loading Forum Summary...</p>" +:+ newline
       +:+ "</div>" +:+ newline,
       s',
       if cldrStAjax page then Some (getLoadForumUrl page s') else None)
    ∧ forumLocale s' = locale ∧ forumUpdateTime s' = None ∧ postHash s' = ∅.
Proof.
  intros Hne. exists (setLocale locale s).
  destruct (setLocale_switch locale s Hne) as (Hl & Ht & Hp).
  split; [|done].
  unfold getForumSummaryHtml, reallyGetForumSummaryHtml. rewrite Ht. simpl negb. cbv iota.
  unfold loadForumForSummaryOnly. rewrite setLocale_same.
  destruct (cldrStAjax page); by rewrite !append_assoc.
Qed.

(** ** Ancestors in the document *)

Lemma isInclusiveAncestor_unfold (fuel : nat) (d : document) (a n : node) :
  isInclusiveAncestor fuel d a n =
  if bool_decide (a = n) then Some true
  else
    match parentNode d !! n with
    | None => Some false
    | Some p =>
        match fuel with
        | O => None
        | S fuel' => isInclusiveAncestor fuel' d a p
        end
    end.
Proof. by destruct fuel. Qed.

(** The answer of [isInclusiveAncestor] is right. *)
Lemma isInclusiveAncestor_sound (fuel : nat) (d : document) (a n : node) (b : bool) :
  isInclusiveAncestor fuel d a n = Some b → b = true ↔ rtc (parentOf d) n a.
Proof.
  revert n. induction fuel as [|fuel IH]; intros n;
    rewrite isInclusiveAncestor_unfold;
    (case_bool_decide as Ha; [intros [= <-]; by subst|]);
    (destruct (parentNode d !! n) as [p|] eqn:Hp;
     [|intros [= <-]; split; [done|];
       intros [?|(y & Hy & _)]%rtc_inv; [done|unfold parentOf in Hy; congruence]]);
    [done|].
  intros Hrun. rewrite (IH p Hrun). split.
  - intros Hreach. by eapply rtc_l.
  - intros [?|(y & Hy & Hreach)]%rtc_inv; [done|].
    unfold parentOf in Hy. congruence.
Qed.

(** In a document without a cycle among the ancestors of [n], the search
    ends within as many steps as there are nodes with a parent. *)
Lemma isInclusiveAncestor_within (d : document) (a : node) (fuel : nat)
    (keys : gset node) (n : node) :
  (∀ m, rtc (parentOf d) n m → ¬ tc (parentOf d) m m) →
  (∀ m m', rtc (parentOf d) n m → parentOf d m m' → m ∈ keys) →
  (size keys ≤ fuel)%nat →
  is_Some (isInclusiveAncestor fuel d a n).
Proof.
  revert keys n. induction fuel as [|fuel IH]; intros keys n Hacyclic Hkeys Hsize;
    rewrite isInclusiveAncestor_unfold;
    (case_bool_decide as Ha; [by eexists|]);
    (destruct (parentNode d !! n) as [p|] eqn:Hp; [|by eexists]);
    assert (n ∈ keys) as Hn by (by eapply (Hkeys n p)).
  - assert (size keys = 0%nat) as Hempty by lia.
    apply size_empty_inv in Hempty. set_solver.
  - apply (IH (keys ∖ {[n]})).
    + intros m Hm. apply Hacyclic. by eapply rtc_l.
    + intros m m' Hm Hm'. apply elem_of_difference. split.
      * eapply (Hkeys m m'); [by eapply rtc_l|done].
      * intros ->%elem_of_singleton.
        apply (Hacyclic n); [done|].
        eapply tc_rtc_r; [apply tc_once; exact Hp|exact Hm].
    + rewrite size_difference by set_solver. rewrite size_singleton.
      assert (size keys ≠ 0%nat); [|lia].
      apply size_non_empty_iff. set_solver.
Qed.

Lemma parentNode_size (d : document) :
  allocated d → (size (dom (parentNode d)) ≤ nextNode d)%nat.
Proof.
  intros Halloc.
  rewrite <- (size_set_seq (C := gset nat) 0 (nextNode d)).
  apply subseteq_size. intros n [m Hn]%elem_of_dom.
  apply elem_of_set_seq. split; [lia|].
  destruct (decide (n < nextNode d)%nat) as [?|Hge]; [lia|].
  destruct (Halloc n) as [Hnone _]; [lia|]. congruence.
Qed.

(** A node that is no ancestor of the new parent, nor the new parent itself,
    can be appended, provided that no ancestor of the new parent lies on a
    cycle. *)
Lemma appendChild_acyclic (parent child : node) (d : document) :
  allocated d →
  (∀ m, rtc (parentOf d) parent m → ¬ tc (parentOf d) m m) →
  ¬ rtc (parentOf d) parent child →
  appendChild parent child d = Ok (attach parent child (detach child d)).
Proof.
  intros Halloc Hacyclic Hfree. unfold appendChild.
  destruct (isInclusiveAncestor_within d child (nextNode d) (dom (parentNode d)) parent)
    as [b Hb]; [done| |by apply parentNode_size|].
  { intros m m' _ Hm. apply elem_of_dom. by exists m'. }
  rewrite Hb. destruct b; [|done].
  destruct Hfree. by apply (isInclusiveAncestor_sound _ _ _ _ _ Hb).
Qed.

(** ** The nesting of the nodes *)

Lemma depthOf_deterministic (h : gmap loc Post) (ph : gmap Z loc) (post : loc)
    (depth1 depth2 : nat) :
  depthOf h ph post depth1 → depthOf h ph post depth2 → depth1 = depth2.
Proof.
  intros H1. revert depth2.
  induction H1 as [post p Hp Hend|post p parentPost depth Hp Hge Hparent _ IH];
    intros depth2 H2;
    inversion H2 as [? p' Hp' Hend'|? p' parentPost' ? Hp' Hge' Hparent' Hrest];
    subst; rewrite Hp in Hp'; injection Hp' as <-.
  - done.
  - destruct Hend as [?|Hnone]; [lia|congruence].
  - destruct Hend' as [?|Hnone]; [lia|congruence].
  - f_equal. apply IH. congruence.
Qed.

Lemma rootAncestor_depth (h : gmap loc Post) (ph : gmap Z loc) (post root : loc) :
  rootAncestor h ph post root → ∃ depth, depthOf h ph post depth.
Proof.
  induction 1 as [post p Hp Hend|post p parentPost root Hp Hge Hparent _ [depth IH]].
  - exists 0%nat. by econstructor.
  - exists (S depth). by econstructor.
Qed.

Section Nesting.
Context (h : gmap loc Post) (ph : gmap Z loc).

Lemma levelOf_created (r : render) (n : node) (k : nat) :
  tablesOk r → levelOf h ph r n k → (n < nextNode (rdom r))%nat.
Proof.
  intros Hok [key c Hc|id n' post depth Hn _ _|id n' post depth area Hn _ _ Harea].
  - by eapply ok_topic_created.
  - by eapply ok_post_created.
  - by eapply ok_area_created.
Qed.

Lemma levelOf_unique (r : render) (n : node) (k1 k2 : nat) :
  nestingOk h ph r → levelOf h ph r n k1 → levelOf h ph r n k2 → k1 = k2.
Proof.
  intros [Hok Hposts Hinj _]
    [key1 c1 Hc1|id1 n1 post1 depth1 Hn1 Hpost1 Hdepth1
     |id1 n1 post1 depth1 area1 Hn1 Hpost1 Hdepth1 Harea1]
    H2;
    inversion H2 as [key2 c2 Hc2|id2 n2 post2 depth2 Hn2 Hpost2 Hdepth2
                     |id2 n2 post2 depth2 area2 Hn2 Hpost2 Hdepth2 Harea2]; subst.
  - done.
  - by destruct (ok_topic_post r Hok _ _ _ _ Hc1 Hn2).
  - by destruct (ok_topic_area r Hok _ _ _ _ Hc1 Harea2).
  - by destruct (ok_topic_post r Hok _ _ _ _ Hc2 Hn1).
  - rewrite (ok_post_injective r Hok _ _ _ Hn1 Hn2) in Hpost1.
    rewrite Hpost1 in Hpost2. injection Hpost2 as <-.
    by rewrite (depthOf_deterministic _ _ _ _ _ Hdepth1 Hdepth2).
  - by destruct (ok_post_area r Hok _ _ _ _ Hn1 Harea2).
  - by destruct (ok_topic_area r Hok _ _ _ _ Hc2 Harea1).
  - by destruct (ok_post_area r Hok _ _ _ _ Hn2 Harea1).
  - rewrite (Hinj _ _ _ Harea1 Harea2) in Hn1.
    rewrite (ok_post_injective r Hok _ _ _ Hn1 Hn2) in Hpost1.
    rewrite Hpost1 in Hpost2. injection Hpost2 as <-.
    by rewrite (depthOf_deterministic _ _ _ _ _ Hdepth1 Hdepth2).
Qed.

(** The levels stay when [replies] areas are added. *)
Lemma levelOf_mono (r r' : render) (n : node) (k : nat) :
  postDivs r' = postDivs r → topicDivs r' = topicDivs r →
  (∀ m area, replies (rdom r) !! m = Some area → replies (rdom r') !! m = Some area) →
  levelOf h ph r n k → levelOf h ph r' n k.
Proof.
  intros Hposts Htopics Hreplies
    [key c Hc|id n' post depth Hn Hpost Hdepth|id n' post depth area Hn Hpost Hdepth Harea].
  - eapply level_topic. by rewrite Htopics.
  - eapply level_post; [by rewrite Hposts|done..].
  - eapply level_area; [by rewrite Hposts|done..|by apply Hreplies].
Qed.

Lemma nesting_descends (r : render) (n m : node) (k : nat) :
  nestingOk h ph r → tc (parentOf (rdom r)) n m → levelOf h ph r n k →
  ∃ k', levelOf h ph r m k' ∧ (k' < k)%nat.
Proof.
  intros Hnest Hreach. revert k.
  induction Hreach as [n m Hstep|n y m Hstep _ IH]; intros k Hk;
    destruct (nest_levels _ _ _ Hnest _ _ Hstep) as (k1 & k2 & Hk1 & Hk2 & Hlt);
    rewrite (levelOf_unique _ _ _ _ Hnest Hk Hk1).
  - by exists k2.
  - destruct (IH k2 Hk2) as (k' & Hk' & Hlt'). exists k'. split; [done|lia].
Qed.

Lemma nesting_acyclic (r : render) (m : node) :
  nestingOk h ph r → ¬ tc (parentOf (rdom r)) m m.
Proof.
  intros Hnest Hcycle.
  assert (∃ k, levelOf h ph r m k) as [k Hk].
  { inversion Hcycle as [? ? Hstep|? y ? Hstep _]; subst;
      destruct (nest_levels _ _ _ Hnest _ _ Hstep) as (k & _ & Hk & _); by exists k. }
  destruct (nesting_descends r m m k Hnest Hcycle Hk) as (k' & Hk' & Hlt).
  rewrite (levelOf_unique _ _ _ _ Hnest Hk Hk') in Hlt. lia.
Qed.

(** A node at a higher level than another one is not among its ancestors. *)
Lemma nesting_no_ancestor (r : render) (parent child : node) (kp kc : nat) :
  nestingOk h ph r →
  levelOf h ph r parent kp → levelOf h ph r child kc → (kp < kc)%nat →
  ¬ rtc (parentOf (rdom r)) parent child.
Proof.
  intros Hnest Hkp Hkc Hlt [<-|Hreach]%rtc_tc.
  - rewrite (levelOf_unique _ _ _ _ Hnest Hkp Hkc) in Hlt. lia.
  - destruct (nesting_descends r parent child kp Hnest Hreach Hkp) as (k' & Hk' & Hlt').
    rewrite (levelOf_unique _ _ _ _ Hnest Hkc Hk') in Hlt. lia.
Qed.

(** A node can be appended to a node at a lower level, and the document
    stays well nested. *)
Lemma nesting_appendChild (r : render) (parent child : node) (kp kc : nat) :
  nestingOk h ph r →
  levelOf h ph r parent kp → levelOf h ph r child kc → (kp < kc)%nat →
  ∃ d', appendChild parent child (rdom r) = Ok d' ∧ nestingOk h ph (setDom d' r).
Proof.
  intros Hnest Hkp Hkc Hlt.
  pose proof (nest_tables _ _ _ Hnest) as Hok.
  assert (appendChild parent child (rdom r)
          = Ok (attach parent child (detach child (rdom r)))) as Happend.
  { apply appendChild_acyclic.
    - by apply ok_allocated.
    - intros m _. by apply nesting_acyclic.
    - by eapply nesting_no_ancestor. }
  eexists. split; [done|].
  pose proof (replies_appendChild _ _ _ _ Happend) as Hreplies.
  assert (∀ n k, levelOf h ph r n k
                 → levelOf h ph (setDom (attach parent child (detach child (rdom r))) r) n k)
    as Hlevels.
  { intros n k. apply levelOf_mono; try done.
    intros m area. cbn [rdom setDom]. by rewrite Hreplies. }
  split.
  - eapply tablesOk_appendChild; try done.
    + by eapply levelOf_created.
    + by eapply levelOf_created.
    + intros key c Hc ->.
      pose proof (level_topic h ph r _ _ Hc) as H0.
      rewrite (levelOf_unique _ _ _ _ Hnest Hkc H0) in Hlt. lia.
  - cbn [rdom setDom postDivs]. rewrite Hreplies. apply (nest_replies_post _ _ _ Hnest).
  - cbn [rdom setDom]. rewrite Hreplies. apply (nest_replies_injective _ _ _ Hnest).
  - cbn [rdom setDom]. intros n m. rewrite (parentNode_appendChild _ _ _ _ Happend).
    intros [[<- <-]|[_ Hedge]]%lookup_insert_Some.
    + exists kc, kp. auto.
    + destruct (nest_levels _ _ _ Hnest _ _ Hedge) as (k & k' & Hk & Hk' & Hlt').
      exists k, k'. auto.
Qed.

(** A new [replies] area can be appended to the node of a post, and the
    document stays well nested. *)
Lemma nesting_createArea (r : render) (id : Z) (parentDiv : node) (post : loc)
    (depth : nat) :
  nestingOk h ph r →
  postDivs r !! id = Some parentDiv → ph !! id = Some post → depthOf h ph post depth →
  replies (rdom r) !! parentDiv = None →
  ∃ d',
    appendChild parentDiv (nextNode (rdom r))
      (setReplies parentDiv (nextNode (rdom r)) (createElement (rdom r)).2) = Ok d'
    ∧ nestingOk h ph (setDom d' r)
    ∧ replies d' !! parentDiv = Some (nextNode (rdom r)).
Proof.
  intros Hnest Hdiv Hpost Hdepth Hnone.
  pose proof (nest_tables _ _ _ Hnest) as Hok.
  set (area := nextNode (rdom r)).
  set (d1 := setReplies parentDiv area (createElement (rdom r)).2).
  pose proof (tablesOk_createArea r parentDiv Hok) as Hok1. fold area d1 in Hok1.
  pose proof (ok_post_created r Hok _ _ Hdiv) as Hcreated.
  assert (appendChild parentDiv area d1
          = Ok (attach parentDiv area (detach area d1))) as Happend.
  { apply appendChild_acyclic.
    - apply (ok_allocated _ Hok1).
    - intros m _. apply (nesting_acyclic r m Hnest).
    - intros [Heq|(z & _ & Hz)]%rtc_inv_r; [unfold area in Heq; lia|].
      destruct (nest_levels _ _ _ Hnest _ _ Hz) as (_ & k' & _ & Hk' & _).
      pose proof (levelOf_created r _ _ Hok Hk'). unfold area in *. lia. }
  eexists. split; [done|].
  pose proof (replies_appendChild _ _ _ _ Happend) as Hreplies.
  change (replies d1) with (<[parentDiv := area]> (replies (rdom r))) in Hreplies.
  assert (∀ n k, levelOf h ph r n k
                 → levelOf h ph (setDom (attach parentDiv area (detach area d1)) r) n k)
    as Hlevels.
  { intros n k. apply levelOf_mono; try done.
    intros m a Hm. cbn [rdom setDom]. rewrite Hreplies.
    rewrite lookup_insert_ne; [done|]. intros <-. congruence. }
  split; [|by rewrite Hreplies, lookup_insert_eq]. split.
  - apply (tablesOk_appendChild (setDom d1 r) parentDiv area); try done.
    + simpl. lia.
    + simpl. unfold area. lia.
    + intros key c Hc ->. pose proof (ok_topic_created r Hok _ _ Hc). unfold area in *. lia.
  - cbn [rdom setDom postDivs]. rewrite Hreplies.
    intros n a [[<- <-]|[_ Hn]]%lookup_insert_Some; [by exists id|].
    by apply (nest_replies_post _ _ _ Hnest n a).
  - cbn [rdom setDom]. rewrite Hreplies.
    intros n1 n2 a [[<- <-]|[_ Hn1]]%lookup_insert_Some
      [[<- Ha]|[_ Hn2]]%lookup_insert_Some; try done.
    + pose proof (ok_area_created r Hok _ _ Hn2). unfold area in *. lia.
    + pose proof (ok_area_created r Hok _ _ Hn1). unfold area in *. lia.
    + by apply (nest_replies_injective _ _ _ Hnest n1 n2 a).
  - cbn [rdom setDom]. intros n m. rewrite (parentNode_appendChild _ _ _ _ Happend).
    change (parentNode d1) with (parentNode (rdom r)).
    intros [[<- <-]|[_ Hedge]]%lookup_insert_Some.
    + exists (2 * depth + 2)%nat, (2 * depth + 1)%nat. split; [|split; [|lia]].
      * eapply level_area; try done. cbn [rdom setDom]. by rewrite Hreplies, lookup_insert_eq.
      * by eapply level_post.
    + destruct (nest_levels _ _ _ Hnest _ _ Hedge) as (k & k' & Hk & Hk' & Hlt').
      exists k, k'. auto.
Qed.

Lemma postsRanked_tables (posts : list loc) (r r' : render) :
  postDivs r' = postDivs r → topicDivs r' = topicDivs r →
  postsRanked h ph posts r → postsRanked h ph posts r'.
Proof.
  intros Hposts Htopics [Hindexed Hid Hdepth Htables Hdivs].
  split; try done; rewrite ?Hposts, ?Htopics; done.
Qed.

(** One turn of the third loop of [parseContent] in a well-nested
    document: it returns, and the document stays well nested. *)
Lemma reparent_nested (posts : list loc) (r : render) (post : loc) :
  nestingOk h ph r → postsRanked h ph posts r → post ∈ posts →
  ∃ r', reparent h post r = Ok r' ∧ nestingOk h ph r'
        ∧ postDivs r' = postDivs r ∧ topicDivs r' = topicDivs r.
Proof.
  intros Hnest Hranked Hin.
  destruct (ranked_tables _ _ _ _ Hranked post Hin) as (p & topicDiv & x & Hp & Htopic & Hdiv).
  pose proof (ranked_indexed _ _ _ _ Hranked post p Hin Hp) as Hindexed.
  destruct (ranked_depth _ _ _ _ Hranked post Hin) as [depth Hdepth].
  pose proof (level_post h ph r _ _ _ _ Hdiv Hindexed Hdepth) as Hx.
  pose proof (level_topic h ph r _ _ Htopic) as Ht.
  assert (∃ r', appendChildTo (topicDivs r !! propKey (post_threadId p))
                  (postDivs r !! post_id p) (rdom r) ≫= (λ d, Ok (setDom d r)) = Ok r'
                ∧ nestingOk h ph r'
                ∧ postDivs r' = postDivs r ∧ topicDivs r' = topicDivs r) as Hthread.
  { fold (threadKey p). rewrite Htopic, Hdiv. simpl.
    destruct (nesting_appendChild r topicDiv x _ _ Hnest Ht Hx) as (d' & -> & Hnest');
      [lia|]. by eexists. }
  unfold reparent. rewrite Hp.
  case_decide as Hreply; [|done].
  destruct (postDivs r !! post_parent p) as [parentDiv|] eqn:Hparent; [|done].
  clear Hthread.
  destruct (ranked_posts _ _ _ _ Hranked _ _ Hparent) as (q & pq & Hq & Hpq & Hidq).
  pose proof (ranked_id _ _ _ _ Hranked q pq Hq Hpq) as Hge. rewrite Hidq in Hge.
  pose proof (ranked_indexed _ _ _ _ Hranked q pq Hq Hpq) as Hindexedq.
  rewrite Hidq in Hindexedq.
  destruct (ranked_depth _ _ _ _ Hranked q Hq) as [depthq Hdepthq].
  assert (depth = S depthq) as ->.
  { eapply depthOf_deterministic; [done|]. by eapply depth_up. }
  rewrite Hdiv.
  destruct (replies (rdom r) !! parentDiv) as [area|] eqn:Harea.
  - pose proof (level_area h ph r _ _ _ _ _ Hparent Hindexedq Hdepthq Harea) as Ha.
    destruct (nesting_appendChild r area x _ _ Hnest Ha Hx) as (d' & Happend & Hnest');
      [lia|].
    simpl. rewrite Happend. by eexists.
  - destruct (nesting_createArea r _ _ _ _ Hnest Hparent Hindexedq Hdepthq Harea)
      as (d2 & Hattach & Hnest2 & Harea2).
    simpl. simpl in Hattach. rewrite Hattach. simpl.
    destruct (nesting_appendChild (setDom d2 r) (nextNode (rdom r)) x
                (2 * depthq + 2) (2 * S depthq + 1) Hnest2)
      as (d3 & Happend & Hnest3); [by eapply level_area|by eapply level_post|lia|].
    simpl in Happend. rewrite Happend. by eexists.
Qed.

(** The third loop of [parseContent] in a well-nested document. *)
Lemma reparent_loop_nested (posts todo : list loc) (r : render) :
  nestingOk h ph r → postsRanked h ph posts r →
  (∀ post, post ∈ todo → post ∈ posts) →
  ∃ r', forEach (reparent h) todo r = Ok r' ∧ nestingOk h ph r'
        ∧ postDivs r' = postDivs r ∧ topicDivs r' = topicDivs r.
Proof.
  revert r. induction todo as [|post todo IH]; intros r Hnest Hranked Hsub.
  - by exists r.
  - destruct (reparent_nested posts r post Hnest Hranked) as (r1 & Hstep & Hnest1 & Hp1 & Ht1);
      [apply Hsub; by left|].
    destruct (IH r1) as (r' & Hrest & Hnest' & Hp' & Ht'); try done.
    + by eapply postsRanked_tables.
    + intros q Hq. apply Hsub. by right.
    + exists r'. simpl. rewrite Hstep. simpl. split; [done|]. split; [done|].
      split; congruence.
Qed.
End Nesting.

(** ** parseContent returns *)

Lemma forEach_returns {A S : Type} (body : A → S → result S) (l : list A) (s : S) :
  (∀ x s1, x ∈ l → ∃ s2, body x s1 = Ok s2) → ∃ s', forEach body l s = Ok s'.
Proof.
  revert s. induction l as [|x l IH]; intros s Hbody; [by eexists|].
  destruct (Hbody x s) as [s1 Hx]; [by left|].
  destruct (IH s1) as [s' Hl]; [intros y s2 Hy; apply Hbody; by right|].
  exists s'. simpl. by rewrite Hx.
Qed.

(** The outcome of indexing, full set or not. *)
Lemma updateForumData_Ok (fuel : nat) (now : Z) (posts : list loc) (fullSet : bool)
    (s s' : state) :
  updateForumData fuel now posts fullSet s = Ok s' →
  sameShape (heap s) (heap s')
  ∧ (∀ id, postHash s' !! id
           = match last (postsWithId (heap s') id posts) with
             | Some post => Some post
             | None => if fullSet then None else postHash s !! id
             end)
  ∧ (∀ key, threadHash s' !! key
            = match postsOfThread (heap s') key posts with
              | [] => if fullSet then None else threadHash s !! key
              | thread =>
                  Some (default [] (if fullSet then None else threadHash s !! key)
                        ++ thread)
              end)
  ∧ ∀ post, post ∈ posts →
      ∃ root p r, getOldestPostInThread fuel s' post = Ok root
                  ∧ heap s' !! post = Some p ∧ heap s' !! root = Some r
                  ∧ post_threadId p = Some (threadIdOf r).
Proof.
  intros Hrun.
  assert (∃ s0, sameShape (heap s0) (heap s')
            ∧ postHash s' = indexInto (heap s0)
                              (if fullSet then ∅ else postHash s) posts
            ∧ threadHash s' = groupInto (heap s')
                                (if fullSet then ∅ else threadHash s) posts
            ∧ heap s0 = heap s
            ∧ ∀ post, post ∈ posts → ∃ root r p,
                getOldestPostInThread fuel (setPostHash (postHash s') s0) post = Ok root
                ∧ heap s0 !! root = Some r ∧ heap s0 !! post = Some p
                ∧ heap s' !! post = Some (setThreadId (threadIdOf r) p))
    as (s0 & Hshape & Hph & Hth & Hheap & Hall).
  { destruct fullSet.
    - destruct (updateForumData_full_Ok _ _ _ _ _ Hrun) as (_ & _ & Hph & Hth & Hshape & Hall & _).
      exists s. split; [done|]. split; [done|]. split; [done|]. split; [done|].
      intros post Hin. destruct (Hall post Hin) as (root & r & p & Hwalk & Hrest).
      exists root, r, p. split; [|done]. rewrite <- Hwalk, withIndex_walk. by rewrite Hph.
    - destruct (updateForumData_partial_Ok _ _ _ _ _ Hrun)
        as (_ & _ & Hph & Hth & Hshape & Hall & _).
      exists s. split; [done|]. split; [done|]. split; [done|]. split; [done|].
      intros post Hin. destruct (Hall post Hin) as (root & r & p & Hwalk & Hrest).
      exists root, r, p. split; [|done]. by rewrite Hph. }
  rewrite Hheap in *. split; [done|]. split; [|split].
  - intros id. rewrite Hph, indexInto_lookup, (postsWithId_shape _ _ _ _ Hshape).
    destruct (last _); [done|]. by destruct fullSet.
  - intros key. rewrite Hth, groupInto_lookup.
    destruct fullSet; [|done]. by rewrite lookup_empty.
  - intros post Hin. destruct (Hall post Hin) as (root & r & p & Hwalk & Hr & Hp & Hend).
    destruct (sameShape_lookup _ _ _ _ Hshape Hr) as (r' & Hr' & Herase).
    exists root, (setThreadId (threadIdOf r) p), r'.
    split; [|split; [done|split; [done|]]].
    + rewrite <- Hwalk. apply getOldestPostInThread_shape; [|done].
      simpl. rewrite Hheap. by apply sameShape_sym.
    + simpl. by rewrite (threadIdOf_shape _ _ Herase).
Qed.

(** With the first post of its thread, a reply has its allowed verbs. *)
Lemma getStatusOptions_reply_returns (env : host) (s : state) (fp : Post)
    (myValue : option string) :
  ∃ options, getStatusOptions env s true (Some fp) myValue = Ok options.
Proof.
  destruct (userCanClose_returns env s true (Some fp)) as [canClose Hclose]; [done|].
  destruct (getStatusOptions_verbs env s true (Some fp) myValue canClose Hclose)
    as (options & Hoptions & _).
  by exists options.
Qed.

Section Render.
Context (env : host) (fuel : nat) (now : Z) (posts : list loc) (fullSet : bool).
Context (s s1 : state).
Context (Hindex : updateForumData fuel now posts fullSet s = Ok s1).

Lemma createTopicDiv_returns (opts : options) (post : loc) (r : render) :
  post ∈ posts →
  (showItemLink opts = true →
   ∀ first fp, getOldestPostInThread fuel s1 post = Ok first →
     heap s1 !! first = Some fp → post_subject fp ≠ None) →
  ∃ r', createTopicDiv fuel s1 opts post r = Ok r'.
Proof using Hindex.
  intros Hin Hsubject.
  destruct (updateForumData_Ok _ _ _ _ _ _ Hindex) as (_ & _ & _ & Hall).
  destruct (Hall post Hin) as (root & p & fp & Hwalk & Hp & Hfp & _).
  unfold createTopicDiv. rewrite Hp.
  destruct (topicDivs r !! propKey (post_threadId p)); [by eexists|]. simpl.
  destruct (showItemLink opts); [|by eexists].
  rewrite Hwalk. simpl. rewrite Hfp. unfold addThreadSubjectSpan.
  destruct (post_subject fp) eqn:Hs; [by eexists|].
  by destruct (Hsubject eq_refl root fp).
Qed.

Lemma createPostDiv_returns (opts : options) (post : loc) (r : render) :
  post ∈ posts → ∃ r', createPostDiv env fuel s1 opts post r = Ok r'.
Proof using Hindex.
  intros Hin.
  destruct (updateForumData_Ok _ _ _ _ _ _ Hindex) as (_ & _ & Hth & Hall).
  destruct (Hall post Hin) as (root & p & fp & Hwalk & Hp & Hfp & Hid).
  unfold createPostDiv. rewrite Hp. simpl.
  destruct (showReplyButton opts); [|by eexists].
  unfold getNewestPostInThread. rewrite Hp, Hid, Hth. simpl.
  assert (post ∈ postsOfThread (heap s1) (threadIdOf fp) posts) as Hmember.
  { apply list_elem_of_filter. split; [|done]. rewrite Hp. simpl.
    unfold threadKey. by rewrite Hid. }
  destruct (postsOfThread _ _ _) as [|first thread]; [by apply elem_of_nil in Hmember|].
  simpl. case_decide; [|by eexists].
  unfold addReplyButtons. rewrite Hwalk. simpl. rewrite Hfp.
  destruct (getStatusOptions_reply_returns env s1 fp None) as [options ->].
  by eexists.
Qed.
End Render.

(** The first two loops of [parseContent] append nothing, and the nodes of
    posts that they make are nodes of posts of the list. *)
Lemma renderPosts_document (env : host) (fuel : nat) (now : Z) (posts : list loc)
    (context : string) (s s1 : state) (r1 : render) :
  renderPosts env fuel now posts context s = Ok (s1, r1) →
  parentNode (rdom r1) = ∅ ∧ replies (rdom r1) = ∅
  ∧ ∀ id n, postDivs r1 !! id = Some n →
      ∃ post p, post ∈ posts ∧ heap s1 !! post = Some p ∧ post_id p = id.
Proof.
  unfold renderPosts. intros (s' & Hindex & Hrun)%bind_Ok.
  apply bind_Ok in Hrun as (r0 & Htopics & Hrun).
  apply bind_Ok in Hrun as (r & Hdivs & [= <- <-]).
  assert (parentNode (rdom r0) = ∅ ∧ replies (rdom r0) = ∅ ∧ postDivs r0 = ∅)
    as (Hp0 & Hr0 & Hd0).
  { revert Htopics.
    apply (forEach_invariant _
             (λ r, parentNode (rdom r) = ∅ ∧ replies (rdom r) = ∅ ∧ postDivs r = ∅));
      [|done].
    by intros post ra rb _ Hempty (p & _ & [[-> _]|[_ ->]])%createTopicDiv_inv. }
  revert Hdivs.
  apply (forEach_invariant _
           (λ r, parentNode (rdom r) = ∅ ∧ replies (rdom r) = ∅
                 ∧ ∀ id n, postDivs r !! id = Some n →
                     ∃ post p, post ∈ posts ∧ heap s' !! post = Some p ∧ post_id p = id)).
  - intros post ra rb Hin (Hpa & Hra & Hda) (p & Hp & ->)%createPostDiv_inv.
    split; [done|]. split; [done|]. simpl.
    intros id n [[<- _]|[_ Hn]]%lookup_insert_Some; [by exists post, p|by apply (Hda id n)].
  - split; [done|]. split; [done|]. intros id n. by rewrite Hd0, lookup_empty.
Qed.

Lemma rootAncestor_indexOf_posts (h : gmap loc Post) (posts : list loc) (post root : loc) :
  rootAncestor h (indexOf h posts) post root → post ∈ posts → root ∈ posts.
Proof.
  induction 1 as [|post p parentPost root Hp Hge Hparent _ IH]; [done|].
  intros _. apply IH. by destruct (indexOf_lookup_posts _ _ _ _ Hparent).
Qed.

Lemma parseContent_total (env : host) (fuel : nat) (now : Z) (posts : list loc)
    (context : string) (s s1 : state) :
  updateForumData fuel now posts (fullSet (getOptionsForContext context)) s = Ok s1 →
  (∀ post1 post2 p1 p2,
     post1 ∈ posts → post2 ∈ posts →
     heap s1 !! post1 = Some p1 → heap s1 !! post2 = Some p2 →
     post_id p1 = post_id p2 → post1 = post2) →
  (∀ post p, post ∈ posts → heap s1 !! post = Some p → 0 ≤ post_id p) →
  (context = "main" →
   ∀ post p, post ∈ posts → heap s1 !! post = Some p → post_subject p ≠ None) →
  ∃ r a, parseContent env fuel now posts context s = Ok (s1, r, a).
Proof.
  intros Hindex Hunique Hids Hsubjects.
  destruct (updateForumData_Ok _ _ _ _ _ _ Hindex) as (Hshape & Hph & _ & Hall).
  (* the first two loops *)
  assert (∃ r1, renderPosts env fuel now posts context s = Ok (s1, r1)) as [r1 Hrender].
  { unfold renderPosts. rewrite Hindex. simpl.
    destruct (forEach_returns (createTopicDiv fuel s1 (getOptionsForContext context))
                posts (mkRender emptyDocument ∅ ∅)) as [r0 ->].
    { intros post r Hin. eapply createTopicDiv_returns; [done..|].
      intros Hmain first fp Hwalk Hfp.
      assert (context = "main") as -> by
        (unfold getOptionsForContext in Hmain; by repeat case_decide).
      apply (Hsubjects eq_refl first fp); [|done].
      apply getOldestPostInThread_sound in Hwalk.
      apply (updateForumData_full_Ok _ _ _ _ _) in Hindex as (_ & _ & Hindex & _ & Hs & _).
      rewrite Hindex in Hwalk. unfold indexOf in Hwalk.
      rewrite (indexInto_shape _ _ ∅ posts Hs) in Hwalk.
      by eapply rootAncestor_indexOf_posts. }
    simpl.
    destruct (forEach_returns (createPostDiv env fuel s1 (getOptionsForContext context))
                posts r0) as [r1 ->]; [|by eexists].
    intros post r Hin. by eapply createPostDiv_returns. }
  destruct (renderPosts_Ok _ _ _ _ _ _ _ _ Hrender) as (_ & Hok1 & Hcover).
  destruct (renderPosts_document _ _ _ _ _ _ _ _ Hrender) as (Hparents & Hreplies & Hdivs).
  (* the third loop *)
  assert (nestingOk (heap s1) (postHash s1) r1) as Hnest.
  { split; [done|..]; intros n m; rewrite ?Hparents, ?Hreplies, lookup_empty; done. }
  assert (postsRanked (heap s1) (postHash s1) posts r1) as Hranked.
  { split; [|done| |done|done].
    - intros post p Hin Hp. rewrite Hph.
      assert (post ∈ postsWithId (heap s1) (post_id p) posts) as Hmember.
      { apply list_elem_of_filter. split; [|done]. by rewrite Hp. }
      destruct (last _) as [q|] eqn:Hlast.
      + apply last_elem_of, list_elem_of_filter in Hlast as [Hid Hq].
        destruct (heap s1 !! q) as [pq|] eqn:Hpq; [|done]. injection Hid as Hid.
        f_equal. by eapply Hunique.
      + apply last_None in Hlast. rewrite Hlast in Hmember.
        by apply elem_of_nil in Hmember.
    - intros post Hin. destruct (Hall post Hin) as (root & _ & _ & Hwalk & _).
      by eapply rootAncestor_depth, getOldestPostInThread_sound. }
  destruct (reparent_loop_nested (heap s1) (postHash s1) posts posts r1 Hnest Hranked)
    as (r & Hloop & Hnest' & Hposts & Htopics); [done|].
  (* the assembly *)
  destruct (filterAndAssembleForumThreads_Ok env s1 posts r
              (applyFilter (getOptionsForContext context))
              (showThreadCount (getOptionsForContext context))
              (nest_tables _ _ _ Hnest'))
    as (a & _ & Hassemble & _).
  { intros post Hin. destruct (Hcover post Hin) as (p & c & _ & Hp & Hc & _).
    exists p, c. split; [done|congruence]. }
  exists r, a. apply parseContent_Ok. by exists r1.
Qed.

(** X18: [parseContent] returns for every list of posts that can be
    indexed and whose posts have ids that are distinct and not negative,
    provided, in the context "main", that the posts have subjects: no
    turn of its loops throws, and the assembly returns. *)
Theorem parseContent_returns (env : host) (fuel : nat) (now : Z) (posts : list loc)
    (context : string) (s s1 : state) :
  updateForumData fuel now posts (fullSet (getOptionsForContext context)) s = Ok s1 →
  (∀ post1 post2 p1 p2,
     post1 ∈ posts → post2 ∈ posts →
     heap s1 !! post1 = Some p1 → heap s1 !! post2 = Some p2 →
     post_id p1 = post_id p2 → post1 = post2) →
  (∀ post p, post ∈ posts → heap s1 !! post = Some p → 0 ≤ post_id p) →
  (context = "main" →
   ∀ post p, post ∈ posts → heap s1 !! post = Some p → post_subject p ≠ None) →
  ∃ r a, parseContent env fuel now posts context s = Ok (s1, r, a).
Proof. apply parseContent_total. Qed.

(** ** Replies below their parents *)

(** One turn of the third loop keeps the [replies] areas where they are,
    and puts the node of a reply whose parent has a node into the
    [replies] area of that node. *)
Lemma reparent_areas (h : gmap loc Post) (post : loc) (r r' : render) :
  reparent h post r = Ok r' → tablesOk r → areasAttached (rdom r) →
  areasAttached (rdom r')
  ∧ (∀ n area, replies (rdom r) !! n = Some area → replies (rdom r') !! n = Some area)
  ∧ ∀ p parentDiv postDiv,
      h !! post = Some p → post_parent p ≠ -1 →
      postDivs r !! post_parent p = Some parentDiv →
      postDivs r !! post_id p = Some postDiv →
      ∃ area, replies (rdom r') !! parentDiv = Some area
              ∧ parentNode (rdom r') !! postDiv = Some area
              ∧ postDiv ∈ children (rdom r') area.
Proof.
  intros Hstep Hok Hareas. unfold reparent in Hstep.
  destruct (h !! post) as [p|] eqn:Hp; [|done].
  assert (∀ parent d',
            appendChildTo parent (postDivs r !! post_id p) (rdom r) = Ok d' →
            areasAttached d'
            ∧ (∀ n area, replies (rdom r) !! n = Some area → replies d' !! n = Some area))
    as Hmove.
  { intros [parent|] d'; [|done].
    destruct (postDivs r !! post_id p) as [postDiv|] eqn:Hdiv; [|done].
    simpl. intros Happend.
    pose proof (replies_appendChild _ _ _ _ Happend) as Hreplies.
    split; [|by rewrite Hreplies]. intros n area. rewrite Hreplies. intros Harea.
    assert (area ≠ postDiv) as Hne by (intros ->; by eapply (ok_post_area r Hok)).
    rewrite (parentNode_appendChild_other _ _ _ _ Happend) by done.
    rewrite (children_appendChild_other _ _ _ _ Happend) by done.
    by apply Hareas. }
  assert (∀ r2, appendChildTo (topicDivs r !! propKey (post_threadId p))
                  (postDivs r !! post_id p) (rdom r) ≫= (λ d, Ok (setDom d r)) = Ok r2 →
                areasAttached (rdom r2)
                ∧ (∀ n area, replies (rdom r) !! n = Some area
                             → replies (rdom r2) !! n = Some area)) as Hthread.
  { intros r2 (d' & Happend & [= <-])%bind_Ok. by apply (Hmove _ _ Happend). }
  case_decide as Hreply.
  2: { destruct (Hthread _ Hstep) as [Ha Hr]. split; [done|]. split; [done|].
       intros p' parentDiv postDiv [= <-]. done. }
  destruct (postDivs r !! post_parent p) as [parentDiv|] eqn:Hparent.
  2: { destruct (Hthread _ Hstep) as [Ha Hr]. split; [done|]. split; [done|].
       intros p' parentDiv postDiv [= <-] _ Hpd. congruence. }
  clear Hthread.
  apply bind_Ok in Hstep as ([area d] & Harea & Hstep).
  apply bind_Ok in Hstep as (d3 & Happend & [= <-]).
  destruct (replies (rdom r) !! parentDiv) as [area'|] eqn:Hreplies.
  - injection Harea as <- <-.
    destruct (Hmove _ _ Happend) as [Ha Hr]. split; [done|]. split; [done|].
    intros p' parentDiv' postDiv [= <-] _ Hpd Hdiv.
    rewrite Hparent in Hpd. injection Hpd as <-.
    rewrite Hdiv in Happend. simpl in Happend.
    exists area'. split; [by apply Hr|]. split.
    + by apply (parentNode_appendChild_self _ _ _ _ Happend).
    + by apply (children_appendChild_self _ _ _ _ Happend).
  - simpl in Harea.
    apply bind_Ok in Harea as (d2 & Hattach & [= <- <-]).
    destruct (postDivs r !! post_id p) as [postDiv|] eqn:Hdiv; [|done].
    simpl in Happend.
    pose proof (ok_post_created r Hok _ _ Hdiv) as Hcreated.
    pose proof (replies_appendChild _ _ _ _ Hattach) as Hreplies2.
    pose proof (replies_appendChild _ _ _ _ Happend) as Hreplies3.
    rewrite Hreplies2 in Hreplies3. simpl in Hreplies3.
    assert (parentNode d3 !! nextNode (rdom r) = Some parentDiv
            ∧ nextNode (rdom r) ∈ children d3 parentDiv) as Hplace.
    { rewrite (parentNode_appendChild_other _ _ _ _ Happend) by lia.
      rewrite (children_appendChild_other _ _ _ _ Happend) by lia. split.
      - by apply (parentNode_appendChild_self _ _ _ _ Hattach).
      - by apply (children_appendChild_self _ _ _ _ Hattach). }
    split; [|split].
    + intros n a. cbn [rdom setDom]. rewrite Hreplies3.
      intros [[<- <-]|[Hne Hn]]%lookup_insert_Some; [done|].
      pose proof (ok_area_created r Hok _ _ Hn) as Hold.
      assert (a ≠ postDiv) as Hne' by (intros ->; by eapply (ok_post_area r Hok)).
      rewrite (parentNode_appendChild_other _ _ _ _ Happend) by done.
      rewrite (children_appendChild_other _ _ _ _ Happend) by done.
      rewrite (parentNode_appendChild_other _ _ _ _ Hattach) by lia.
      rewrite (children_appendChild_other _ _ _ _ Hattach) by lia.
      by apply Hareas.
    + intros n a Hn. cbn [rdom setDom]. rewrite Hreplies3.
      rewrite lookup_insert_ne; [done|]. intros <-. congruence.
    + intros p' parentDiv' postDiv' [= <-] _ Hpd Hdiv'.
      rewrite Hparent in Hpd. injection Hpd as <-.
      rewrite Hdiv in Hdiv'. injection Hdiv' as <-.
      exists (nextNode (rdom r)). cbn [rdom setDom]. split; [|split].
      * by rewrite Hreplies3, lookup_insert_eq.
      * by apply (parentNode_appendChild_self _ _ _ _ Happend).
      * by apply (children_appendChild_self _ _ _ _ Happend).
Qed.

(** Once the node of a reply is in the [replies] area of the node of its
    parent, it stays there through the rest of the third loop, as long as
    no other post of the list has the same id. *)
Lemma reparent_loop_nests (h : gmap loc Post) (posts : list loc) (r r' : render)
    (post : loc) (p : Post) (parentDiv postDiv : node) :
  forEach (reparent h) posts r = Ok r' → tablesOk r → areasAttached (rdom r) →
  h !! post = Some p → post_parent p ≠ -1 →
  postDivs r !! post_parent p = Some parentDiv →
  postDivs r !! post_id p = Some postDiv →
  (∀ q pq, q ∈ posts → h !! q = Some pq → post_id pq = post_id p → q = post) →
  post ∈ posts
  ∨ (∃ area, replies (rdom r) !! parentDiv = Some area
             ∧ parentNode (rdom r) !! postDiv = Some area
             ∧ postDiv ∈ children (rdom r) area) →
  tablesOk r' ∧ areasAttached (rdom r')
  ∧ ∃ area, replies (rdom r') !! parentDiv = Some area
            ∧ parentNode (rdom r') !! postDiv = Some area
            ∧ postDiv ∈ children (rdom r') area.
Proof.
  revert r. induction posts as [|q posts IH];
    intros r Hrun Hok Hareas Hp Hreply Hparent Hdiv Hunique Hstart.
  - injection Hrun as <-. destruct Hstart as [Hin|?]; [|done].
    by apply elem_of_nil in Hin.
  - apply forEach_cons_Ok in Hrun as (r1 & Hstep & Hrest).
    destruct (reparent_Ok _ _ _ _ Hstep Hok)
      as (Hok1 & Hposts1 & Htopics1 & Hnext & pq & qDiv & Hq & HqDiv & Hframe).
    destruct (reparent_areas _ _ _ _ Hstep Hok Hareas) as (Hareas1 & Hkeep & Hturn).
    assert (∀ q' pq', q' ∈ posts → h !! q' = Some pq' →
              post_id pq' = post_id p → q' = post) as Hunique'
      by (intros q' pq' Hin; apply Hunique; by right).
    apply (IH r1); try done; try congruence.
    destruct (decide (q = post)) as [->|Hne].
    + right. by apply (Hturn p).
    + destruct Hstart as [Hin|(area & Harea & Hplace & Hchild)].
      * apply elem_of_cons in Hin as [?|Hin]; [done|by left].
      * right. exists area. split; [by apply Hkeep|].
        destruct (Hframe postDiv) as [Hsame Hkids].
        -- intros ->. apply Hne. apply (Hunique q pq); [by left|done|].
           by eapply (ok_post_injective r Hok).
        -- by eapply ok_post_created.
        -- split; [congruence|]. by apply Hkids.
Qed.

(** X19: a reply whose parent has a node is, in the document that
    [parseContent] returns, in the [replies] area of the node of its
    parent: its node is a child of that area, and the area is a child of
    the node of the parent; provided that no other post of the list has
    the same id. *)
Theorem reply_below_parent (env : host) (fuel : nat) (now : Z) (context : string)
    (posts : list loc) (s s1 : state) (r : render) (a : assembly)
    (post : loc) (p : Post) (parentDiv : node) :
  parseContent env fuel now posts context s = Ok (s1, r, a) →
  post ∈ posts → heap s1 !! post = Some p →
  post_parent p ≠ -1 → postDivs r !! post_parent p = Some parentDiv →
  (∀ q pq, q ∈ posts → heap s1 !! q = Some pq → post_id pq = post_id p → q = post) →
  ∃ postDiv area,
    postDivs r !! post_id p = Some postDiv
    ∧ replies (rdom r) !! parentDiv = Some area
    ∧ parentNode (adom a) !! postDiv = Some area
    ∧ postDiv ∈ children (adom a) area
    ∧ parentNode (adom a) !! area = Some parentDiv
    ∧ area ∈ children (adom a) parentDiv.
Proof.
  intros (r1 & Hrender & Hloop & Hassemble)%parseContent_Ok Hin Hp Hreply Hparent Hunique.
  destruct (renderPosts_Ok _ _ _ _ _ _ _ _ Hrender) as (_ & Hok1 & Hcover).
  destruct (renderPosts_document _ _ _ _ _ _ _ _ Hrender) as (_ & Hreplies1 & _).
  destruct (reparent_loop_Ok _ _ _ _ Hloop Hok1) as (Hok & Hposts & Htopics & Hnext).
  destruct (Hcover post Hin) as (p' & topicDiv & postDiv & Hp' & _ & Hdiv).
  rewrite Hp in Hp'. injection Hp' as <-.
  rewrite Hposts in Hparent.
  destruct (reparent_loop_nests _ _ _ _ post p parentDiv postDiv Hloop Hok1)
    as (_ & Hareas & area & Harea & Hplace & Hchild); try done; [|by left|].
  { intros n area'. by rewrite Hreplies1, lookup_empty. }
  destruct (Hareas _ _ Harea) as [Hplace' Hchild'].
  destruct (filterAndAssembleForumThreads_Ok env s1 posts r
              (applyFilter (getOptionsForContext context))
              (showThreadCount (getOptionsForContext context)) Hok)
    as (a' & containers & Hassemble' & _ & Hall & _ & _ & Hframe).
  { intros q Hq. destruct (Hcover q Hq) as (pq & c & _ & Hpq & Hc & _).
    exists pq, c. split; [done|congruence]. }
  rewrite Hassemble in Hassemble'. injection Hassemble' as <-.
  assert (postDiv ∉ containers) as Hout1.
  { intros (key & _ & Hkey)%(Forall2_elem_of_r _ _ _ _ Hall).
    rewrite Htopics in Hkey. by eapply (ok_topic_post r1 Hok1). }
  assert (area ∉ containers) as Hout2.
  { intros (key & _ & Hkey)%(Forall2_elem_of_r _ _ _ _ Hall).
    by eapply (ok_topic_area r Hok). }
  destruct (Hframe postDiv) as [Hsame1 Hkids1]; [|done|].
  { pose proof (ok_post_created r1 Hok1 _ _ Hdiv). lia. }
  destruct (Hframe area) as [Hsame2 Hkids2]; [by eapply ok_area_created|done|].
  exists postDiv, area. rewrite Hposts.
  split; [done|]. split; [done|]. split; [congruence|]. split; [by apply Hkids1|].
  split; [congruence|by apply Hkids2].
Qed.

(** Once the node of a post is below the container of its thread, as the
    node of a top-level post is, it stays there through the rest of the
    third loop, as long as no other post of the list has the same id. *)
Lemma reparent_loop_top (h : gmap loc Post) (posts : list loc) (r r' : render)
    (post : loc) (p : Post) (topicDiv postDiv : node) :
  forEach (reparent h) posts r = Ok r' → tablesOk r →
  h !! post = Some p → post_parent p = -1 →
  topicDivs r !! threadKey p = Some topicDiv →
  postDivs r !! post_id p = Some postDiv →
  (∀ q pq, q ∈ posts → h !! q = Some pq → post_id pq = post_id p → q = post) →
  post ∈ posts
  ∨ (parentNode (rdom r) !! postDiv = Some topicDiv ∧ postDiv ∈ children (rdom r) topicDiv) →
  parentNode (rdom r') !! postDiv = Some topicDiv
  ∧ postDiv ∈ children (rdom r') topicDiv.
Proof.
  revert r. induction posts as [|q posts IH];
    intros r Hrun Hok Hp Htop Htopic Hdiv Hunique Hstart.
  - injection Hrun as <-. destruct Hstart as [Hin|?]; [|done].
    by apply elem_of_nil in Hin.
  - apply forEach_cons_Ok in Hrun as (r1 & Hstep & Hrest).
    destruct (reparent_Ok _ _ _ _ Hstep Hok)
      as (Hok1 & Hposts1 & Htopics1 & Hnext & pq & qDiv & Hq & HqDiv & Hframe).
    assert (∀ q' pq', q' ∈ posts → h !! q' = Some pq' →
              post_id pq' = post_id p → q' = post) as Hunique'
      by (intros q' pq' Hin; apply Hunique; by right).
    destruct (decide (q = post)) as [->|Hne].
    + destruct (reparent_to_thread _ _ _ _ _ _ Hok Hp (or_introl Htop) Htopic Hdiv)
        as (d' & Happend & Hstep').
      rewrite Hstep' in Hstep. injection Hstep as <-.
      apply (IH (setDom d' r)); try done. right. simpl. split.
      * by apply (parentNode_appendChild_self _ _ _ _ Happend).
      * by apply (children_appendChild_self _ _ _ _ Happend).
    + apply (IH r1); try done; try congruence.
      destruct Hstart as [Hin|[Hparent0 Hchild0]].
      * apply elem_of_cons in Hin as [?|Hin]; [done|by left].
      * right. destruct (Hframe postDiv) as [Hsame Hkids].
        -- intros ->. apply Hne. apply (Hunique q pq); [by left|done|].
           by eapply (ok_post_injective r Hok).
        -- by eapply ok_post_created.
        -- split; [congruence|]. by apply Hkids.
Qed.

(** X20: a top-level post (parent -1) is, in the document that
    [parseContent] returns, directly below the container of its thread,
    and the container is in the returned fragment when the thread passes
    the filter; provided that no other post of the list has the same
    id. *)
Theorem top_level_post_attached (env : host) (fuel : nat) (now : Z) (context : string)
    (posts : list loc) (s s1 : state) (r : render) (a : assembly)
    (post : loc) (p : Post) :
  parseContent env fuel now posts context s = Ok (s1, r, a) →
  post ∈ posts → heap s1 !! post = Some p → post_parent p = -1 →
  (∀ q pq, q ∈ posts → heap s1 !! q = Some pq → post_id pq = post_id p → q = post) →
  ∃ topicDiv postDiv,
    topicDivs r !! threadKey p = Some topicDiv
    ∧ postDivs r !! post_id p = Some postDiv
    ∧ parentNode (adom a) !! postDiv = Some topicDiv
    ∧ postDiv ∈ children (adom a) topicDiv
    ∧ (threadKey p ∈ getFilteredThreadIds env (heap s1) (threadHash s1)
                       (applyFilter (getOptionsForContext context)) →
       topicDiv ∈ children (adom a) (forumDiv a)).
Proof.
  intros (r1 & Hrender & Hloop & Hassemble)%parseContent_Ok Hin Hp Htop Hunique.
  destruct (renderPosts_Ok _ _ _ _ _ _ _ _ Hrender) as (Hindex & Hok1 & Hcover).
  destruct (reparent_loop_Ok _ _ _ _ Hloop Hok1) as (Hok & Hposts & Htopics & Hnext).
  destruct (Hcover post Hin) as (p' & topicDiv & postDiv & Hp' & Htopic & Hdiv).
  rewrite Hp in Hp'. injection Hp' as <-.
  destruct (reparent_loop_top _ _ _ _ post p topicDiv postDiv Hloop Hok1)
    as [Hattached Hchild]; try done; [by left|].
  destruct (filterAndAssembleForumThreads_Ok env s1 posts r
              (applyFilter (getOptionsForContext context))
              (showThreadCount (getOptionsForContext context)) Hok)
    as (a' & containers & Hassemble' & Hchildren & Hall & _ & _ & Hframe).
  { intros q Hq. destruct (Hcover q Hq) as (pq & c & _ & Hpq & Hc & _).
    exists pq, c. split; [done|congruence]. }
  rewrite Hassemble in Hassemble'. injection Hassemble' as <-.
  destruct (Hframe postDiv) as [Hsame Hkids].
  { pose proof (ok_post_created r1 Hok1 _ _ Hdiv). lia. }
  { intros (key & _ & Hkey)%(Forall2_elem_of_r _ _ _ _ Hall).
    rewrite Htopics in Hkey. by eapply (ok_topic_post r1 Hok1). }
  exists topicDiv, postDiv. rewrite Htopics, Hposts.
  split; [done|]. split; [done|]. split; [congruence|]. split; [by apply Hkids|].
  intros Hpass.
  destruct (updateForumData_threadIds _ _ _ _ _ _ Hindex post Hin)
    as (p' & key & Hp' & Hkey).
  rewrite Hp in Hp'. injection Hp' as <-.
  assert (threadKey p = key) as Hthread by (unfold threadKey; by rewrite Hkey).
  assert (key ∈ threadIdsOf (heap s1) posts) as Hids.
  { apply list_elem_of_omap. exists post. split; [done|]. by rewrite Hp. }
  rewrite Hthread in Hpass, Htopic.
  destruct (Forall2_elem_of_l _ _ _ key Hall) as (c & Hc & Hkeyc).
  { apply assembleIds_elem_of. by split. }
  rewrite Htopics, Htopic in Hkeyc. injection Hkeyc as <-.
  rewrite Hchildren. apply elem_of_app. by right.
Qed.

(** ** The reply window *)

(** X21: the click on a reply button of a post of the indexed set, whose
    id is positive and under which the post is indexed, opens the reply
    window without throwing: the form carries the locale and the xpath of
    the first post of the thread and the id of the post as the reply
    target, the subject is the one that [makePostSubject] makes of the
    post, the post is shown in the window, and the posts and [postHash]
    are as before. *)
Theorem replyButtonClick_opens_reply (env : host) (xpaths : gmap loc string)
    (fuel : nat) (now now' : Z) (posts : list loc) (s s1 : state)
    (post : loc) (p : Post) (postType : string) :
  updateForumData fuel now posts true s = Ok s1 →
  post ∈ posts → heap s1 !! post = Some p →
  postHash s1 !! post_id p = Some post →
  0 < post_id p → postType ≠ EmptyString →
  ∃ s2 w first fp,
    replyButtonClick env xpaths fuel now' post postType s1 = Ok (s2, w)
    ∧ getOldestPostInThread fuel s1 post = Ok first
    ∧ heap s1 !! first = Some fp
    ∧ window_html w
      = makePostHtml (Some postType) (post_locale fp) (xpaths !! first) (post_id p)
    ∧ window_subject w = makePostSubject true (Some p) EmptyString
    ∧ window_text w = prefillPostText (Some postType) None
    ∧ is_Some (window_forumDiv w)
    ∧ heap s2 = heap s1 ∧ postHash s2 = postHash s1.
Proof.
  intros Hindex Hin Hp Hindexed Hid Htype.
  destruct (updateForumData_Ok _ _ _ _ _ _ Hindex) as (_ & _ & _ & Hall).
  destruct (Hall post Hin) as (first & p' & fp & Hwalk & Hp' & Hfp & _).
  rewrite Hp in Hp'. injection Hp' as <-.
  destruct (updateForumData_again fuel now now' posts s s1 post p Hindex Hin Hp Hindexed)
    as (s2 & key & thread & Hagain & Hheap & Hph & _).
  destruct (parseContent_total env fuel now' [post] "parent" s1 s2 Hagain)
    as (r & a & Hshow).
  { intros post1 post2 p1 p2 ->%list_elem_of_singleton ->%list_elem_of_singleton. done. }
  { intros q pq ->%list_elem_of_singleton. rewrite Hheap, Hp. intros [= <-]. lia. }
  { done. }
  exists s2, (mkPostWindow
                (makePostHtml (Some postType) (post_locale fp) (xpaths !! first) (post_id p))
                (makePostSubject true (Some p) EmptyString)
                (prefillPostText (Some postType) None) (Some (r, a))),
    first, fp.
  split; [|by repeat split].
  unfold replyButtonClick, openPostOrReply. rewrite Hp.
  cbn [params_replyTo params_replyData params_locale params_xpath params_subject
       params_postType params_myValue truthyNumber default].
  rewrite bool_decide_eq_false_2 by lia.
  rewrite bool_decide_eq_true_2 by (unfold id; lia).
  cbn [negb andb]. rewrite Hwalk. simpl. rewrite Hfp, Hp. simpl.
  unfold openPostWindow. rewrite Hshow. simpl.
  by destruct postType.
Qed.

(** ** The empty list *)

(** X22: for the empty list [parseContent] returns, whatever the context:
    the fragment holds no container, only the header of the count when it
    is shown, which reads "0 threads"; the time of the last update is set;
    and the indices are emptied, except in the context "parent", where
    they are left as they are. *)
Theorem parseContent_empty (env : host) (fuel : nat) (now : Z) (context : string)
    (s : state) :
  ∃ s' r a,
    parseContent env fuel now [] context s = Ok (s', r, a)
    ∧ children (adom a) (forumDiv a) = option_list (countEl a)
    ∧ (countEl a = None ↔ context ≠ "main")
    ∧ threadCount a = 0%nat ∧ countText a = "0 threads"
    ∧ forumUpdateTime s' = Some now
    ∧ postHash s' = (if decide (context = "parent") then postHash s else ∅)
    ∧ threadHash s' = (if decide (context = "parent") then threadHash s else ∅).
Proof.
  set (opts := getOptionsForContext context).
  set (s' := setUpdateTime (Some now)
               (if fullSet opts then setThreadHash ∅ (setPostHash ∅ s) else s)).
  assert (updateForumData fuel now [] (fullSet opts) s = Ok s') as Hindex by done.
  destruct (filterAndAssembleForumThreads_Ok env s' [] (mkRender emptyDocument ∅ ∅)
              (applyFilter opts) (showThreadCount opts) tablesOk_empty)
    as (a & containers & Hassemble & Hchildren & Hall & Hcount & Hheader & _).
  { intros post Hin. by apply elem_of_nil in Hin. }
  simpl in Hall. apply Forall2_nil_inv_l in Hall as ->.
  exists s', (mkRender emptyDocument ∅ ∅), a.
  split; [|split; [by rewrite Hchildren, app_nil_r|]].
  { apply parseContent_Ok. exists (mkRender emptyDocument ∅ ∅).
    split; [|done]. unfold renderPosts. fold opts. by rewrite Hindex. }
  split.
  { rewrite Hheader. unfold opts, getOptionsForContext.
    repeat case_decide; subst; simpl; split; done. }
  split; [done|]. split; [unfold countText; by rewrite Hcount|]. split; [done|].
  unfold s', opts, getOptionsForContext.
  repeat case_decide; subst; done.
Qed.

(** ** What indexing depends on, and what it changes *)

(** X23: indexing a full set forgets the indices: whatever [postHash] and
    [threadHash] held before (the threads of another locale that
    [setLocale] left behind, for one), the posts and the two indices come
    out the same; of the old state only the posts and the locale count. *)
Theorem updateForumData_forgets (fuel : nat) (now : Z) (posts : list loc)
    (s t s' : state) :
  heap t = heap s →
  updateForumData fuel now posts true s = Ok s' →
  updateForumData fuel now posts true t
  = Ok (mkState (heap s') (forumLocale t) (Some now) (postHash s') (threadHash s')).
Proof.
  intros Hheap Hrun.
  destruct (updateForumData_full_Ok _ _ _ _ _ Hrun)
    as (_ & _ & Hph & Hth & _ & Hall & Hrest).
  assert (∀ post, getOldestPostInThread fuel (withIndex t posts) post
                  = getOldestPostInThread fuel (withIndex s posts) post) as Hwalk.
  { intros post. apply getOldestPostInThread_shape; simpl; by rewrite Hheap. }
  destruct (updateForumData_full_returns fuel now posts t) as [t' Hrun'].
  { intros post Hin. destruct (Hall post Hin) as (root & _ & _ & Hroot & _).
    exists root. by rewrite Hwalk. }
  rewrite Hrun'. f_equal.
  destruct (updateForumData_full_Ok _ _ _ _ _ Hrun')
    as (Hl' & Ht' & Hph' & Hth' & _ & Hall' & Hrest').
  assert (heap t' = heap s') as Hsame.
  { apply map_eq. intros l. destruct (decide (l ∈ posts)) as [Hin|Hout].
    - destruct (Hall l Hin) as (root & r & p & Hroot & Hr & Hp & ->).
      destruct (Hall' l Hin) as (root' & r' & p' & Hroot' & Hr' & Hp' & ->).
      rewrite Hwalk, Hroot in Hroot'. injection Hroot' as <-.
      rewrite Hheap in Hr', Hp'. congruence.
    - by rewrite (Hrest l Hout), (Hrest' l Hout), Hheap. }
  apply state_eq; simpl; try done.
  - by rewrite Hph', Hph, Hheap.
  - by rewrite Hth', Hth, Hsame.
Qed.

(** X24: [parseContent] changes the posts in their thread ids only, and
    only the posts of the list; the locale of the module stays. *)
Theorem parseContent_keeps_posts (env : host) (fuel : nat) (now : Z)
    (posts : list loc) (context : string) (s s' : state) (r : render) (a : assembly) :
  parseContent env fuel now posts context s = Ok (s', r, a) →
  sameShape (heap s) (heap s')
  ∧ (∀ l, l ∉ posts → heap s' !! l = heap s !! l)
  ∧ forumLocale s' = forumLocale s.
Proof.
  intros (r1 & Hrender & _)%parseContent_Ok.
  apply renderPosts_Ok in Hrender as (Hindex & _).
  destruct (fullSet (getOptionsForContext context)).
  - by destruct (updateForumData_full_Ok _ _ _ _ _ Hindex) as (? & _ & _ & _ & ? & _ & ?).
  - by destruct (updateForumData_partial_Ok _ _ _ _ _ Hindex) as (? & _ & _ & _ & ? & _ & ?).
Qed.

(** X25: [parseContent] makes one container for each thread: two posts of
    the list have the same container exactly when they have the same
    thread id. *)
Theorem one_container_per_thread (env : host) (fuel : nat) (now : Z)
    (posts : list loc) (context : string) (s s' : state) (r : render) (a : assembly)
    (post1 post2 : loc) :
  parseContent env fuel now posts context s = Ok (s', r, a) →
  post1 ∈ posts → post2 ∈ posts →
  ∃ p1 p2 topicDiv1 topicDiv2,
    heap s' !! post1 = Some p1 ∧ heap s' !! post2 = Some p2
    ∧ topicDivs r !! threadKey p1 = Some topicDiv1
    ∧ topicDivs r !! threadKey p2 = Some topicDiv2
    ∧ (topicDiv1 = topicDiv2 ↔ post_threadId p1 = post_threadId p2).
Proof.
  intros (r1 & Hrender & Hloop & _)%parseContent_Ok Hin1 Hin2.
  destruct (renderPosts_Ok _ _ _ _ _ _ _ _ Hrender) as (Hindex & Hok1 & Hcover).
  destruct (reparent_loop_Ok _ _ _ _ Hloop Hok1) as (Hok & _ & Htopics & _).
  destruct (Hcover post1 Hin1) as (p1 & c1 & _ & Hp1 & Hc1 & _).
  destruct (Hcover post2 Hin2) as (p2 & c2 & _ & Hp2 & Hc2 & _).
  exists p1, p2, c1, c2. rewrite Htopics. repeat (split; [done|]).
  destruct (updateForumData_threadIds _ _ _ _ _ _ Hindex post1 Hin1)
    as (p1' & key1 & Hp1' & Hkey1).
  destruct (updateForumData_threadIds _ _ _ _ _ _ Hindex post2 Hin2)
    as (p2' & key2 & Hp2' & Hkey2).
  rewrite Hp1 in Hp1'. injection Hp1' as <-.
  rewrite Hp2 in Hp2'. injection Hp2' as <-.
  unfold threadKey in Hc1, Hc2. rewrite Hkey1 in Hc1. rewrite Hkey2 in Hc2.
  rewrite Hkey1, Hkey2. simpl in Hc1, Hc2. split.
  - intros <-. f_equal. by eapply (ok_topic_injective r1 Hok1).
  - intros [= <-]. congruence.
Qed.

(** ** Every post inside its thread *)

(** Where [parseContent] leaves the node of a post whose id no other post
    of the list has: directly below the container of its thread when it is
    a top-level post or its parent has no node, and else in the [replies]
    area of the node of its parent. *)
Lemma post_node_placed (env : host) (fuel : nat) (now : Z) (context : string)
    (posts : list loc) (s s1 : state) (r : render) (a : assembly)
    (post : loc) (p : Post) :
  parseContent env fuel now posts context s = Ok (s1, r, a) →
  post ∈ posts → heap s1 !! post = Some p →
  (∀ q pq, q ∈ posts → heap s1 !! q = Some pq → post_id pq = post_id p → q = post) →
  ∃ topicDiv postDiv,
    topicDivs r !! threadKey p = Some topicDiv
    ∧ postDivs r !! post_id p = Some postDiv
    ∧ (post_parent p = -1 ∨ postDivs r !! post_parent p = None →
       childOf (adom a) postDiv topicDiv)
    ∧ (∀ parentDiv,
         post_parent p ≠ -1 → postDivs r !! post_parent p = Some parentDiv →
         ∃ area, childOf (adom a) postDiv area ∧ childOf (adom a) area parentDiv).
Proof.
  intros (r1 & Hrender & Hloop & Hassemble)%parseContent_Ok Hin Hp Hunique.
  destruct (renderPosts_Ok _ _ _ _ _ _ _ _ Hrender) as (Hindex & Hok1 & Hcover).
  destruct (renderPosts_document _ _ _ _ _ _ _ _ Hrender) as (_ & Hreplies1 & _).
  destruct (reparent_loop_Ok _ _ _ _ Hloop Hok1) as (Hok & Hposts & Htopics & Hnext).
  destruct (Hcover post Hin) as (p' & topicDiv & postDiv & Hp' & Htopic & Hdiv).
  rewrite Hp in Hp'. injection Hp' as <-.
  destruct (filterAndAssembleForumThreads_Ok env s1 posts r
              (applyFilter (getOptionsForContext context))
              (showThreadCount (getOptionsForContext context)) Hok)
    as (a' & containers & Hassemble' & _ & Hall & _ & _ & Hframe).
  { intros q Hq. destruct (Hcover q Hq) as (pq & c & _ & Hpq & Hc & _).
    exists pq, c. split; [done|congruence]. }
  rewrite Hassemble in Hassemble'. injection Hassemble' as <-.
  assert (postDiv ∉ containers) as Hout.
  { intros (key & _ & Hkey)%(Forall2_elem_of_r _ _ _ _ Hall).
    rewrite Htopics in Hkey. by eapply (ok_topic_post r1 Hok1). }
  destruct (Hframe postDiv) as [Hsame Hkids]; [|done|].
  { pose proof (ok_post_created r1 Hok1 _ _ Hdiv). lia. }
  exists topicDiv, postDiv. rewrite Htopics, Hposts.
  split; [done|]. split; [done|]. split.
  - intros Hdirect.
    assert (parentNode (rdom r) !! postDiv = Some topicDiv
            ∧ postDiv ∈ children (rdom r) topicDiv) as [Hattached Hchild].
    { destruct (decide (post_parent p = -1)) as [Htop|Hreply].
      - apply (reparent_loop_top _ _ _ _ post p topicDiv postDiv Hloop Hok1);
          try done. by left.
      - destruct Hdirect as [?|Hnone]; [done|].
        apply (reparent_loop_keeps _ _ _ _ post p topicDiv postDiv Hloop Hok1);
          try done. by left. }
    split; [congruence|by apply Hkids].
  - intros parentDiv Hreply Hparent.
    destruct (reparent_loop_nests _ _ _ _ post p parentDiv postDiv Hloop Hok1)
      as (_ & Hareas & area & Harea & Hplace & Hchild); try done; [|by left|].
    { intros n area'. by rewrite Hreplies1, lookup_empty. }
    destruct (Hareas _ _ Harea) as [Hplace' Hchild'].
    assert (area ∉ containers) as Hout'.
    { intros (key & _ & Hkey)%(Forall2_elem_of_r _ _ _ _ Hall).
      by eapply (ok_topic_area r Hok). }
    destruct (Hframe area) as [Hsame' Hkids']; [by eapply ok_area_created|done|].
    exists area. split; (split; [congruence|]); [by apply Hkids|by apply Hkids'].
Qed.

(** After indexing, full set or not, a post of the list has the thread id
    of the post that the index holds under its parent, when that post is
    of the list too. *)
Lemma threadId_of_parent (fuel : nat) (now : Z) (posts : list loc) (fullSet : bool)
    (s s' : state) (post parentPost : loc) (p pq : Post) :
  updateForumData fuel now posts fullSet s = Ok s' →
  post ∈ posts → parentPost ∈ posts →
  heap s' !! post = Some p → heap s' !! parentPost = Some pq →
  0 ≤ post_parent p → postHash s' !! post_parent p = Some parentPost →
  post_threadId pq = post_threadId p.
Proof.
  intros (_ & _ & _ & Hall)%updateForumData_Ok Hin Hin' Hp Hpq Hge Hparent.
  destruct (Hall post Hin) as (root & p' & r & Hwalk & Hp' & Hr & Hthread).
  rewrite Hp in Hp'. injection Hp' as <-.
  destruct (Hall parentPost Hin') as (root' & pq' & r' & Hwalk' & Hpq' & Hr' & Hthread').
  rewrite Hpq in Hpq'. injection Hpq' as <-. rewrite Hthread, Hthread'.
  apply getOldestPostInThread_sound in Hwalk, Hwalk'.
  inversion Hwalk as [? p0 Hp0 Hend|? p0 parentPost0 ? Hp0 Hge0 Hparent0 Hrest]; subst;
    rewrite Hp in Hp0; injection Hp0 as <-.
  - destruct Hend as [?|Hnone]; [lia|congruence].
  - rewrite Hparent in Hparent0. injection Hparent0 as <-.
    rewrite (rootAncestor_deterministic _ _ _ _ _ Hrest Hwalk') in Hr. congruence.
Qed.

(** The post that the index holds, after indexing, under the id of a post
    of the list, when no other post of the list has this id. *)
Lemma postHash_of_list (fuel : nat) (now : Z) (posts : list loc) (fullSet : bool)
    (s s' : state) (q : loc) (pq : Post) :
  updateForumData fuel now posts fullSet s = Ok s' →
  q ∈ posts → heap s' !! q = Some pq →
  (∀ q', q' ∈ posts → post_id <$> heap s' !! q' = Some (post_id pq) → q' = q) →
  postHash s' !! post_id pq = Some q.
Proof.
  intros (_ & Hph & _)%updateForumData_Ok Hin Hpq Hunique. rewrite Hph.
  assert (q ∈ postsWithId (heap s') (post_id pq) posts) as Hq
    by (apply list_elem_of_filter; by rewrite Hpq).
  destruct (last _) as [x|] eqn:Hlast.
  - f_equal. apply last_elem_of, list_elem_of_filter in Hlast as [Hid Hx].
    by apply Hunique.
  - apply last_None in Hlast. rewrite Hlast in Hq. by apply elem_of_nil in Hq.
Qed.

(** After indexing, the index holds a post under the id of every post of
    the list. *)
Lemma postHash_not_of_list (fuel : nat) (now : Z) (posts : list loc) (fullSet : bool)
    (s s' : state) (id : Z) (q : loc) (pq : Post) :
  updateForumData fuel now posts fullSet s = Ok s' →
  q ∈ posts → heap s' !! q = Some pq → post_id pq = id →
  is_Some (postHash s' !! id).
Proof.
  intros (_ & Hph & _)%updateForumData_Ok Hin Hpq Hid. rewrite Hph.
  assert (q ∈ postsWithId (heap s') id posts) as Hq
    by (apply list_elem_of_filter; by rewrite Hpq, <- Hid).
  destruct (last _) as [x|] eqn:Hlast; [done|].
  apply last_None in Hlast. rewrite Hlast in Hq. by apply elem_of_nil in Hq.
Qed.

(** X26: in the document that [parseContent] returns, the node of every
    post of the list is inside the container of the thread of the post: a
    chain of child nodes leads from the container down to the node;
    provided that the posts of the list have distinct ids, none of them
    negative. *)
Theorem post_inside_its_thread (env : host) (fuel : nat) (now : Z) (context : string)
    (posts : list loc) (s s1 : state) (r : render) (a : assembly)
    (post : loc) (p : Post) :
  parseContent env fuel now posts context s = Ok (s1, r, a) →
  (∀ post1 post2 p1 p2, post1 ∈ posts → post2 ∈ posts →
     heap s1 !! post1 = Some p1 → heap s1 !! post2 = Some p2 →
     post_id p1 = post_id p2 → post1 = post2) →
  (∀ q pq, q ∈ posts → heap s1 !! q = Some pq → 0 ≤ post_id pq) →
  post ∈ posts → heap s1 !! post = Some p →
  ∃ topicDiv postDiv,
    topicDivs r !! threadKey p = Some topicDiv
    ∧ postDivs r !! post_id p = Some postDiv
    ∧ tc (childOf (adom a)) postDiv topicDiv.
Proof.
  intros Hrun Hdistinct Hids Hin Hp.
  pose proof Hrun as (r1 & Hrender & Hloop & _)%parseContent_Ok.
  destruct (renderPosts_Ok _ _ _ _ _ _ _ _ Hrender) as (Hindex & Hok1 & Hcover).
  destruct (renderPosts_document _ _ _ _ _ _ _ _ Hrender) as (_ & _ & Hnodes).
  destruct (reparent_loop_Ok _ _ _ _ Hloop Hok1) as (Hok & Hposts & _).
  rewrite <- Hposts in Hnodes.
  destruct (updateForumData_Ok _ _ _ _ _ _ Hindex) as (_ & _ & _ & Hall).
  destruct (Hall post Hin) as (root & _ & _ & Hwalk & _).
  apply getOldestPostInThread_sound in Hwalk.
  revert p Hin Hp.
  induction Hwalk as [post p0 Hp0 Hend|post p0 parentPost root Hp0 Hge Hparent _ IH];
    intros p Hin Hp; rewrite Hp in Hp0; injection Hp0 as <-.
  - destruct (post_node_placed _ _ _ _ _ _ _ _ _ post p Hrun Hin Hp)
      as (topicDiv & postDiv & Htopic & Hdiv & Hdirect & _).
    { intros q pq Hq Hpq Hid. by apply (Hdistinct q post pq p). }
    exists topicDiv, postDiv. split; [done|]. split; [done|].
    apply tc_once, Hdirect.
    destruct (postDivs r !! post_parent p) as [n|] eqn:Hn; [|by right].
    destruct (Hnodes _ _ Hn) as (q & pq & Hq & Hpq & Hid).
    destruct Hend as [Hneg|Hnone].
    + pose proof (Hids q pq Hq Hpq). lia.
    + destruct (postHash_not_of_list _ _ _ _ _ _ _ q pq Hindex Hq Hpq Hid) as [x Hx].
      congruence.
  - destruct (post_node_placed _ _ _ _ _ _ _ _ _ post p Hrun Hin Hp)
      as (topicDiv & postDiv & Htopic & Hdiv & Hdirect & Hnested).
    { intros q pq Hq Hpq Hid. by apply (Hdistinct q post pq p). }
    exists topicDiv, postDiv. split; [done|]. split; [done|].
    destruct (postDivs r !! post_parent p) as [parentDiv|] eqn:Hn;
      [|apply tc_once, Hdirect; by right].
    destruct (Hnodes _ _ Hn) as (q & pq & Hq & Hpq & Hid).
    assert (parentPost = q) as ->.
    { rewrite <- Hid in Hparent.
      rewrite (postHash_of_list _ _ _ _ _ _ q pq Hindex Hq Hpq) in Hparent;
        [by injection Hparent|].
      intros q' Hq' Hid'. destruct (heap s1 !! q') as [pq'|] eqn:Hpq'; [|done].
      injection Hid' as Hid'. by apply (Hdistinct q' q pq' pq). }
    destruct (IH pq Hq Hpq) as (topicDiv' & parentDiv' & Htopic' & Hdiv' & Hchain).
    rewrite Hid, Hn in Hdiv'. injection Hdiv' as <-.
    assert (threadKey pq = threadKey p) as Hkey.
    { unfold threadKey. f_equal.
      by apply (threadId_of_parent _ _ _ _ _ _ post q p pq Hindex). }
    rewrite Hkey, Htopic in Htopic'. injection Htopic' as <-.
    destruct (Hnested parentDiv) as (area & Hfirst & Hsecond); [lia|done|].
    eapply tc_l; [exact Hfirst|]. eapply tc_l; [exact Hsecond|exact Hchain].
Qed.

(** ** Indexing returns *)

(** Indexing returns when the walk from each post of the list returns in
    the index that [updatePostHash] builds. *)
Lemma updateForumData_returns (fuel : nat) (now : Z) (posts : list loc)
    (fullSet : bool) (s : state) :
  (∀ post, post ∈ posts →
     ∃ root, getOldestPostInThread fuel
               (setPostHash (indexAfter fullSet s posts) s) post = Ok root) →
  ∃ s', updateForumData fuel now posts fullSet s = Ok s'.
Proof.
  intros Hwalks.
  assert (∀ post, post ∈ posts → is_Some (heap s !! post)) as Hposts.
  { intros post Hin. destruct (Hwalks post Hin) as [root Hroot].
    by destruct (rootAncestor_in_store _ _ _ _
                   (getOldestPostInThread_sound _ _ _ _ Hroot)). }
  unfold updateForumData.
  set (s0 := if fullSet then setThreadHash ∅ (setPostHash ∅ s) else s).
  assert (heap s0 = heap s) as Hheap by (unfold s0; by destruct fullSet).
  assert (indexInto (heap s0) (postHash s0) posts = indexAfter fullSet s posts) as Hph
    by (unfold s0, indexAfter; by destruct fullSet).
  rewrite updatePostHash_spec by (by rewrite Hheap). simpl. rewrite Hph.
  destruct (addThreadIds_returns fuel posts
              (setPostHash (indexAfter fullSet s posts) s0)) as [s2 Hids].
  { intros post Hin. destruct (Hwalks post Hin) as [root Hroot].
    exists root. rewrite <- Hroot.
    apply getOldestPostInThread_shape; simpl; [by rewrite Hheap|done]. }
  rewrite Hids. simpl.
  destruct (addThreadIds_Ok _ _ _ _ Hids) as (_ & _ & _ & _ & _ & Hall & _).
  rewrite updateThreadHash_spec; [by eexists|].
  intros post Hin. destruct (Hall post Hin) as (root & r & p & _ & _ & _ & Hp).
  by eexists.
Qed.

(** Indexing returns when no cycle of parent links can be reached from a
    post of the list and the number of turns allowed to a walk is at least
    the size of the index. *)
Lemma updateForumData_acyclic (fuel : nat) (now : Z) (posts : list loc)
    (fullSet : bool) (s : state) :
  indexInStore (heap s) (indexAfter fullSet s posts) →
  (∀ post, post ∈ posts → is_Some (heap s !! post)) →
  (∀ post, post ∈ posts → noCycleFrom (heap s) (indexAfter fullSet s posts) post) →
  (size (indexAfter fullSet s posts) ≤ fuel)%nat →
  ∃ s', updateForumData fuel now posts fullSet s = Ok s'.
Proof.
  intros Hstore Hposts Hacyclic Hfuel. apply updateForumData_returns.
  intros post Hin.
  apply (getOldestPostInThread_enough (setPostHash (indexAfter fullSet s posts) s));
    simpl; auto.
Qed.

(** ** Replies without a parent node *)

(** The container of the thread of a post of the list is a child of the
    fragment that [parseContent] returns, when the thread passes the
    filter. *)
Lemma container_in_fragment (env : host) (fuel : nat) (now : Z) (context : string)
    (posts : list loc) (s s1 : state) (r : render) (a : assembly)
    (post : loc) (p : Post) (topicDiv : node) :
  parseContent env fuel now posts context s = Ok (s1, r, a) →
  post ∈ posts → heap s1 !! post = Some p →
  topicDivs r !! threadKey p = Some topicDiv →
  threadKey p ∈ getFilteredThreadIds env (heap s1) (threadHash s1)
                  (applyFilter (getOptionsForContext context)) →
  topicDiv ∈ children (adom a) (forumDiv a).
Proof.
  intros (r1 & Hrender & Hloop & Hassemble)%parseContent_Ok Hin Hp Htopic Hpass.
  destruct (renderPosts_Ok _ _ _ _ _ _ _ _ Hrender) as (Hindex & Hok1 & Hcover).
  destruct (reparent_loop_Ok _ _ _ _ Hloop Hok1) as (Hok & Hposts & Htopics & Hnext).
  destruct (filterAndAssembleForumThreads_Ok env s1 posts r
              (applyFilter (getOptionsForContext context))
              (showThreadCount (getOptionsForContext context)) Hok)
    as (a' & containers & Hassemble' & Hchildren & Hall & _).
  { intros q Hq. destruct (Hcover q Hq) as (pq & c & _ & Hpq & Hc & _).
    exists pq, c. split; [done|congruence]. }
  rewrite Hassemble in Hassemble'. injection Hassemble' as <-.
  destruct (updateForumData_threadIds _ _ _ _ _ _ Hindex post Hin)
    as (p' & key & Hp' & Hkey).
  rewrite Hp in Hp'. injection Hp' as <-.
  assert (threadKey p = key) as Hthread by (unfold threadKey; by rewrite Hkey).
  assert (key ∈ threadIdsOf (heap s1) posts) as Hids.
  { apply list_elem_of_omap. exists post. split; [done|]. by rewrite Hp. }
  rewrite Hthread in Hpass, Htopic.
  destruct (Forall2_elem_of_l _ _ _ key Hall) as (c & Hc & Hkeyc).
  { apply assembleIds_elem_of. by split. }
  rewrite Htopic in Hkeyc. injection Hkeyc as <-.
  rewrite Hchildren. apply elem_of_app. by right.
Qed.

(** C4: for every list of posts with distinct ids, none of them negative
    (and with subjects, in the context "main"), from which no cycle of
    parent links can be reached, [parseContent] returns, so that no turn
    of its loops throws; and in the document that it returns, the node of a
    reply whose parent is no post of the list, so that the parent has no
    node among the post nodes, is a child of the container of the thread
    of the reply, which is in the returned fragment when the thread passes
    the filter. *)
Theorem orphan_reply_attached (env : host) (fuel : nat) (now : Z)
    (context : string) (posts : list loc) (s : state) (post : loc) (p0 : Post) :
  let ph := indexAfter (fullSet (getOptionsForContext context)) s posts in
  indexInStore (heap s) ph →
  (∀ q, q ∈ posts → is_Some (heap s !! q)) →
  (∀ q, q ∈ posts → noCycleFrom (heap s) ph q) →
  (size ph ≤ fuel)%nat →
  (∀ post1 post2 p1 p2,
     post1 ∈ posts → post2 ∈ posts →
     heap s !! post1 = Some p1 → heap s !! post2 = Some p2 →
     post_id p1 = post_id p2 → post1 = post2) →
  (∀ q pq, q ∈ posts → heap s !! q = Some pq → 0 ≤ post_id pq) →
  (context = "main" →
   ∀ q pq, q ∈ posts → heap s !! q = Some pq → post_subject pq ≠ None) →
  post ∈ posts → heap s !! post = Some p0 →
  post_parent p0 ≠ -1 →
  (∀ q pq, q ∈ posts → heap s !! q = Some pq → post_id pq ≠ post_parent p0) →
  ∃ s1 r a p topicDiv postDiv,
    parseContent env fuel now posts context s = Ok (s1, r, a)
    ∧ heap s1 !! post = Some p
    ∧ postDivs r !! post_parent p0 = None
    ∧ topicDivs r !! threadKey p = Some topicDiv
    ∧ postDivs r !! post_id p0 = Some postDiv
    ∧ parentNode (adom a) !! postDiv = Some topicDiv
    ∧ postDiv ∈ children (adom a) topicDiv
    ∧ (threadKey p ∈ getFilteredThreadIds env (heap s1) (threadHash s1)
                       (applyFilter (getOptionsForContext context)) →
       topicDiv ∈ children (adom a) (forumDiv a)).
Proof.
  intros ph Hstore Hstored Hacyclic Hfuel Hdistinct Hids Hsubjects Hin Hp0 Hreply Horphan.
  destruct (updateForumData_acyclic fuel now posts
              (fullSet (getOptionsForContext context)) s Hstore Hstored Hacyclic Hfuel)
    as [s1 Hindex].
  destruct (updateForumData_Ok _ _ _ _ _ _ Hindex) as (Hshape & _).
  assert (∀ q pq, heap s1 !! q = Some pq →
            ∃ pq0, heap s !! q = Some pq0 ∧ post_id pq = post_id pq0
                   ∧ post_parent pq = post_parent pq0
                   ∧ post_subject pq = post_subject pq0) as Hback.
  { intros q pq Hpq.
    destruct (sameShape_lookup _ _ _ _ (sameShape_sym _ _ Hshape) Hpq)
      as (pq0 & Hpq0 & Herase).
    exists pq0. split; [done|]. unfold eraseThreadId in Herase.
    injection Herase as H1 H2 H3 H4 H5 H6. auto. }
  destruct (parseContent_total env fuel now posts context s s1 Hindex)
    as (r & a & Hrun).
  { intros post1 post2 p1 p2 H1 H2 Hp1 Hp2 Hid.
    destruct (Hback _ _ Hp1) as (q1 & Hq1 & Hid1 & _).
    destruct (Hback _ _ Hp2) as (q2 & Hq2 & Hid2 & _).
    apply (Hdistinct post1 post2 q1 q2); try done. congruence. }
  { intros q pq Hq Hpq. destruct (Hback _ _ Hpq) as (pq0 & Hpq0 & -> & _).
    by apply (Hids q). }
  { intros Hmain q pq Hq Hpq. destruct (Hback _ _ Hpq) as (pq0 & Hpq0 & _ & _ & ->).
    by apply (Hsubjects Hmain q). }
  pose proof Hrun as (r1 & Hrender & Hloop & _)%parseContent_Ok.
  destruct (renderPosts_Ok _ _ _ _ _ _ _ _ Hrender) as (_ & Hok1 & Hcover).
  destruct (renderPosts_document _ _ _ _ _ _ _ _ Hrender) as (_ & _ & Hnodes).
  destruct (reparent_loop_Ok _ _ _ _ Hloop Hok1) as (_ & Hposts & _).
  destruct (Hcover post Hin) as (p & _ & _ & Hp & _).
  destruct (Hback _ _ Hp) as (p0' & Hp0' & Hid & Hparent & _).
  rewrite Hp0 in Hp0'. injection Hp0' as <-.
  assert (postDivs r !! post_parent p = None) as Hnone.
  { rewrite Hposts. destruct (postDivs r1 !! post_parent p) as [n|] eqn:Hn; [|done].
    destruct (Hnodes _ _ Hn) as (q & pq & Hq & Hpq & Hidq).
    destruct (Hback _ _ Hpq) as (pq0 & Hpq0 & Hidq0 & _).
    destruct (Horphan q pq0 Hq Hpq0). congruence. }
  destruct (post_node_placed _ _ _ _ _ _ _ _ _ post p Hrun Hin Hp)
    as (topicDiv & postDiv & Htopic & Hdiv & Hdirect & _).
  { intros q pq Hq Hpq Hidq.
    destruct (Hback _ _ Hpq) as (pq0 & Hpq0 & Hidq0 & _).
    apply (Hdistinct q post pq0 p0); try done. congruence. }
  destruct Hdirect as [Hplace Hchild]; [by right|].
  exists s1, r, a, p, topicDiv, postDiv. rewrite <- Hparent, <- Hid.
  repeat (split; [done|]).
  by apply (container_in_fragment env fuel now context posts s s1 r a post p).
Qed.

(** C4 at a reply whose parent was deleted: of the two posts received, post
    9 is a reply to post 5, which is not among them. *)
Lemma orphan_reply_attached_example :
  ∃ s1 r a topicDiv postDiv,
    parseContent exampleEnv 2 0 orphanPosts "main" (initialState orphanHeap)
      = Ok (s1, r, a)
    ∧ heap s1 !! 2%positive = Some (setThreadId "fr|9" post9)
    ∧ postDivs r !! 5 = None
    ∧ topicDivs r !! "fr|9" = Some topicDiv
    ∧ postDivs r !! 9 = Some postDiv
    ∧ parentNode (adom a) !! postDiv = Some topicDiv
    ∧ postDiv ∈ children (adom a) topicDiv
    ∧ topicDiv ∈ children (adom a) (forumDiv a).
Proof.
  assert (∀ q : loc, q ∈ orphanPosts → q = 2%positive ∨ q = 1%positive) as Hcases.
  { intros q Hq. apply elem_of_cons in Hq as [->|Hq]; [by left|].
    apply list_elem_of_singleton in Hq as ->. by right. }
  assert (parseContent exampleEnv 2 0 orphanPosts "main" (initialState orphanHeap)
          = Ok (_, _, _)) as Hrun' by (vm_compute; reflexivity).
  destruct (orphan_reply_attached exampleEnv 2 0 "main" orphanPosts
              (initialState orphanHeap) 2%positive post9)
    as (s1 & r & a & p & topicDiv & postDiv & Hrun & Hp & Hnone & Htopic & Hdiv
        & Hparent & Hchild & Hout).
  - intros k l Hk. destruct (indexOf_lookup_posts _ _ _ _ Hk) as (_ & pl & Hpl & _).
    by exists pl.
  - intros q [->| ->]%Hcases; eexists; vm_compute; reflexivity.
  - intros q [->| ->]%Hcases.
    + apply (rootAncestor_noCycle _ _ _ 2%positive).
      eapply root_here; [by vm_compute|by right].
    + apply (rootAncestor_noCycle _ _ _ 1%positive).
      eapply root_here; [by vm_compute|by left].
  - vm_compute. lia.
  - intros post1 post2 p1 p2 [->| ->]%Hcases [->| ->]%Hcases;
      vm_compute; intros [= <-] [= <-]; first [intros _; reflexivity|intros [=]].
  - intros q pq [->| ->]%Hcases; vm_compute; by intros [= <-].
  - intros _ q pq [->| ->]%Hcases; vm_compute; by intros [= <-].
  - by left.
  - vm_compute; reflexivity.
  - vm_compute; discriminate.
  - intros q pq [->| ->]%Hcases; vm_compute; by intros [= <-].
  - rewrite Hrun' in Hrun. injection Hrun as <- <- <-.
    vm_compute in Hp. injection Hp as <-.
    eexists _, _, _, topicDiv, postDiv. split; [exact Hrun'|].
    split; [vm_compute; reflexivity|]. split; [exact Hnone|].
    split; [exact Htopic|]. split; [exact Hdiv|]. split; [exact Hparent|].
    split; [exact Hchild|]. apply Hout.
    vm_compute. first [by left|right; by left].
Defined.

(** ** The further theorems at the examples *)

Lemma cycle_links :
  parentLink (heap cycleState) (postHash cycleState) 1%positive 2%positive
  ∧ parentLink (heap cycleState) (postHash cycleState) 2%positive 1%positive.
Proof.
  split; eexists; (split; [vm_compute; reflexivity|]);
    (split; [by vm_compute|vm_compute; reflexivity]).
Qed.

(** X1 at two posts that are each the parent of the other. *)
Lemma getOldestPostInThread_cycle_example :
  getOldestPostInThread 100 cycleState 1%positive = OutOfFuel.
Proof.
  apply (getOldestPostInThread_cycle cycleState 1%positive 1%positive).
  - apply rtc_refl.
  - destruct cycle_links as [H12 H21].
    eapply tc_l; [exact H12|]. apply tc_once. exact H21.
Defined.

(** X2 at the same two posts. *)
Lemma updateForumData_cycle_example :
  ∃ outcome,
    updateForumData 100 0 [1%positive; 2%positive] true (initialState cycleHeap) = outcome
    ∧ ∀ s', outcome ≠ Ok s'.
Proof.
  eexists. split; [reflexivity|].
  apply (updateForumData_cycle (initialState cycleHeap) 0 [1%positive; 2%positive]
           1%positive 1%positive).
  - by left.
  - apply rtc_refl.
  - destruct cycle_links as [H12 H21].
    eapply tc_l; [exact H12|]. apply tc_once. exact H21.
Defined.

(** X3 at the reply of the example, whose oldest post is post 5. *)
Lemma getOldestPostInThread_fixpoint_example :
  (∃ r, heap indexedState !! 1%positive = Some r
        ∧ (post_parent r < 0 ∨ postHash indexedState !! post_parent r = None))
  ∧ ∀ fuel', getOldestPostInThread fuel' indexedState 1%positive = Ok 1%positive.
Proof.
  apply (getOldestPostInThread_fixpoint 2 indexedState 2%positive 1%positive).
  reflexivity.
Defined.

(** X4 at two posts with the id 5: the second one is indexed. *)
Lemma postHash_last_wins_example :
  ∃ s',
    updateForumData 2 0 [1%positive; 2%positive] true (initialState twinHeap) = Ok s'
    ∧ postHash s' !! 5 = last (postsWithId (heap s') 5 [1%positive; 2%positive])
    ∧ postHash s' !! 5 = Some 2%positive.
Proof.
  assert (updateForumData 2 0 [1%positive; 2%positive] true (initialState twinHeap) = Ok _)
    as Hrun by (vm_compute; reflexivity).
  eexists. split; [exact Hrun|]. split.
  - exact (postHash_last_wins 2 0 [1%positive; 2%positive] (initialState twinHeap) _ 5 Hrun).
  - vm_compute. reflexivity.
Defined.

(** X5 at the reply of the example. *)
Lemma threadId_follows_parent_example :
  (∀ parentPost,
     0 ≤ post_parent (setThreadId "fr|5" post9) →
     postHash indexedState !! post_parent (setThreadId "fr|5" post9) = Some parentPost →
     threadIdIn (heap indexedState) parentPost
     = Some (post_threadId (setThreadId "fr|5" post9)))
  ∧ (post_parent (setThreadId "fr|5" post9) < 0
     ∨ postHash indexedState !! post_parent (setThreadId "fr|5" post9) = None →
     post_threadId (setThreadId "fr|5" post9)
     = Some (post_locale (setThreadId "fr|5" post9) +:+ "|"
             +:+ pretty (post_id (setThreadId "fr|5" post9)))).
Proof.
  apply (threadId_follows_parent 2 1000 examplePosts loadedState indexedState 2%positive).
  - vm_compute. reflexivity.
  - right. by left.
  - vm_compute. reflexivity.
Defined.

(** X6 at the first post of the example, indexed once more. *)
Lemma updateForumData_accumulates_example :
  ∃ s',
    updateForumData 2 2000 [1%positive] false indexedState = Ok s'
    ∧ (∀ id post, postHash indexedState !! id = Some post →
         is_Some (postHash s' !! id)
         ∧ (postsWithId (heap s') id [1%positive] = [] → postHash s' !! id = Some post))
    ∧ (∀ key thread, threadHash indexedState !! key = Some thread →
         threadHash s' !! key
         = Some (thread ++ postsOfThread (heap s') key [1%positive])).
Proof.
  assert (updateForumData 2 2000 [1%positive] false indexedState = Ok _)
    as Hrun by (vm_compute; reflexivity).
  eexists. split; [exact Hrun|].
  exact (updateForumData_accumulates 2 2000 [1%positive] indexedState _ Hrun).
Defined.

(** X7 at the reply of the example. *)
Lemma updateForumData_shown_again_example :
  ∃ s2 key thread,
    updateForumData 2 2000 [2%positive] false indexedState = Ok s2
    ∧ heap s2 = heap indexedState ∧ postHash s2 = postHash indexedState
    ∧ post_threadId (setThreadId "fr|5" post9) = Some key
    ∧ threadHash indexedState !! key = Some thread ∧ 2%positive ∈ thread
    ∧ threadHash s2 = <[key := thread ++ [2%positive]]> (threadHash indexedState).
Proof.
  apply (updateForumData_shown_again 2 1000 2000 examplePosts loadedState indexedState
           2%positive (setThreadId "fr|5" post9)).
  - vm_compute. reflexivity.
  - right. by left.
  - vm_compute. reflexivity.
  - vm_compute. reflexivity.
Defined.

(** X8 at a reply of the poster, who is no member of the technical
    committee, to an open thread. *)
Lemma getStatusOptions_close_example :
  ∃ options,
    getStatusOptions exampleEnv indexedState true (Some indexedPost5) None = Ok options
    ∧ ("Close" ∈ verbs options ↔
       true = true
       ∧ threadIsClosed exampleEnv indexedState (Some indexedPost5) = Ok false
       ∧ userIsTC exampleEnv = true).
Proof.
  apply (getStatusOptions_close exampleEnv indexedState true (Some indexedPost5) None).
  intros _. discriminate.
Defined.

(** X27 at a reply of user 100 to the request of user 101. *)
Lemma getStatusOptions_allowed_example :
  ∃ options,
    getStatusOptions exampleEnv indexedState true (Some requestPost) None = Ok options
    ∧ "Discuss" ∈ verbs options
    ∧ ("Request" ∈ verbs options ↔ true = false ∧ truthy None = true)
    ∧ ("Agree" ∈ verbs options
       ↔ true = true ∧ post_status <$> Some requestPost = Some "Request")
    ∧ ("Decline" ∈ verbs options
       ↔ true = true ∧ post_status <$> Some requestPost = Some "Request").
Proof.
  apply (getStatusOptions_allowed exampleEnv indexedState true (Some requestPost) None).
  intros _. discriminate.
Defined.

(** X9 at a reply to a request. *)
Lemma getStatusOptions_order_example :
  sublist (verbs [("Discuss", "Discuss"); ("Agree", "Agree"); ("Decline", "Decline")])
    ["Request"; "Discuss"; "Agree"; "Decline"; "Close"]
  ∧ Forall (λ option, option.1 = option.2)
      [("Discuss", "Discuss"); ("Agree", "Agree"); ("Decline", "Decline")].
Proof.
  apply (getStatusOptions_order exampleEnv indexedState true (Some requestPost) None).
  reflexivity.
Defined.

(** X11 at a text with a greater-than sign. *)
Lemma post2text_plain_example : post2text (Some "a > b") = "a > b".
Proof. apply post2text_plain; reflexivity. Defined.

(** X12 at a reply to the reply of the example. *)
Lemma makePostSubject_stable_example :
  makePostSubject true (Some replyRe) "ignored" = makePostSubject true (Some post5) "ignored".
Proof. apply makePostSubject_stable. reflexivity. Defined.

(** X13 at the button "Request" of a user who voted for "Wert". *)
Lemma newPostButtonClick_opens_example :
  ∃ w,
    newPostButtonClick exampleEnv ∅ 2 0 "Request" "fr" false "1234abcd" "code"
      (Some "Wert") None indexedState = Ok (indexedState, w)
    ∧ window_forumDiv w = None
    ∧ window_html w = makePostHtml (Some "Request") "fr" (Some "1234abcd") (-1)
    ∧ ("Request" = "Discuss" → window_text w = EmptyString)
    ∧ ("Request" = "Request" →
       ∃ value, Some "Wert" = Some value ∧ value ≠ EmptyString
                ∧ window_text w = "Please consider voting for " +:+ value +:+ newline).
Proof.
  apply (newPostButtonClick_opens exampleEnv ∅ 2 0 indexedState
           [("Request", "Request"); ("Discuss", "Discuss")]).
  - reflexivity.
  - by left.
Defined.

(** X14 at the post with the id -5. *)
Lemma replyButtonClick_without_id_example :
  replyButtonClick exampleEnv ∅ 2 0 1%positive "Discuss" (initialState negativeHeap)
  = Ok (initialState negativeHeap,
        mkPostWindow
          (makePostHtml (orElse (Some "Discuss") Some None) EmptyString
             (Some EmptyString) (-1))
          EmptyString
          (prefillPostText (orElse (Some "Discuss") Some None) None)
          None).
Proof.
  apply (replyButtonClick_without_id exampleEnv ∅ 2 0 (initialState negativeHeap)
           1%positive postMinus5).
  - reflexivity.
  - by vm_compute.
Defined.

(** X15 at the date of the documentation. *)
Lemma fmtDateTime_format_example :
  fmtDateTime exampleDate = "2018-05-16 13:45"
  ∧ String.length (fmtDateTime exampleDate) = 16%nat
  ∧ String.substring 4 1 (fmtDateTime exampleDate) = "-"
  ∧ String.substring 7 1 (fmtDateTime exampleDate) = "-"
  ∧ String.substring 10 1 (fmtDateTime exampleDate) = " "
  ∧ String.substring 13 1 (fmtDateTime exampleDate) = ":".
Proof.
  split; [reflexivity|].
  apply (fmtDateTime_format exampleDate).
  unfold calendarDate. simpl. lia.
Defined.

(** X17 at a switch from "fr" to "de". *)
Lemma getForumSummaryHtml_other_locale_example :
  ∃ s',
    getForumSummaryHtml examplePage (Some "de") indexedState
    = ("<div id='forumSummary'>" +:+ newline
       +:+ "<p>Loading Forum Summary...</p>" +:+ newline
       +:+ "</div>" +:+ newline,
       s',
       if cldrStAjax examplePage then Some (getLoadForumUrl examplePage s') else None)
    ∧ forumLocale s' = Some "de" ∧ forumUpdateTime s' = None ∧ postHash s' = ∅.
Proof.
  apply (getForumSummaryHtml_other_locale examplePage (Some "de") indexedState).
  discriminate.
Defined.

(** X16 at the posts of the example. *)
Lemma summaryLoadHandler_shows_counts_example :
  ∃ s',
    summaryLoadHandler exampleEnv examplePage 2 1000 true (Some examplePosts)
      (initialState exampleHeap)
    = Ok (s',
          Some ("<div id='forumSummary'>" +:+ newline
                +:+ (if decide (1000 = 0) then "<p>Load failed</p>n"
                     else "<ul>" +:+ newline
                          +:+ countsHtml (getFilteredThreadCounts examplePage)
                          +:+ "</ul>" +:+ newline)
                +:+ "</div>" +:+ newline),
          None).
Proof.
  assert (parseContent exampleEnv 2 1000 examplePosts "summary" (initialState exampleHeap)
          = Ok (_, _, _)) as Hrun by (vm_compute; reflexivity).
  eexists.
  exact (summaryLoadHandler_shows_counts exampleEnv examplePage 2 1000 examplePosts
           (initialState exampleHeap) _ _ _ Hrun).
Defined.

(** X18 at three posts of two threads. *)
Lemma parseContent_returns_example :
  ∃ s1 r a,
    updateForumData 2 0 threadsPosts true (initialState threadsHeap) = Ok s1
    ∧ parseContent exampleEnv 2 0 threadsPosts "main" (initialState threadsHeap)
      = Ok (s1, r, a).
Proof.
  assert (updateForumData 2 0 threadsPosts true (initialState threadsHeap) = Ok _)
    as Hindex by (vm_compute; reflexivity).
  destruct (parseContent_returns exampleEnv 2 0 threadsPosts "main"
              (initialState threadsHeap) _ Hindex) as (r & a & Hrun).
  - intros post1 post2 p1 p2 H1 H2. clear -H1 H2. three_posts H1; three_posts H2;
      vm_compute; intros [= <-] [= <-]; first [intros _; reflexivity|intros [=]].
  - intros post p H. clear -H. three_posts H; vm_compute; by intros [= <-].
  - intros _ post p H. clear -H. three_posts H; vm_compute; by intros [= <-].
  - eexists _, r, a. split; [exact Hindex|exact Hrun].
Defined.

(** X19 at the reply 9 to post 5 of the three posts. *)
Lemma reply_below_parent_example :
  ∃ s1 r a parentDiv postDiv area,
    parseContent exampleEnv 2 0 threadsPosts "main" (initialState threadsHeap)
      = Ok (s1, r, a)
    ∧ postDivs r !! 5 = Some parentDiv
    ∧ postDivs r !! 9 = Some postDiv
    ∧ replies (rdom r) !! parentDiv = Some area
    ∧ parentNode (adom a) !! postDiv = Some area
    ∧ postDiv ∈ children (adom a) area
    ∧ parentNode (adom a) !! area = Some parentDiv
    ∧ area ∈ children (adom a) parentDiv.
Proof.
  assert (parseContent exampleEnv 2 0 threadsPosts "main" (initialState threadsHeap)
          = Ok (_, _, _)) as Hrun by (vm_compute; reflexivity).
  lazymatch type of Hrun with
  | _ = Ok (?s1, ?r, ?a) =>
      assert (postDivs r !! 5 = Some _) as Hparent by (vm_compute; reflexivity)
  end.
  lazymatch type of Hparent with
  | _ = Some ?parentDiv =>
      destruct (reply_below_parent exampleEnv 2 0 "main" threadsPosts
                  (initialState threadsHeap) _ _ _ 3%positive (setThreadId "fr|5" post9)
                  parentDiv Hrun)
        as (postDiv & area & Hrest);
        [by left|vm_compute; reflexivity|vm_compute; by intros [=]|exact Hparent| |]
  end.
  - intros q pq H. clear -H. three_posts H; vm_compute; intros [= <-];
      first [intros _; reflexivity|intros [=]].
  - eexists _, _, _, _, postDiv, area. split; [exact Hrun|]. split; [exact Hparent|].
    exact Hrest.
Defined.

(** X20 at post 7 of the three posts. *)
Lemma top_level_post_attached_example :
  ∃ s1 r a topicDiv postDiv,
    parseContent exampleEnv 2 0 threadsPosts "main" (initialState threadsHeap)
      = Ok (s1, r, a)
    ∧ topicDivs r !! "fr|7" = Some topicDiv
    ∧ postDivs r !! 7 = Some postDiv
    ∧ parentNode (adom a) !! postDiv = Some topicDiv
    ∧ postDiv ∈ children (adom a) topicDiv
    ∧ topicDiv ∈ children (adom a) (forumDiv a).
Proof.
  assert (parseContent exampleEnv 2 0 threadsPosts "main" (initialState threadsHeap)
          = Ok (_, _, _)) as Hrun by (vm_compute; reflexivity).
  destruct (top_level_post_attached exampleEnv 2 0 "main" threadsPosts
              (initialState threadsHeap) _ _ _ 2%positive (setThreadId "fr|7" post7) Hrun)
    as (topicDiv & postDiv & Htopic & Hdiv & Hplace & Hchild & Hout);
    [right; by left|vm_compute; reflexivity|reflexivity| |].
  - intros q pq H. clear -H. three_posts H; vm_compute; intros [= <-];
      first [intros _; reflexivity|intros [=]].
  - eexists _, _, _, topicDiv, postDiv. split; [exact Hrun|].
    split; [exact Htopic|]. split; [exact Hdiv|]. split; [exact Hplace|].
    split; [exact Hchild|]. apply Hout. vm_compute. first [by left|right; by left].
Defined.

(** X21 at the reply of the example. *)
Lemma replyButtonClick_opens_reply_example :
  ∃ s2 w first fp,
    replyButtonClick exampleEnv ∅ 2 2000 2%positive "Discuss" indexedState = Ok (s2, w)
    ∧ getOldestPostInThread 2 indexedState 2%positive = Ok first
    ∧ heap indexedState !! first = Some fp
    ∧ window_html w
      = makePostHtml (Some "Discuss") (post_locale fp) ((∅ : gmap loc string) !! first)
          (post_id (setThreadId "fr|5" post9))
    ∧ window_subject w = makePostSubject true (Some (setThreadId "fr|5" post9)) EmptyString
    ∧ window_text w = prefillPostText (Some "Discuss") None
    ∧ is_Some (window_forumDiv w)
    ∧ heap s2 = heap indexedState ∧ postHash s2 = postHash indexedState.
Proof.
  apply (replyButtonClick_opens_reply exampleEnv ∅ 2 1000 2000 examplePosts loadedState
           indexedState 2%positive (setThreadId "fr|5" post9) "Discuss").
  - vm_compute. reflexivity.
  - right. by left.
  - vm_compute. reflexivity.
  - vm_compute. reflexivity.
  - by vm_compute.
  - discriminate.
Defined.

(** X23 at the three posts, with a thread of another locale left in the
    thread index. *)
Lemma updateForumData_forgets_example :
  ∃ s',
    updateForumData 2 0 threadsPosts true (initialState threadsHeap) = Ok s'
    ∧ updateForumData 2 0 threadsPosts true staleState
      = Ok (mkState (heap s') (Some "fr") (Some 0) (postHash s') (threadHash s')).
Proof.
  assert (updateForumData 2 0 threadsPosts true (initialState threadsHeap) = Ok _)
    as Hrun by (vm_compute; reflexivity).
  eexists. split; [exact Hrun|].
  exact (updateForumData_forgets 2 0 threadsPosts (initialState threadsHeap) staleState _
           eq_refl Hrun).
Defined.

(** X24 at the three posts. *)
Lemma parseContent_keeps_posts_example :
  ∃ s' r a,
    parseContent exampleEnv 2 0 threadsPosts "main" (initialState threadsHeap)
      = Ok (s', r, a)
    ∧ sameShape threadsHeap (heap s')
    ∧ (∀ l, l ∉ threadsPosts → heap s' !! l = threadsHeap !! l)
    ∧ forumLocale s' = None.
Proof.
  assert (parseContent exampleEnv 2 0 threadsPosts "main" (initialState threadsHeap)
          = Ok (_, _, _)) as Hrun by (vm_compute; reflexivity).
  eexists _, _, _. split; [exact Hrun|].
  exact (parseContent_keeps_posts exampleEnv 2 0 threadsPosts "main"
           (initialState threadsHeap) _ _ _ Hrun).
Defined.

(** X25 at post 9 and post 5, of one thread, among the three posts. *)
Lemma one_container_per_thread_example :
  ∃ s' r a p1 p2 topicDiv1 topicDiv2,
    parseContent exampleEnv 2 0 threadsPosts "main" (initialState threadsHeap)
      = Ok (s', r, a)
    ∧ heap s' !! 3%positive = Some p1 ∧ heap s' !! 1%positive = Some p2
    ∧ topicDivs r !! threadKey p1 = Some topicDiv1
    ∧ topicDivs r !! threadKey p2 = Some topicDiv2
    ∧ (topicDiv1 = topicDiv2 ↔ post_threadId p1 = post_threadId p2).
Proof.
  assert (parseContent exampleEnv 2 0 threadsPosts "main" (initialState threadsHeap)
          = Ok (_, _, _)) as Hrun by (vm_compute; reflexivity).
  destruct (one_container_per_thread exampleEnv 2 0 threadsPosts "main"
              (initialState threadsHeap) _ _ _ 3%positive 1%positive Hrun)
    as (p1 & p2 & topicDiv1 & topicDiv2 & Hrest).
  - by left.
  - right; right; by left.
  - eexists _, _, _, p1, p2, topicDiv1, topicDiv2. split; [exact Hrun|exact Hrest].
Defined.

(** X26 at the reply 9 to post 5 of the three posts: its node is inside
    the container of the thread "fr|5". *)
Lemma post_inside_its_thread_example :
  ∃ s1 r a topicDiv postDiv,
    parseContent exampleEnv 2 0 threadsPosts "main" (initialState threadsHeap)
      = Ok (s1, r, a)
    ∧ topicDivs r !! "fr|5" = Some topicDiv
    ∧ postDivs r !! 9 = Some postDiv
    ∧ tc (childOf (adom a)) postDiv topicDiv.
Proof.
  assert (parseContent exampleEnv 2 0 threadsPosts "main" (initialState threadsHeap)
          = Ok (_, _, _)) as Hrun by (vm_compute; reflexivity).
  destruct (post_inside_its_thread exampleEnv 2 0 "main" threadsPosts
              (initialState threadsHeap) _ _ _ 3%positive (setThreadId "fr|5" post9) Hrun)
    as (topicDiv & postDiv & Hrest).
  - intros post1 post2 p1 p2 H1 H2. clear -H1 H2. three_posts H1; three_posts H2;
      vm_compute; intros [= <-] [= <-]; first [intros _; reflexivity|intros [=]].
  - intros q pq H. clear -H. three_posts H; vm_compute; by intros [= <-].
  - by left.
  - vm_compute; reflexivity.
  - eexists _, _, _, topicDiv, postDiv. split; [exact Hrun|exact Hrest].
Defined.
